(** * Real-time connection and resilient request layer of the Messenger client

    A shallow embedding of two classes of the repository:

    - [NetworkManager] (the second class of [src/client/AuthManager.js]):
      the request executor with its rate limit, retry loop and linear
      backoff;
    - [WebSocketManager] ([src/client/WebSocketManager.js]): the persistent
      channel with its connect guard, reconnect schedule, heartbeat timers,
      acknowledgment bookkeeping and frame dispatch.

    JavaScript objects become records, [Map]s become [gmap]s, the clock
    ([Date.now()]) and the timer table of the event loop are explicit
    components of the state, and a [throw] is an explicit [Exn] result. *)

From Stdlib Require Import ZArith Lia.
From stdpp Require Import base option list strings gmap pretty.

(** ** Results of code that may throw *)

Inductive res (E A : Type) : Type :=
| Val (a : A)
| Exn (e : E).
Arguments Val {E A} a.
Arguments Exn {E A} e.

(** ** Timers of the run time *)

Module Timers.
Local Open Scope Z_scope.

(** The largest delay that [setTimeout] and [setInterval] honour
    ([2^31 - 1] ms, the [TIMEOUT_MAX] of Node). *)
Definition TIMEOUT_MAX : Z := 2147483647.

(** The delay after which a timer set with [ms] fires: a delay above
    [TIMEOUT_MAX] or below 1 is replaced by 1. *)
Definition timer_delay (ms : Z) : Z :=
  if (ms <? 1) || (TIMEOUT_MAX <? ms) then 1 else ms.

End Timers.

(** * The error classes ([utils/errors.js]) *)

Module Errors.
Local Open Scope Z_scope.

(** The classes of the module; every one but the first extends
    [MessengerError]. *)
Inductive Class : Type :=
| MessengerError
| AuthError
| NetworkError
| ValidationError
| RateLimitError
| MediaError
| WebSocketError
| EncryptionError
| TimeoutError.

(** [this.name], as the constructors set it. *)
Definition name (c : Class) : string :=
  match c with
  | MessengerError => "MessengerError"
  | AuthError => "AuthError"
  | NetworkError => "NetworkError"
  | ValidationError => "ValidationError"
  | RateLimitError => "RateLimitError"
  | MediaError => "MediaError"
  | WebSocketError => "WebSocketError"
  | EncryptionError => "EncryptionError"
  | TimeoutError => "TimeoutError"
  end.

(** [this.category]; the base class sets none. *)
Definition category (c : Class) : option string :=
  match c with
  | MessengerError => None
  | AuthError => Some "authentication"%string
  | NetworkError => Some "network"%string
  | ValidationError => Some "validation"%string
  | RateLimitError => Some "rate_limit"%string
  | MediaError => Some "media"%string
  | WebSocketError => Some "websocket"%string
  | EncryptionError => Some "encryption"%string
  | TimeoutError => Some "timeout"%string
  end.

(** A [code] as it is found on an error or in [details]: Node and axios
    use strings, a WebSocket close code is a number. *)
Inductive Code : Type :=
| Str (s : string)
| Num (n : Z).

(** The entries of [details] that the methods of the classes read. An
    entry that is missing, [undefined] or [null] is [None];
    [originalError] holds the [code] property of that error. *)
Record Details : Type := {
  statusCode : option Z;
  originalError : option (option Code);
  code : option Code;
  retryAfter : option Z
}.

(** [details = {}] *)
Definition no_details : Details :=
  {| statusCode := None; originalError := None; code := None; retryAfter := None |}.

Record Error : Type := { class : Class; message : string; details : Details }.

(** [['ECONNRESET', 'ECONNREFUSED', 'ENOTFOUND', 'ETIMEDOUT'].includes(code)] *)
Definition network_codes : list string :=
  ["ECONNRESET"; "ECONNREFUSED"; "ENOTFOUND"; "ETIMEDOUT"]%string.

Definition includes_string (l : list string) (c : option Code) : bool :=
  match c with
  | Some (Str s) => bool_decide (s ∈ l)
  | _ => false
  end.

Definition includes_number (l : list Z) (c : option Code) : bool :=
  match c with
  | Some (Num n) => bool_decide (n ∈ l)
  | _ => false
  end.

(** [NetworkError.isRetryable()], which reads [details] only. *)
Definition NetworkError_isRetryable (d : Details) : bool :=
  if (match statusCode d with
      | Some s => (500 <=? s) || (s =? 429)
      | None => false
      end)
  then true
  else match originalError d with
       | Some c => includes_string network_codes c
       | None => false
       end.

(** [isRetryable()], by class. *)
Definition isRetryable (e : Error) : bool :=
  match class e with
  | MessengerError | AuthError | ValidationError | EncryptionError => false
  | RateLimitError | TimeoutError => true
  | NetworkError => NetworkError_isRetryable (details e)
  | MediaError =>
      includes_string ["UPLOAD_FAILED"; "PROCESSING_FAILED"]%string (code (details e))
  | WebSocketError =>
      includes_number [1000; 1001; 1002; 1003; 1005; 1006; 1011; 1012; 1013; 1014; 1015]
        (code (details e))
  end.

(** [NetworkError.getStatusCode()]: [this.details.statusCode || null] *)
Definition getStatusCode (e : Error) : option Z :=
  match statusCode (details e) with
  | Some s => if s =? 0 then None else Some s
  | None => None
  end.

(** [RateLimitError.getRetryAfter()]: [this.details.retryAfter || 60] *)
Definition getRetryAfter (e : Error) : Z :=
  match retryAfter (details e) with
  | Some s => if s =? 0 then 60 else s
  | None => 60
  end.

(** What [new ErrorClass(message, details)] of [ErrorFactory.create]
    comes to. *)
Inductive Created : Type :=
| Built (e : Error)        (* an instance of one of the classes *)
| Wrapper (text : string)  (* [new Object(message, details)]: a [String] object *)
| NotAConstructor.         (* a [TypeError]: the value found is not a constructor *)

(** The properties that the literal [errorClasses] inherits from
    [Object.prototype] besides [constructor]; none of them can be called
    with [new]. *)
Definition inherited : list string :=
  ["__defineGetter__"; "__defineSetter__"; "hasOwnProperty"; "__lookupGetter__";
   "__lookupSetter__"; "isPrototypeOf"; "propertyIsEnumerable"; "toString";
   "valueOf"; "__proto__"; "toLocaleString"]%string.

(** [errorClasses[type]], for the eight keys of the literal. *)
Definition errorClasses (type : string) : option Class :=
  if String.eqb type "auth" then Some AuthError
  else if String.eqb type "network" then Some NetworkError
  else if String.eqb type "validation" then Some ValidationError
  else if String.eqb type "rate_limit" then Some RateLimitError
  else if String.eqb type "media" then Some MediaError
  else if String.eqb type "websocket" then Some WebSocketError
  else if String.eqb type "encryption" then Some EncryptionError
  else if String.eqb type "timeout" then Some TimeoutError
  else None.

(** [ErrorFactory.create(type, message, details)] *)
Definition create (type : string) (message : string) (details : Details) : Created :=
  match errorClasses type with
  | Some c => Built {| class := c; message := message; details := details |}
  | None =>
      if String.eqb type "constructor" then Wrapper message
      else if bool_decide (type ∈ inherited) then NotAConstructor
      else Built {| class := MessengerError; message := message; details := details |}
  end.

(** The part of an HTTP response that [fromHttpResponse] reads. *)
Record Response : Type := { status : Z; statusText : string }.

(** [ErrorFactory.fromHttpResponse(response, url, method)] *)
Definition fromHttpResponse (response : Response) (url method : string) : Created :=
  let s := status response in
  let '(type, message) :=
    if (s =? 401) || (s =? 403) then ("auth", "Authentication failed")
    else if s =? 400 then ("validation", "Invalid request")
    else if s =? 429 then ("rate_limit", "Rate limit exceeded")
    else if 500 <=? s then ("network", "Server error")
    else ("network", "HTTP " +:+ pretty s +:+ ": " +:+ statusText response) in
  create type message
    {| statusCode := Some s; originalError := None; code := None; retryAfter := None |}.

(** The part of a failure of the transport that [fromNetworkError]
    reads: [error.message] and [error.code]. *)
Record Failure : Type := { failure_message : string; failure_code : option Code }.

Definition has_code (f : Failure) (c : string) : bool :=
  match failure_code f with
  | Some (Str s) => String.eqb s c
  | _ => false
  end.

(** [ErrorFactory.fromNetworkError(error, url, method)] *)
Definition fromNetworkError (error : Failure) (url method : string) : Created :=
  let '(type, message) :=
    if has_code error "ECONNREFUSED" then ("network", "Connection refused")
    else if has_code error "ENOTFOUND" then ("network", "Host not found")
    else if has_code error "ETIMEDOUT" then ("timeout", "Request timed out")
    else ("network", failure_message error) in
  create type message
    {| statusCode := None; originalError := Some (failure_code error);
       code := None; retryAfter := None |}.

End Errors.

(** * The request executor *)

Module NetworkManager.
Local Open Scope Z_scope.

(** The mutable fields of a [NetworkManager] instance ("Request tracking"
    in the constructor). The axios instance is represented by its
    [validateStatus] policy below. *)
Record t : Type := mk {
  requestCount : Z;
  lastRequestTime : Z;
  rateLimitDelay : Z;
  maxRetries : Z;
  retryDelay : Z
}.

(** [Protocol.RATE_LIMIT_DELAY], [Protocol.MAX_RETRIES], [Protocol.RETRY_DELAY]. *)
Definition RATE_LIMIT_DELAY : Z := 1000.
Definition MAX_RETRIES : Z := 3.
Definition RETRY_DELAY : Z := 2000.

(** State left by the constructor. *)
Definition create : t :=
  {| requestCount := 0; lastRequestTime := 0;
     rateLimitDelay := RATE_LIMIT_DELAY; maxRetries := MAX_RETRIES;
     retryDelay := RETRY_DELAY |}.

Definition set_requestCount (v : Z) (st : t) : t :=
  mk v (lastRequestTime st) (rateLimitDelay st) (maxRetries st) (retryDelay st).
Definition set_lastRequestTime (v : Z) (st : t) : t :=
  mk (requestCount st) v (rateLimitDelay st) (maxRetries st) (retryDelay st).

(** What the network does with one [axios.request(config)]: either the
    remote answers with a status, or the transport fails with a Node error
    code ("ECONNREFUSED", "ETIMEDOUT", ...) and there is no response.
    [latency] is the time the awaited call takes. *)
Inductive Wire : Type :=
| Answered (status : Z)
| Failed (code : string).

Record Reply : Type := { wire : Wire; latency : Z }.

(** The values that reach the [catch] of [_makeRequest].

    - [AxiosError code response]: rejected by axios; [error.code] and
      [error.response.status] as axios sets them.
    - [HttpError status]: the [NetworkError] built by [_createHttpError].
      Class [NetworkError] stores the status under [details.statusCode]; it
      defines neither a [code] nor a [response] property. *)
Inductive Thrown : Type :=
| AxiosError (code : option string) (response : option Z)
| HttpError (statusCode : Z).

(** [error.code] *)
Definition error_code (e : Thrown) : option string :=
  match e with
  | AxiosError c _ => c
  | HttpError _ => None
  end.

(** [error.response && error.response.status] *)
Definition error_response_status (e : Thrown) : option Z :=
  match e with
  | AxiosError _ r => r
  | HttpError _ => None
  end.

(** [validateStatus: (status) => status < 500] of the axios instance. *)
Definition validateStatus (status : Z) : bool := status <? 500.

(** [await this.axios.request(config)]: axios resolves when
    [validateStatus] accepts the status and rejects otherwise. *)
Definition axios_request (w : Wire) : res Thrown Z :=
  match w with
  | Answered status =>
      if validateStatus status then Val status
      else Exn (AxiosError (Some "ERR_BAD_RESPONSE"%string) (Some status))
  | Failed code => Exn (AxiosError (Some code) None)
  end.

(** The part of [options] that the executor itself inspects. *)
Record Options : Type := { followRedirect : option bool }.

(** [_handleResponse(response, options)] *)
Definition _handleResponse (status : Z) (options : Options) : res Thrown Z :=
  if (match followRedirect options with Some false => true | _ => false end)
     && (300 <=? status) && (status <? 400)
  then Val status
  else if 400 <=? status then Exn (HttpError status)
  else Val status.

Definition is_retry_code (c : string) : bool :=
  bool_decide (c = "ECONNRESET"%string) || bool_decide (c = "ECONNREFUSED"%string)
  || bool_decide (c = "ENOTFOUND"%string) || bool_decide (c = "ETIMEDOUT"%string).

(** [_shouldRetry(error, attempt)] *)
Definition _shouldRetry (st : t) (error : Thrown) (attempt : Z) : bool :=
  if maxRetries st <=? attempt then false
  else if (match error_code error with Some c => is_retry_code c | None => false end)
  then true
  else if (match error_response_status error with Some s => 500 <=? s | None => false end)
  then true
  else if (match error_response_status error with Some s => s =? 429 | None => false end)
  then true
  else if (match error_response_status error with
           | Some s => (400 <=? s) && (s <? 500) | None => false end)
  then false
  else false.

(** [_wait(ms)], a promise resolved by [setTimeout(resolve, ms)]: the
    timer is taken to fire exactly when its delay has passed, and that
    delay is 1 when [ms] is below 1 or above [TIMEOUT_MAX]. *)
Definition _wait (ms : Z) (now : Z) : Z := now + Timers.timer_delay ms.

(** [_updateRequestTracking()] at clock [now]. *)
Definition _updateRequestTracking (st : t) (now : Z) : t :=
  set_lastRequestTime now st.

(** What an observer of one client sees, in order. *)
Inductive Event : Type :=
| RateLimitWait (ms : Z)            (* the [_wait] of [_applyRateLimit] *)
| Dispatch (attempt : Z) (time : Z) (* [axios.request] called at [time] *)
| Warn (attempt : Z)                (* the [console.warn] of the retry branch *)
| BackoffWait (ms : Z).             (* the [_wait] of the retry branch *)

(** [_applyRateLimit()]: returns the clock after the suspension and what
    was observed. *)
Definition _applyRateLimit (st : t) (now : Z) : Z * list Event :=
  let timeSinceLastRequest := now - lastRequestTime st in
  if timeSinceLastRequest <? rateLimitDelay st then
    let waitTime := rateLimitDelay st - timeSinceLastRequest in
    (_wait waitTime now, [RateLimitWait waitTime])
  else (now, []).

(** The [try] block of one loop iteration: the request, then, when axios
    resolved, [_updateRequestTracking] and [_handleResponse]. Returns the
    result, the manager and the clock. *)
Definition try_block (options : Options) (r : Reply) (st : t) (now : Z)
  : res Thrown Z * t * Z :=
  let now1 := now + latency r in
  match axios_request (wire r) with
  | Val status =>
      let st1 := _updateRequestTracking st now1 in
      (_handleResponse status options, st1, now1)
  | Exn error => (Exn error, st, now1)
  end.

(** How the [for] loop is left. *)
Inductive LoopExit : Type :=
| Returned (status : Z)              (* [return] inside [try] *)
| Fell (lastError : option Thrown)   (* [break], or the loop condition failed *)
| OutOfFuel.

Record LoopRun : Type := {
  exit : LoopExit;
  after : t;
  clock : Z;
  events : list Event
}.

(** [for (let attempt = ...; attempt <= this.maxRetries; attempt++)].
    [env k] is what the network does with attempt [k]. *)
Fixpoint attempt_loop (env : Z -> Reply) (options : Options) (fuel : nat)
    (attempt : Z) (lastError : option Thrown) (st : t) (now : Z) : LoopRun :=
  match fuel with
  | O => {| exit := OutOfFuel; after := st; clock := now; events := [] |}
  | S fuel' =>
      if attempt <=? maxRetries st then
        match try_block options (env attempt) st now with
        | (Val status, st1, now1) =>
            {| exit := Returned status; after := st1; clock := now1;
               events := [Dispatch attempt now] |}
        | (Exn error, st1, now1) =>
            if _shouldRetry st1 error attempt then
              let '(now2, waited) :=
                if attempt <? maxRetries st1
                then (_wait (retryDelay st1 * attempt) now1,
                      [BackoffWait (retryDelay st1 * attempt)])
                else (now1, []) in
              let rest := attempt_loop env options fuel' (attempt + 1)
                            (Some error) st1 now2 in
              {| exit := exit rest; after := after rest; clock := clock rest;
                 events := Dispatch attempt now :: Warn attempt :: waited
                           ++ events rest |}
            else
              {| exit := Fell (Some error); after := st1; clock := now1;
                 events := [Dispatch attempt now] |}
        end
      else {| exit := Fell lastError; after := st; clock := now; events := [] |}
  end.

(** The [NetworkError] built by [_createNetworkError]. *)
Record NetworkError : Type := {
  statusCode : option Z;
  originalError : Thrown;
  url : string;
  method : string
}.

Definition _createNetworkError (error : Thrown) (u m : string) : NetworkError :=
  {| statusCode := error_response_status error; originalError := error;
     url := u; method := m |}.

Inductive Outcome : Type :=
| Resolved (status : Z)
| Rejected (e : NetworkError)
| RejectedTypeError   (* [_createNetworkError(null, ...)] reads [null.response] *)
| Diverged.

Record Run : Type := {
  outcome : Outcome;
  final : t;
  finish : Z;
  observed : list Event
}.

(** [_makeRequest(method, url, data, options)] started at clock [now]. *)
Definition _makeRequest (env : Z -> Reply) (m u : string) (options : Options)
    (st : t) (now : Z) : Run :=
  let st0 := set_requestCount (requestCount st + 1) st in
  let '(now0, limited) := _applyRateLimit st0 now in
  let r := attempt_loop env options (S (Z.to_nat (maxRetries st0))) 1 None st0 now0 in
  {| outcome := match exit r with
                | Returned status => Resolved status
                | Fell (Some error) => Rejected (_createNetworkError error u m)
                | Fell None => RejectedTypeError
                | OutOfFuel => Diverged
                end;
     final := after r;
     finish := clock r;
     observed := limited ++ events r |}.

(** *** Queries on what was observed *)

(** Attempt numbers dispatched, in order. *)
Fixpoint dispatched (evs : list Event) : list Z :=
  match evs with
  | [] => []
  | Dispatch attempt _ :: rest => attempt :: dispatched rest
  | _ :: rest => dispatched rest
  end.

(** Start times of the dispatched attempts, in order. *)
Fixpoint dispatch_times (evs : list Event) : list Z :=
  match evs with
  | [] => []
  | Dispatch _ time :: rest => time :: dispatch_times rest
  | _ :: rest => dispatch_times rest
  end.

(** The backoff wait that directly precedes the dispatch of attempt [k]. *)
Fixpoint backoff_before (k : Z) (evs : list Event) : option Z :=
  match evs with
  | [] => None
  | BackoffWait ms :: rest =>
      match rest with
      | Dispatch attempt _ :: _ =>
          if attempt =? k then Some ms else backoff_before k rest
      | _ => backoff_before k rest
      end
  | _ :: rest => backoff_before k rest
  end.

(** Is a backoff wait the last thing that happened? *)
Definition ends_in_backoff (evs : list Event) : bool :=
  match last evs with
  | Some (BackoffWait _) => true
  | _ => false
  end.

(** Number of rate-limit suspensions. *)
Fixpoint rate_limit_waits (evs : list Event) : nat :=
  match evs with
  | [] => O
  | RateLimitWait _ :: rest => S (rate_limit_waits rest)
  | _ :: rest => rate_limit_waits rest
  end.

(** Are all gaps between consecutive times at least [delay]? *)
Fixpoint spaced (delay : Z) (times : list Z) : bool :=
  match times with
  | t1 :: ((t2 :: _) as rest) => (delay <=? t2 - t1) && spaced delay rest
  | _ => true
  end.

(** The fields an attempt must leave alone. *)
Definition same_settings (st st' : t) : Prop :=
  requestCount st' = requestCount st /\
  rateLimitDelay st' = rateLimitDelay st /\
  maxRetries st' = maxRetries st /\
  retryDelay st' = retryDelay st.

(** Did the transport obtain a response that axios accepts? *)
Definition answered_below_500 (w : Wire) : bool :=
  match w with
  | Answered status => validateStatus status
  | Failed _ => false
  end.

(** Raw network results that the retry policy is written to retry. *)
Definition transient (w : Wire) : bool :=
  match w with
  | Answered status => 500 <=? status
  | Failed code => is_retry_code code
  end.

(** Shape of what a loop started at attempt [a] may leave behind, for
    base delay [d]. *)
Inductive loop_shape (d : Z) : Z -> list Event -> Prop :=
| shape_none a : loop_shape d a []
| shape_last a time : loop_shape d a [Dispatch a time]
| shape_retry a time time' rest :
    loop_shape d (a + 1) (Dispatch (a + 1) time' :: rest) ->
    loop_shape d a (Dispatch a time :: Warn a :: BackoffWait (d * a)
                    :: Dispatch (a + 1) time' :: rest).

(** *** Auxiliary definitions and sample networks *)

(** One more unit of fuel than attempts left is enough. *)
Definition enough_fuel (st : t) (attempt : Z) (fuel : nat) : Prop :=
  (Z.to_nat (maxRetries st - attempt + 1) < fuel)%nat.

Definition no_options : Options := {| followRedirect := None |}.

(** Every attempt is answered with [status] after 5 ms. *)
Definition always (status : Z) (k : Z) : Reply :=
  {| wire := Answered status; latency := 5 |}.

(** Every attempt is refused by the remote host after 5 ms. *)
Definition refused (k : Z) : Reply :=
  {| wire := Failed "ECONNREFUSED"; latency := 5 |}.

(** Two logical requests issued back to back: the second starts at the
    clock and with the manager the first one left. *)
Definition back_to_back (env1 env2 : Z -> Reply) (st : t) (now : Z) : list Event :=
  let first := _makeRequest env1 "GET" "/a" no_options st now in
  let second := _makeRequest env2 "GET" "/b" no_options (final first) (finish first) in
  observed first ++ observed second.

(** ** The rest of the class *)

(** The [details] that [_createNetworkError] hands to [new NetworkError],
    as the class reads them: [statusCode], and [originalError] with its
    [code]. *)
Definition details_of (e : NetworkError) : Errors.Details :=
  {| Errors.statusCode := statusCode e;
     Errors.originalError := Some (Errors.Str <$> error_code (originalError e));
     Errors.code := None;
     Errors.retryAfter := None |}.

(** [isRetryable()] of the error that a request is rejected with. *)
Definition isRetryable (e : NetworkError) : bool :=
  Errors.NetworkError_isRetryable (details_of e).

(** [getStatusCode()] of the error that a request is rejected with. *)
Definition getStatusCode (e : NetworkError) : option Z :=
  match statusCode e with
  | Some s => if s =? 0 then None else Some s
  | None => None
  end.

(** [value || current], for an argument that is a number or is omitted. *)
Definition or_current (value : option Z) (current : Z) : Z :=
  match value with
  | Some n => if n =? 0 then current else n
  | None => current
  end.

(** [updateRateLimit(delay, maxRetries, retryDelay)] *)
Definition updateRateLimit (delay maxRetries' retryDelay' : option Z) (st : t) : t :=
  mk (requestCount st) (lastRequestTime st)
    (or_current delay (rateLimitDelay st))
    (or_current maxRetries' (maxRetries st))
    (or_current retryDelay' (retryDelay st)).

(** [clearStats()] *)
Definition clearStats (st : t) : t :=
  mk 0 0 (rateLimitDelay st) (maxRetries st) (retryDelay st).

(** The time spent in the backoff waits of a request with base delay [d]
    that makes [n] attempts: the timers set with [d * 1], [d * 2], ...,
    [d * (n - 1)]. *)
Definition total_backoff (d n : Z) : Z :=
  foldr Z.add 0 (map (fun k => Timers.timer_delay (d * k)) (seqZ 1 (n - 1))).

(** The clock at which [_applyRateLimit] lets a request go on. *)
Definition released (st : t) (now : Z) : Z := (_applyRateLimit st now).1.

(** A series of [updateRateLimit] calls, each with its three arguments. *)
Definition configured (updates : list (option Z * option Z * option Z)) (st : t) : t :=
  foldl (fun st '(delay, maxRetries', retryDelay') =>
           updateRateLimit delay maxRetries' retryDelay' st) st updates.

(** None of the three settings is 0. *)
Definition nonzero_settings (st : t) : Prop :=
  rateLimitDelay st <> 0 /\ maxRetries st <> 0 /\ retryDelay st <> 0.

(** *** Sequences of requests *)

(** One call of the client: what the network does with its attempts, the
    verb, the target, the options, and the time that passes between the
    end of the previous call and this one. *)
Record Call : Type := {
  network : Z -> Reply;
  verb : string;
  target : string;
  settings : Options;
  idle : Z
}.

(** Calls made one after the other, each awaited before the next. *)
Fixpoint session (calls : list Call) (st : t) (now : Z) : list Run :=
  match calls with
  | [] => []
  | c :: rest =>
      let r := _makeRequest (network c) (verb c) (target c) (settings c) st (now + idle c) in
      r :: session rest (final r) (finish r)
  end.

(** The manager after a session. *)
Fixpoint after_session (calls : list Call) (st : t) (now : Z) : t :=
  match calls with
  | [] => st
  | c :: rest =>
      let r := _makeRequest (network c) (verb c) (target c) (settings c) st (now + idle c) in
      after_session rest (final r) (finish r)
  end.

(** Two calls: the first is refused three times, the second, made 200 ms
    after the first has ended, is answered at once. *)
Definition two_calls : list Call :=
  [ {| network := refused; verb := "GET"; target := "/a"; settings := no_options;
       idle := 0 |};
    {| network := always 200; verb := "GET"; target := "/b"; settings := no_options;
       idle := 200 |} ].

(** The time the first [n] attempts spend waiting for the network. *)
Definition total_latency (env : Z -> Reply) (n : Z) : Z :=
  foldr Z.add 0 (map (fun k => latency (env k)) (seqZ 1 n)).

(** The rate-limit suspensions observed. *)
Fixpoint rate_limit_suspensions (evs : list Event) : list Z :=
  match evs with
  | [] => []
  | RateLimitWait ms :: rest => ms :: rate_limit_suspensions rest
  | _ :: rest => rate_limit_suspensions rest
  end.

End NetworkManager.


(** * The persistent channel *)

Module WebSocketManager.
Local Open Scope string_scope.
Local Open Scope list_scope.
Local Open Scope Z_scope.

(** ** JavaScript values and errors *)

(** An [Error] object: its class name and its message. *)
Record JsError : Type := { name : string; message : string }.

Definition NetworkError (msg : string) : JsError :=
  {| name := "NetworkError"; message := msg |}.
Definition TypeError (msg : string) : JsError :=
  {| name := "TypeError"; message := msg |}.
Definition SyntaxError (msg : string) : JsError :=
  {| name := "SyntaxError"; message := msg |}.
Definition PlainError (msg : string) : JsError :=
  {| name := "Error"; message := msg |}.

(** The values that frames and event payloads are made of. *)
#[local] Unset Elimination Schemes.
Inductive Value : Type :=
| VUndefined
| VNull
| VBool (b : bool)
| VNum (n : Z)
| VStr (s : string)
| VError (e : JsError)
| VObj (fields : list (string * Value)).
#[local] Set Elimination Schemes.

(** Own property [key] of an object literal. *)
Fixpoint field (key : string) (fields : list (string * Value)) : Value :=
  match fields with
  | [] => VUndefined
  | (k, v) :: rest => if String.eqb k key then v else field key rest
  end.

(** [v === "literal"] *)
Definition is_str (v : Value) (literal : string) : bool :=
  match v with
  | VStr s => String.eqb s literal
  | _ => false
  end.

(** Truthiness, as tested by [if (v)] and [v ? a : b]. *)
Definition truthy (v : Value) : bool :=
  match v with
  | VUndefined | VNull => false
  | VBool b => b
  | VNum n => negb (n =? 0)
  | VStr s => negb (String.eqb s "")
  | VError _ | VObj _ => true
  end.

(** An inbound frame after [JSON.parse(data.toString())]: the parser
    either throws or yields a value. *)
Inductive Frame : Type :=
| Garbled
| Parsed (v : Value).

(** ** Timers, promises, listeners *)

(** What runs when a timer fires. *)
Inductive Callback : Type :=
| HeartbeatTick       (* the [setInterval] callback of [_startHeartbeat] *)
| HeartbeatExpired    (* the [setTimeout] callback of [_startHeartbeatTimeout] *)
| ReconnectDue        (* the [setTimeout] callback of [_scheduleReconnect] *)
| AckExpired (promise : nat). (* the [setTimeout] callback of [_waitForAcknowledgment] *)

Record Timer : Type := { delay : Z; repeating : bool; callback : Callback }.

Inductive Promise : Type :=
| Pending
| Fulfilled (v : Value)
| Rejected (e : JsError).

(** A registered listener.
    - [Subscriber id body]: a handler of a user of the manager; called
      with the arguments of an event, it throws [e] when [body] says
      [Some e] and returns otherwise.
    - [AckHandler messageId timer promise]: the closure [ackHandler] of
      [_waitForAcknowledgment].
    - [AuthHandler id]: the closure [authHandler] of a
      [_waitForAuthentication] whose wait has ended by its timeout. *)
Inductive Listener : Type :=
| Subscriber (id : nat) (body : list Value -> option JsError)
| AckHandler (messageId : string) (timer promise : nat)
| AuthHandler (id : nat).

(** Function identity, as [removeListener] compares it; every closure is
    registered once, under a handle of its own. *)
Definition same_listener (l1 l2 : Listener) : bool :=
  match l1, l2 with
  | Subscriber a _, Subscriber b _ => Nat.eqb a b
  | AckHandler _ _ p, AckHandler _ _ q => Nat.eqb p q
  | AuthHandler a, AuthHandler b => Nat.eqb a b
  | _, _ => false
  end.

Inductive Log : Type :=
| Emitted (event : string) (args : list Value)  (* [this.emit(event, ...args)] *)
| Called (subscriber : nat) (event : string)    (* a subscriber's handler was entered *)
| Console (level : string) (text : string)      (* [console.log/warn/error] *)
| Sent (socket : nat) (frame : Value)           (* [ws.send(JSON.stringify(frame))] *)
| Created (socket : nat)                        (* [new WebSocket(...)] *)
| Closing (socket : nat)                        (* [ws.close(1000, ...)] *)
| Forwarded (messageData : Value).              (* [client.messages.handleIncomingMessage] *)

(** ** The manager *)

(** The fields of a [WebSocketManager], followed by the parts of the
    JavaScript run time that its methods act on. *)
Record t : Type := mk {
  ws : option nat;  (* [this.ws]: the transport the handle refers to *)
  isConnected : bool;
  isConnecting : bool;
  reconnectAttempts : Z;
  maxReconnectAttempts : Z;
  reconnectDelay : Z;
  heartbeatInterval : option nat;
  heartbeatTimeout : option nat;
  pendingMessages : gmap string Value;  (* [Map] from message id to the stored message *)
  listeners : list (string * Listener);  (* the [EventEmitter] part, in registration order *)
  autoReconnect : bool;  (* [this.client.options.autoReconnect] *)
  now : Z;  (* [Date.now()] *)
  timers : gmap nat Timer;  (* armed [setTimeout] / [setInterval] timers *)
  promises : gmap nat Promise;  (* promises handed out by [_waitForAcknowledgment] *)
  live : list nat;  (* transports created and not closed since *)
  nextHandle : nat;  (* next unused timer / promise / transport handle *)
  log : list Log  (* what the manager did, oldest first *)
}.

Definition set_ws (v : option nat) (s : t) : t :=
  mk v (isConnected s) (isConnecting s) (reconnectAttempts s)
    (maxReconnectAttempts s) (reconnectDelay s) (heartbeatInterval s)
    (heartbeatTimeout s) (pendingMessages s) (listeners s) (autoReconnect s)
    (now s) (timers s) (promises s) (live s) (nextHandle s) (log s).
Definition set_isConnected (v : bool) (s : t) : t :=
  mk (ws s) v (isConnecting s) (reconnectAttempts s) (maxReconnectAttempts s)
    (reconnectDelay s) (heartbeatInterval s) (heartbeatTimeout s)
    (pendingMessages s) (listeners s) (autoReconnect s) (now s) (timers s)
    (promises s) (live s) (nextHandle s) (log s).
Definition set_isConnecting (v : bool) (s : t) : t :=
  mk (ws s) (isConnected s) v (reconnectAttempts s) (maxReconnectAttempts s)
    (reconnectDelay s) (heartbeatInterval s) (heartbeatTimeout s)
    (pendingMessages s) (listeners s) (autoReconnect s) (now s) (timers s)
    (promises s) (live s) (nextHandle s) (log s).
Definition set_reconnectAttempts (v : Z) (s : t) : t :=
  mk (ws s) (isConnected s) (isConnecting s) v (maxReconnectAttempts s)
    (reconnectDelay s) (heartbeatInterval s) (heartbeatTimeout s)
    (pendingMessages s) (listeners s) (autoReconnect s) (now s) (timers s)
    (promises s) (live s) (nextHandle s) (log s).
Definition set_heartbeatInterval (v : option nat) (s : t) : t :=
  mk (ws s) (isConnected s) (isConnecting s) (reconnectAttempts s)
    (maxReconnectAttempts s) (reconnectDelay s) v (heartbeatTimeout s)
    (pendingMessages s) (listeners s) (autoReconnect s) (now s) (timers s)
    (promises s) (live s) (nextHandle s) (log s).
Definition set_heartbeatTimeout (v : option nat) (s : t) : t :=
  mk (ws s) (isConnected s) (isConnecting s) (reconnectAttempts s)
    (maxReconnectAttempts s) (reconnectDelay s) (heartbeatInterval s) v
    (pendingMessages s) (listeners s) (autoReconnect s) (now s) (timers s)
    (promises s) (live s) (nextHandle s) (log s).
Definition set_pendingMessages (v : gmap string Value) (s : t) : t :=
  mk (ws s) (isConnected s) (isConnecting s) (reconnectAttempts s)
    (maxReconnectAttempts s) (reconnectDelay s) (heartbeatInterval s)
    (heartbeatTimeout s) v (listeners s) (autoReconnect s) (now s) (timers s)
    (promises s) (live s) (nextHandle s) (log s).
Definition set_listeners (v : list (string * Listener)) (s : t) : t :=
  mk (ws s) (isConnected s) (isConnecting s) (reconnectAttempts s)
    (maxReconnectAttempts s) (reconnectDelay s) (heartbeatInterval s)
    (heartbeatTimeout s) (pendingMessages s) v (autoReconnect s) (now s)
    (timers s) (promises s) (live s) (nextHandle s) (log s).
Definition set_timers (v : gmap nat Timer) (s : t) : t :=
  mk (ws s) (isConnected s) (isConnecting s) (reconnectAttempts s)
    (maxReconnectAttempts s) (reconnectDelay s) (heartbeatInterval s)
    (heartbeatTimeout s) (pendingMessages s) (listeners s) (autoReconnect s)
    (now s) v (promises s) (live s) (nextHandle s) (log s).
Definition set_promises (v : gmap nat Promise) (s : t) : t :=
  mk (ws s) (isConnected s) (isConnecting s) (reconnectAttempts s)
    (maxReconnectAttempts s) (reconnectDelay s) (heartbeatInterval s)
    (heartbeatTimeout s) (pendingMessages s) (listeners s) (autoReconnect s)
    (now s) (timers s) v (live s) (nextHandle s) (log s).
Definition set_live (v : list nat) (s : t) : t :=
  mk (ws s) (isConnected s) (isConnecting s) (reconnectAttempts s)
    (maxReconnectAttempts s) (reconnectDelay s) (heartbeatInterval s)
    (heartbeatTimeout s) (pendingMessages s) (listeners s) (autoReconnect s)
    (now s) (timers s) (promises s) v (nextHandle s) (log s).
Definition set_nextHandle (v : nat) (s : t) : t :=
  mk (ws s) (isConnected s) (isConnecting s) (reconnectAttempts s)
    (maxReconnectAttempts s) (reconnectDelay s) (heartbeatInterval s)
    (heartbeatTimeout s) (pendingMessages s) (listeners s) (autoReconnect s)
    (now s) (timers s) (promises s) (live s) v (log s).
Definition set_log (v : list Log) (s : t) : t :=
  mk (ws s) (isConnected s) (isConnecting s) (reconnectAttempts s)
    (maxReconnectAttempts s) (reconnectDelay s) (heartbeatInterval s)
    (heartbeatTimeout s) (pendingMessages s) (listeners s) (autoReconnect s)
    (now s) (timers s) (promises s) (live s) (nextHandle s) v.

Arguments set_ws v s /.
Arguments set_isConnected v s /.
Arguments set_isConnecting v s /.
Arguments set_reconnectAttempts v s /.
Arguments set_heartbeatInterval v s /.
Arguments set_heartbeatTimeout v s /.
Arguments set_pendingMessages v s /.
Arguments set_listeners v s /.
Arguments set_timers v s /.
Arguments set_promises v s /.
Arguments set_live v s /.
Arguments set_nextHandle v s /.
Arguments set_log v s /.

(** State left by the constructor ([_setupMessageHandlers] is not defined
    by the class and is left out). *)
Definition create (reconnect : bool) : t :=
  {| ws := None; isConnected := false; isConnecting := false;
     reconnectAttempts := 0; maxReconnectAttempts := 5; reconnectDelay := 1000;
     heartbeatInterval := None; heartbeatTimeout := None;
     pendingMessages := ∅; listeners := []; autoReconnect := reconnect;
     now := 0; timers := ∅; promises := ∅; live := []; nextHandle := O;
     log := [] |}.

(** ** Methods run on the state and may throw *)

Definition M (A : Type) : Type := t -> res JsError A * t.

Definition ret {A : Type} (a : A) : M A := fun s => (Val a, s).

Definition bind {A B : Type} (m : M A) (k : A -> M B) : M B :=
  fun s =>
    match m s with
    | (Val a, s') => k a s'
    | (Exn e, s') => (Exn e, s')
    end.

Definition throw {A : Type} (e : JsError) : M A := fun s => (Exn e, s).

(** [try { body } catch (error) { handler }] *)
Definition try_catch {A : Type} (body : M A) (handler : JsError -> M A) : M A :=
  fun s =>
    match body s with
    | (Val a, s') => (Val a, s')
    | (Exn e, s') => handler e s'
    end.

Definition get : M t := fun s => (Val s, s).
Definition modify (f : t -> t) : M unit := fun s => (Val tt, f s).

Declare Scope js_scope.
Notation "x <- m ;; k" := (bind m (fun x => k))
  (at level 100, m at next level, k at level 200, right associativity) : js_scope.
Notation "m ;; k" := (bind m (fun _ => k))
  (at level 100, k at level 200, right associativity) : js_scope.
Local Open Scope js_scope.

(** Did the run of a method end in a [throw]? *)
Definition threw {A : Type} (r : res JsError A * t) : bool :=
  match r.1 with Exn _ => true | Val _ => false end.

Definition record (entry : Log) : M unit :=
  modify (fun s => set_log (log s ++ [entry]) s).

Definition console (level text : string) : M unit := record (Console level text).

(** Property read [v.key]; reading a property of [undefined] or [null]
    throws a [TypeError]. *)
Definition prop (v : Value) (key : string) : M Value :=
  match v with
  | VUndefined | VNull =>
      throw (TypeError ("Cannot read properties of undefined (reading '" +:+ key +:+ "')"))
  | VObj fields => ret (field key fields)
  | VError e =>
      ret (if String.eqb key "message" then VStr (message e)
           else if String.eqb key "name" then VStr (name e)
           else VUndefined)
  | VBool _ | VNum _ | VStr _ => ret VUndefined
  end.

(** *** The run time: timers and promises *)

Definition new_handle : M nat :=
  s <- get ;;
  modify (set_nextHandle (S (nextHandle s))) ;;
  ret (nextHandle s).

(** [setTimeout(callback, delay)] and [setInterval(callback, delay)] *)
Definition setTimeout (cb : Callback) (ms : Z) : M nat :=
  id <- new_handle ;;
  modify (fun s => set_timers
            (<[id := {| delay := ms; repeating := false; callback := cb |}]> (timers s)) s) ;;
  ret id.

Definition setInterval (cb : Callback) (ms : Z) : M nat :=
  id <- new_handle ;;
  modify (fun s => set_timers
            (<[id := {| delay := ms; repeating := true; callback := cb |}]> (timers s)) s) ;;
  ret id.

(** [clearTimeout(id)] / [clearInterval(id)]: no effect on a timer that
    has fired or was cleared. *)
Definition clearTimeout (id : nat) : M unit :=
  modify (fun s => set_timers (delete id (timers s)) s).

(** [new Promise(...)] *)
Definition new_promise : M nat :=
  id <- new_handle ;;
  modify (fun s => set_promises (<[id := Pending]> (promises s)) s) ;;
  ret id.

(** [resolve(v)] and [reject(e)]: only a pending promise is settled. *)
Definition settle (p : nat) (outcome : Promise) : M unit :=
  modify (fun s =>
    match promises s !! p with
    | Some Pending => set_promises (<[p := outcome]> (promises s)) s
    | _ => s
    end).

Definition resolve (p : nat) (v : Value) : M unit := settle p (Fulfilled v).
Definition reject (p : nat) (e : JsError) : M unit := settle p (Rejected e).

(** *** The emitter (Node's [events] module) *)

(** [this.on(event, l)] *)
Definition on (event : string) (l : Listener) : M unit :=
  modify (fun s => set_listeners (listeners s ++ [(event, l)]) s).

Fixpoint remove_first (event : string) (l : Listener)
    (ls : list (string * Listener)) : list (string * Listener) :=
  match ls with
  | [] => []
  | (ev, l') :: rest =>
      if String.eqb ev event && same_listener l l' then rest
      else (ev, l') :: remove_first event l rest
  end.

(** [this.removeListener(event, l)] *)
Definition removeListener (event : string) (l : Listener) : M unit :=
  modify (fun s => set_listeners (remove_first event l (listeners s)) s).

(** The listeners of [event], in registration order. *)
Definition listeners_of (event : string) (s : t) : list Listener :=
  map snd (filter (fun p => String.eqb p.1 event = true) (listeners s)).

(** Calling one listener with the arguments of the event. *)
Definition invoke (event : string) (l : Listener) (args : list Value) : M unit :=
  let arg0 := match args with v :: _ => v | [] => VUndefined end in
  match l with
  | Subscriber id body =>
      record (Called id event) ;;
      match body args with
      | Some e => throw e
      | None => ret tt
      end
  | AckHandler messageId timer promise =>
      (* if (message.message_id === messageId) { ... } *)
      id <- prop arg0 "message_id" ;;
      if is_str id messageId then
        clearTimeout timer ;;
        removeListener "messageAcknowledged" l ;;
        resolve promise arg0
      else ret tt
  | AuthHandler _ =>
      (* if (message.type === 'authentication_response') { ... }: the
         timeout has fired and the promise is settled, so only the
         listener is removed *)
      type <- prop arg0 "type" ;;
      if is_str type "authentication_response" then removeListener "message" l
      else ret tt
  end.

Fixpoint invoke_all (event : string) (ls : list Listener) (args : list Value) : M unit :=
  match ls with
  | [] => ret tt
  | l :: rest => invoke event l args ;; invoke_all event rest args
  end.

(** [this.emit(event, ...args)]: the listeners registered at the time of
    the call run in order, synchronously; what a listener throws goes to
    the caller of [emit] and the listeners after it are not called. An
    ["error"] event without listeners throws its argument. *)
Definition emit (event : string) (args : list Value) : M bool :=
  s <- get ;;
  record (Emitted event args) ;;
  match listeners_of event s with
  | [] =>
      if String.eqb event "error" then
        match args with
        | VError e :: _ => throw e
        | _ => throw (PlainError "Unhandled error.")
        end
      else ret false
  | ls => invoke_all event ls args ;; ret true
  end.

(** *** The transport *)

(** [this.ws = new WebSocket(url, options)]; [fails] is what the
    constructor throws, if it does. *)
Definition new_WebSocket (fails : option JsError) : M nat :=
  match fails with
  | Some e => throw e
  | None =>
      id <- new_handle ;;
      modify (fun s => set_live (live s ++ [id]) s) ;;
      record (Created id) ;;
      modify (set_ws (Some id)) ;;
      ret id
  end.

(** The transport [id] is gone: its peer closed it or it failed. *)
Definition gone (id : nat) : M unit :=
  modify (fun s => set_live (filter (fun x => x <> id) (live s)) s).

(** [this.ws.send(JSON.stringify(frame))] *)
Definition ws_send (frame : Value) : M unit :=
  s <- get ;;
  match ws s with
  | None => throw (TypeError "Cannot read properties of null (reading 'send')")
  | Some id =>
      if bool_decide (id ∈ live s) then record (Sent id frame)
      else throw (PlainError "WebSocket is not open")
  end.

(** [ws.close(1000, 'Client disconnect')] *)
Definition ws_close (id : nat) : M unit :=
  record (Closing id) ;; gone id.

(** *** Heartbeat *)

Definition HEARTBEAT_INTERVAL : Z := 30000.
Definition HEARTBEAT_TIMEOUT : Z := 10000.

(** [_startHeartbeatTimeout()] *)
Definition _startHeartbeatTimeout : M unit :=
  id <- setTimeout HeartbeatExpired HEARTBEAT_TIMEOUT ;;
  modify (set_heartbeatTimeout (Some id)).

(** [_startHeartbeat()] *)
Definition _startHeartbeat : M unit :=
  id <- setInterval HeartbeatTick HEARTBEAT_INTERVAL ;;
  modify (set_heartbeatInterval (Some id)).

(** [_stopHeartbeat()] *)
Definition _stopHeartbeat : M unit :=
  s <- get ;;
  match heartbeatInterval s with
  | Some id => clearTimeout id ;; modify (set_heartbeatInterval None)
  | None => ret tt
  end ;;
  s <- get ;;
  match heartbeatTimeout s with
  | Some id => clearTimeout id ;; modify (set_heartbeatTimeout None)
  | None => ret tt
  end.

(** [_handleHeartbeat(message)] *)
Definition _handleHeartbeat (message : Value) : M unit :=
  s <- get ;;
  match heartbeatTimeout s with
  | Some id => clearTimeout id ;; _startHeartbeatTimeout
  | None => ret tt
  end.

(** The callback that [_startHeartbeat] hands to [setInterval]. *)
Definition heartbeat_tick : M unit :=
  s <- get ;;
  if isConnected s then
    ws_send (VObj [("type", VStr "heartbeat"); ("timestamp", VNum (now s))]) ;;
    _startHeartbeatTimeout
  else ret tt.

(** *** Connecting and disconnecting *)

(** What the awaited steps of one [connect()] call run into. *)
Inductive Opening : Type :=
| Opens                   (* the transport emits [open] *)
| OpenFails (e : JsError) (* the transport emits [error] *)
| OpenTimesOut.           (* neither within 30000 ms *)

Inductive Authenticating : Type :=
| Accepted                       (* [authentication_response] with [success] *)
| Refused (reason : option string) (* ... without [success]; [message.error] *)
| AuthTimesOut.                  (* no response within 10000 ms *)

Record Script : Type := {
  connectionInfo : Value;         (* what [_getConnectionInfo()] resolves to *)
  constructing : option JsError;  (* what [new WebSocket] throws *)
  opening : Opening;
  authenticating : Authenticating;
  deviceId : Value;               (* [this.client.auth.deviceId] *)
  clientId : Value                (* [this.client.auth.clientId] *)
}.

Definition CONNECTION_TIMEOUT : Z := 30000.
Definition AUTHENTICATION_TIMEOUT : Z := 10000.

(** [await this._waitForConnection()]: the promise settles on the
    transport's [open] or [error], or is rejected by its own timer after
    [CONNECTION_TIMEOUT]; the timer is cleared in the first two cases and
    has fired in the third. A transport that failed is gone. *)
Definition _waitForConnection (id : nat) (o : Opening) : M unit :=
  match o with
  | Opens => ret tt
  | OpenFails e => gone id ;; throw e
  | OpenTimesOut => throw (NetworkError "WebSocket connection timeout")
  end.

(** [await this._waitForAuthentication()]: as above with
    [AUTHENTICATION_TIMEOUT]; [authHandler] is removed when a response
    arrives and stays registered when the timer fires. *)
Definition _waitForAuthentication (a : Authenticating) : M unit :=
  match a with
  | Accepted => ret tt
  | Refused reason =>
      throw (NetworkError (match reason with
                           | Some r => if String.eqb r "" then "Authentication failed" else r
                           | None => "Authentication failed"
                           end))
  | AuthTimesOut =>
      id <- new_handle ;;
      on "message" (AuthHandler id) ;;
      throw (NetworkError "Authentication timeout")
  end.

(** [_authenticateWebSocket(connectionInfo)] *)
Definition _authenticateWebSocket (script : Script) : M unit :=
  token <- prop (connectionInfo script) "token" ;;
  ws_send (VObj [("type", VStr "authentication"); ("token", token);
                 ("device_id", deviceId script); ("client_id", clientId script);
                 ("platform", VStr "android"); ("version", VStr "2023.12.04.00")]) ;;
  _waitForAuthentication (authenticating script).

(** The [try] block of [connect()]. [_getConnectionInfo()] falls back to
    the default endpoint when its request fails, so it always resolves,
    to [connectionInfo script]. *)
Definition connect_try (script : Script) : M unit :=
  modify (set_isConnecting true) ;;
  emit "connecting" [] ;;
  id <- new_WebSocket (constructing script) ;;
  _waitForConnection id (opening script) ;;
  _authenticateWebSocket script ;;
  _startHeartbeat ;;
  modify (set_isConnected true) ;;
  modify (set_isConnecting false) ;;
  modify (set_reconnectAttempts 0) ;;
  emit "connect" [] ;;
  emit "connection" [VObj [("status", VStr "websocket_connected")]] ;;
  ret tt.

(** The [catch] block of [connect()]. *)
Definition connect_catch (error : JsError) : M unit :=
  modify (set_isConnecting false) ;;
  emit "error" [VError error] ;;
  throw (NetworkError ("WebSocket connection failed: " +:+ message error)).

(** [connect()]. The handlers that [_setupWebSocketHandlers] attaches to
    the transport are the operations [_handleWebSocketMessage],
    [_handleWebSocketClose] and [_handleWebSocketError] below. *)
Definition connect (script : Script) : M unit :=
  s <- get ;;
  if isConnected s || isConnecting s then ret tt
  else try_catch (connect_try script) connect_catch.

(** [disconnect()] *)
Definition disconnect : M unit :=
  s <- get ;;
  if negb (isConnected s) then ret tt
  else
    try_catch
      (_stopHeartbeat ;;
       s <- get ;;
       match ws s with
       | Some id => ws_close id ;; modify (set_ws None)
       | None => ret tt
       end ;;
       modify (set_isConnected false) ;;
       emit "disconnect" [] ;;
       emit "disconnection" [VObj [("status", VStr "websocket_disconnected")]] ;;
       ret tt)
      (fun error => console "error" "WebSocket disconnect error:").

(** *** Reconnecting *)

(** [_scheduleReconnect()]; [Math.pow(2, n)] is exact on the integers
    that occur here. *)
Definition _scheduleReconnect : M unit :=
  modify (fun s => set_reconnectAttempts (reconnectAttempts s + 1) s) ;;
  s <- get ;;
  let delay := reconnectDelay s * 2 ^ (reconnectAttempts s - 1) in
  setTimeout ReconnectDue delay ;;
  ret tt.

(** [_handleWebSocketClose(code, reason)] *)
Definition _handleWebSocketClose (code reason : Value) : M unit :=
  modify (set_isConnected false) ;;
  emit "close" [code; reason] ;;
  s <- get ;;
  if autoReconnect s && (reconnectAttempts s <? maxReconnectAttempts s)
  then _scheduleReconnect
  else ret tt.

(** [_handleWebSocketError(error)] *)
Definition _handleWebSocketError (error : JsError) : M unit :=
  emit "error" [VError error] ;;
  s <- get ;;
  if autoReconnect s && (reconnectAttempts s <? maxReconnectAttempts s)
  then _scheduleReconnect
  else ret tt.

(** The callback that [_scheduleReconnect] hands to [setTimeout]. *)
Definition reconnect_due (script : Script) : M unit :=
  s <- get ;;
  if negb (isConnected s) && negb (isConnecting s) then
    try_catch (connect script) (fun error => console "error" "Reconnection failed:")
  else ret tt.

(** The callback that [_startHeartbeatTimeout] hands to [setTimeout]:
    [this.disconnect().then(() => { this.connect().catch(console.error) })]. *)
Definition heartbeat_expired (script : Script) : M unit :=
  console "warn" "Heartbeat timeout, reconnecting..." ;;
  disconnect ;;
  try_catch (connect script) (fun error => console "error" (message error)).

(** *** Sending and acknowledging *)

Definition ACKNOWLEDGMENT_TIMEOUT : Z := 10000.

(** [_waitForAcknowledgment(messageId)]: returns the promise. *)
Definition _waitForAcknowledgment (messageId : string) : M nat :=
  p <- new_promise ;;
  timeout <- setTimeout (AckExpired p) ACKNOWLEDGMENT_TIMEOUT ;;
  on "messageAcknowledged" (AckHandler messageId timeout p) ;;
  ret p.

(** The message object that [sendMessage] builds and stores. *)
Definition outbound (messageData : Value) (timestamp : Z) (id : string) : Value :=
  VObj [("type", VStr "message"); ("data", messageData);
        ("timestamp", VNum timestamp); ("id", VStr id)].

(** [sendMessage(messageData)] up to its [await]; [id] is what
    [_generateMessageId()] returned. The result is the promise that the
    method awaits. *)
Definition sendMessage (messageData : Value) (id : string) : M nat :=
  s <- get ;;
  if negb (isConnected s) then throw (NetworkError "WebSocket not connected")
  else
    try_catch
      (let message := outbound messageData (now s) id in
       modify (fun s => set_pendingMessages (<[id := message]> (pendingMessages s)) s) ;;
       ws_send message ;;
       _waitForAcknowledgment id)
      (fun error => throw (NetworkError ("Failed to send message: " +:+ message error))).

(** What the caller of [sendMessage] holds once the awaited promise [p]
    is settled: the value, or the error wrapped by the [catch]. *)
Definition sendMessage_future (s : t) (p : nat) : Promise :=
  match promises s !! p with
  | Some (Rejected e) => Rejected (NetworkError ("Failed to send message: " +:+ message e))
  | Some other => other
  | None => Pending
  end.

(** [this.pendingMessages.get(key)]; the keys stored are strings. *)
Definition pending_get (key : Value) (s : t) : option Value :=
  match key with
  | VStr k => pendingMessages s !! k
  | _ => None
  end.

(** [this.pendingMessages.delete(key)] *)
Definition pending_delete (key : Value) : M unit :=
  match key with
  | VStr k => modify (fun s => set_pendingMessages (delete k (pendingMessages s)) s)
  | _ => ret tt
  end.

(** [_handleAcknowledgment(message)] *)
Definition _handleAcknowledgment (message : Value) : M unit :=
  message_id <- prop message "message_id" ;;
  s <- get ;;
  match pending_get message_id s with
  | Some pendingMessage =>
      if truthy pendingMessage then
        pending_delete message_id ;;
        emit "messageAcknowledged" [pendingMessage] ;;
        ret tt
      else ret tt
  | None => ret tt
  end.

(** *** Dispatching inbound frames *)

(** [_handleIncomingMessage(message)]; the message manager it forwards to
    stores the message and notifies the client's own subscribers. *)
Definition _handleIncomingMessage (message : Value) : M unit :=
  data <- prop message "data" ;;
  id <- prop data "id" ;;
  text <- prop data "text" ;;
  type <- prop data "type" ;;
  timestamp <- prop data "timestamp" ;;
  thread_id <- prop data "thread_id" ;;
  sender <- prop data "sender" ;;
  let messageData :=
    VObj [("message_id", id); ("text", text); ("type", type);
          ("timestamp", timestamp); ("thread_id", thread_id); ("sender", sender)] in
  record (Forwarded messageData) ;;
  emit "message" [messageData] ;;
  ret tt.

(** [_handleTypingIndicator(message)] *)
Definition _handleTypingIndicator (message : Value) : M unit :=
  thread_id <- prop message "thread_id" ;;
  user_id <- prop message "user_id" ;;
  typing <- prop message "typing" ;;
  timestamp <- prop message "timestamp" ;;
  emit "typing" [VObj [("thread_id", thread_id); ("user_id", user_id);
                       ("typing", typing); ("timestamp", timestamp)]] ;;
  ret tt.

(** [_handleReadReceipt(message)] *)
Definition _handleReadReceipt (message : Value) : M unit :=
  thread_id <- prop message "thread_id" ;;
  message_id <- prop message "message_id" ;;
  user_id <- prop message "user_id" ;;
  timestamp <- prop message "timestamp" ;;
  emit "read" [VObj [("thread_id", thread_id); ("message_id", message_id);
                     ("user_id", user_id); ("timestamp", timestamp)]] ;;
  ret tt.

(** [_handleOnlineStatus(message)] *)
Definition _handleOnlineStatus (message : Value) : M unit :=
  online <- prop message "online" ;;
  let eventType := if truthy online then "online" else "offline" in
  user_id <- prop message "user_id" ;;
  timestamp <- prop message "timestamp" ;;
  emit eventType [VObj [("user_id", user_id); ("online", online);
                        ("timestamp", timestamp)]] ;;
  ret tt.

(** [JSON.parse(data.toString())] *)
Definition JSON_parse (data : Frame) : M Value :=
  match data with
  | Garbled => throw (SyntaxError "Unexpected token in JSON")
  | Parsed v => ret v
  end.

(** [_handleWebSocketMessage(data)] *)
Definition _handleWebSocketMessage (data : Frame) : M unit :=
  try_catch
    (message <- JSON_parse data ;;
     type <- prop message "type" ;;
     if is_str type "message" then _handleIncomingMessage message
     else if is_str type "typing" then _handleTypingIndicator message
     else if is_str type "read_receipt" then _handleReadReceipt message
     else if is_str type "online_status" then _handleOnlineStatus message
     else if is_str type "acknowledgment" then _handleAcknowledgment message
     else if is_str type "heartbeat" then _handleHeartbeat message
     else console "log" "Unknown WebSocket message type:")
    (fun error => console "error" "Failed to parse WebSocket message:").

(** *** The event loop *)

(** The timer [id] fires. A one-shot timer is disarmed first; [script]
    is used if the callback ends up calling [connect()]. *)
Definition fire (id : nat) (script : Script) : M unit :=
  s <- get ;;
  match timers s !! id with
  | None => ret tt
  | Some timer =>
      (if repeating timer then ret tt else clearTimeout id) ;;
      match callback timer with
      | HeartbeatTick => heartbeat_tick
      | HeartbeatExpired => heartbeat_expired script
      | ReconnectDue => reconnect_due script
      | AckExpired p => reject p (NetworkError "Message acknowledgment timeout")
      end
  end.

(** *** Observations *)

(** The events emitted so far, oldest first. *)
Fixpoint emitted (l : list Log) : list string :=
  match l with
  | [] => []
  | Emitted event _ :: rest => event :: emitted rest
  | _ :: rest => emitted rest
  end.

(** The subscribers entered so far, oldest first. *)
Fixpoint called (l : list Log) : list nat :=
  match l with
  | [] => []
  | Called id _ :: rest => id :: called rest
  | _ :: rest => called rest
  end.

(** The console output so far, oldest first. *)
Fixpoint printed (l : list Log) : list (string * string) :=
  match l with
  | [] => []
  | Console level text :: rest => (level, text) :: printed rest
  | _ :: rest => printed rest
  end.

(** The armed timers whose callback satisfies [which]. *)
Definition armed (which : Callback -> bool) (s : t) : list (nat * Timer) :=
  filter (fun p => which (callback p.2) = true) (map_to_list (timers s)).

Definition is_HeartbeatExpired (cb : Callback) : bool :=
  match cb with HeartbeatExpired => true | _ => false end.
Definition is_ReconnectDue (cb : Callback) : bool :=
  match cb with ReconnectDue => true | _ => false end.

(** The inputs of the event loop: calls of the public methods, events of
    the transport, and timers that fire. *)
Inductive Input : Type :=
| CallOn (event : string) (id : nat) (body : list Value -> option JsError)
| CallConnect (script : Script)
| CallDisconnect
| CallSendMessage (messageData : Value) (id : string)
| TransportMessage (data : Frame)
| TransportClose (code reason : Value)
| TransportError (error : JsError)
| TimerFires (id : nat) (script : Script).

Definition step (i : Input) : M unit :=
  match i with
  | CallOn event id body => on event (Subscriber id body)
  | CallConnect script => connect script
  | CallDisconnect => disconnect
  | CallSendMessage messageData id => sendMessage messageData id ;; ret tt
  | TransportMessage data => _handleWebSocketMessage data
  | TransportClose code reason => _handleWebSocketClose code reason
  | TransportError error => _handleWebSocketError error
  | TimerFires id script => fire id script
  end.

(** The state after a sequence of inputs. *)
Definition run (inputs : list Input) (s : t) : t :=
  foldl (fun s i => (step i s).2) s inputs.

(** What was logged between [s] and a later state [s']. *)
Definition news (s s' : t) : list Log := drop (length (log s)) (log s').

(** *** Relations between a state and a later one *)

(** A method [m] keeps [R] when every run of it relates the state before
    to the state after, whether it returns or throws. *)
Definition keeps {A : Type} (R : t -> t -> Prop) (m : M A) : Prop :=
  forall s, R s (m s).2.

(** The reconnect counter stays within its bounds. *)
Definition bounded (s : t) : Prop :=
  0 <= reconnectAttempts s <= maxReconnectAttempts s.

(** Promise handles are below the next unused handle. *)
Definition handles_fresh (s : t) : Prop :=
  forall p, is_Some (promises s !! p) -> (p < nextHandle s)%nat.

(** A promise that is settled in [s] has the same outcome in [s']. *)
Definition settled_kept (s s' : t) : Prop :=
  forall p o, promises s !! p = Some o -> o <> Pending -> promises s' !! p = Some o.

(** What every operation of the manager maintains. *)
Record maintained (s s' : t) : Prop := {
  kept_max : maxReconnectAttempts s' = maxReconnectAttempts s;
  kept_delay : reconnectDelay s' = reconnectDelay s;
  kept_auto : autoReconnect s' = autoReconnect s;
  kept_bounded : bounded s -> bounded s';
  kept_handles : (nextHandle s <= nextHandle s')%nat;
  kept_fresh : handles_fresh s -> handles_fresh s';
  kept_settled : handles_fresh s -> settled_kept s s';
  kept_log : exists l, log s' = log s ++ l
}.

(** Log entries that running listeners may add. *)
Definition chatter (e : Log) : bool :=
  match e with
  | Emitted _ _ | Called _ _ => true
  | _ => false
  end.

(** What an emission leaves alone: listeners can only clear timers,
    settle promises, remove themselves and be logged. *)
Record undisturbed (s s' : t) : Prop := {
  same_ws : ws s' = ws s;
  same_isConnected : isConnected s' = isConnected s;
  same_isConnecting : isConnecting s' = isConnecting s;
  same_reconnectAttempts : reconnectAttempts s' = reconnectAttempts s;
  same_max : maxReconnectAttempts s' = maxReconnectAttempts s;
  same_delay : reconnectDelay s' = reconnectDelay s;
  same_heartbeatInterval : heartbeatInterval s' = heartbeatInterval s;
  same_heartbeatTimeout : heartbeatTimeout s' = heartbeatTimeout s;
  same_pendingMessages : pendingMessages s' = pendingMessages s;
  same_auto : autoReconnect s' = autoReconnect s;
  same_now : now s' = now s;
  same_live : live s' = live s;
  same_nextHandle : nextHandle s' = nextHandle s;
  fewer_timers : timers s' ⊆ timers s;
  same_settled : settled_kept s s';
  same_promises : forall p, is_Some (promises s' !! p) -> is_Some (promises s !! p);
  more_log : exists l, log s' = log s ++ l /\ forallb chatter l = true
}.

(** Between [s] and [s'] the log has grown, by no emission. *)
Definition no_emission (s s' : t) : Prop :=
  exists l, log s' = log s ++ l /\ emitted l = [].

(** *** Sample scripts, subscribers and states *)

Definition info : Value :=
  VObj [("url", VStr "wss://edge-chat.facebook.com/chat"); ("token", VStr "token")].

Definition script_of (c : option JsError) (o : Opening) (a : Authenticating) : Script :=
  {| connectionInfo := info; constructing := c; opening := o; authenticating := a;
     deviceId := VStr "device"; clientId := VStr "client" |}.

Definition succeeds : Script := script_of None Opens Accepted.
Definition auth_times_out : Script := script_of None Opens AuthTimesOut.
Definition bad_url : Script :=
  script_of (Some (SyntaxError "Invalid URL")) Opens Accepted.

(** A handler that returns. *)
Definition returns (args : list Value) : option JsError := None.

(** A handler that throws. *)
Definition throws (e : JsError) (args : list Value) : option JsError := Some e.

(** The handler [(error) => { this.emit('error', error) }] that
    [MessengerClient] attaches to the manager's ["error"] event, on a
    client that has no ["error"] listener itself: the re-emission throws
    the error. *)
Definition relay_unhandled (args : list Value) : option JsError :=
  match args with
  | VError e :: _ => Some e
  | _ => Some (PlainError "Unhandled error.")
  end.

(** A manager whose ["error"] event has a handler that returns. *)
Definition wired (reconnect : bool) : t :=
  run [CallOn "error" 0 returns] (create reconnect).

(** Does the script make one of the awaited stages of [connect()] fail? *)
Definition fails_at_a_stage (script : Script) : bool :=
  match constructing script, opening script, authenticating script with
  | None, Opens, Accepted => false
  | _, _, _ => true
  end.

(** A listener that is a subscriber whose handler returns on [args]. *)
Definition returning (args : list Value) (l : Listener) : Prop :=
  exists id body, l = Subscriber id body /\ body args = None.

(** The transport closes abnormally. *)
Definition abnormal_close : Input := TransportClose (VNum 1006) (VStr "").

(** The manager after [n] closes in a row, with auto-reconnect enabled. *)
Definition closed_times (n : nat) : t := run (replicate n abnormal_close) (wired true).

(** Its reconnect counter stands at the maximum after five. *)
Definition exhausted : t := closed_times 5.

(** The delays of the timers with the given handles. *)
Definition delays_of (handles : list nat) (s : t) : list (option Z) :=
  map (fun id => delay <$> timers s !! id) handles.

Definition heartbeat_frame : Frame := Parsed (VObj [("type", VStr "heartbeat")]).

(** An open connection on which one heartbeat has been sent and answered:
    [connect()] succeeded (the interval timer is 1), the interval fired,
    and a heartbeat frame arrived. *)
Definition answered : t :=
  run [CallConnect succeeds; TimerFires 1 succeeds; TransportMessage heartbeat_frame]
    (wired false).

Definition heartbeat_timer : Timer :=
  {| delay := HEARTBEAT_TIMEOUT; repeating := false; callback := HeartbeatExpired |}.

Definition typing_frame : Frame :=
  Parsed (VObj [("type", VStr "typing"); ("thread_id", VStr "t1");
                ("user_id", VStr "u1"); ("typing", VBool true);
                ("timestamp", VNum 1)]).

(** Two subscribers of ["typing"]: the first throws, the second returns. *)
Definition two_subscribers : t :=
  run [CallOn "typing" 1 (throws (PlainError "handler failed"));
       CallOn "typing" 2 returns]
    (create true).

(** Is [type] one of the six discriminants of the [switch]? *)
Definition known (type : Value) : bool :=
  is_str type "message" || is_str type "typing" || is_str type "read_receipt"
  || is_str type "online_status" || is_str type "acknowledgment"
  || is_str type "heartbeat".

(** The payload that [_handleTypingIndicator] emits. *)
Definition typing_payload (fields : list (string * Value)) : Value :=
  VObj [("thread_id", field "thread_id" fields); ("user_id", field "user_id" fields);
        ("typing", field "typing" fields); ("timestamp", field "timestamp" fields)].

(** A subscriber: its identity and the behaviour of its handler. *)
Definition Handler : Type := nat * (list Value -> option JsError).

Definition subscriber (p : Handler) : Listener := Subscriber p.1 p.2.

(** The log entry of calling a subscriber for [event]. *)
Definition call_of (event : string) (p : Handler) : Log := Called p.1 event.

(** Does the handler of the subscriber return on [args]? *)
Definition returns_on (args : list Value) (p : Handler) : Prop := p.2 args = None.

Definition hello : Value := VObj [("text", VStr "hi")].

Definition acknowledgment_of (id : string) : Frame :=
  Parsed (VObj [("type", VStr "acknowledgment"); ("message_id", VStr id)]).

(** An open connection on which one message has been sent: the awaited
    promise is 2 and its timer is 3. *)
Definition sent : t :=
  run [CallConnect succeeds; CallSendMessage hello "msg_1_abc"] (wired true).

Definition acknowledgment_timeout : JsError :=
  NetworkError "Message acknowledgment timeout".

Definition acknowledgment_timer (p : nat) : Timer :=
  {| delay := ACKNOWLEDGMENT_TIMEOUT; repeating := false; callback := AckExpired p |}.

(** ** The rest of the class *)

(** The frame that [sendTyping] sends. *)
Definition typing_message (threadId isTyping : Value) (timestamp : Z) : Value :=
  VObj [("type", VStr "typing"); ("thread_id", threadId); ("typing", isTyping);
        ("timestamp", VNum timestamp)].

(** The frame that [sendReadReceipt] sends. *)
Definition read_message (threadId messageId : Value) (timestamp : Z) : Value :=
  VObj [("type", VStr "read_receipt"); ("thread_id", threadId);
        ("message_id", messageId); ("timestamp", VNum timestamp)].

(** [{ success: true }] *)
Definition success : Value := VObj [("success", VBool true)].

(** [sendTyping(threadId, isTyping)] *)
Definition sendTyping (threadId isTyping : Value) : M Value :=
  s <- get ;;
  if negb (isConnected s) then throw (NetworkError "WebSocket not connected")
  else
    try_catch
      (ws_send (typing_message threadId isTyping (now s)) ;;
       ret success)
      (fun error =>
         throw (NetworkError ("Failed to send typing indicator: " +:+ message error))).

(** [sendReadReceipt(threadId, messageId)] *)
Definition sendReadReceipt (threadId messageId : Value) : M Value :=
  s <- get ;;
  if negb (isConnected s) then throw (NetworkError "WebSocket not connected")
  else
    try_catch
      (ws_send (read_message threadId messageId (now s)) ;;
       ret success)
      (fun error =>
         throw (NetworkError ("Failed to send read receipt: " +:+ message error))).

(** [this.removeAllListeners()], on an emitter that has no listener for
    its own ["removeListener"] event. *)
Definition removeAllListeners : M unit := modify (set_listeners []).

(** [destroy()]. The call [this.disconnect()] runs the whole body of
    [disconnect], which has no [await], before [removeAllListeners]. *)
Definition destroy : M unit :=
  _stopHeartbeat ;;
  disconnect ;;
  removeAllListeners.

(** What [getStatus()] returns. *)
Record Status : Type := {
  status_isConnected : bool;
  status_isConnecting : bool;
  status_reconnectAttempts : Z;
  status_pendingMessages : nat
}.

(** [getStatus()] *)
Definition getStatus (s : t) : Status :=
  {| status_isConnected := isConnected s;
     status_isConnecting := isConnecting s;
     status_reconnectAttempts := reconnectAttempts s;
     status_pendingMessages := size (pendingMessages s) |}.

(** Is the input an acknowledgment frame? *)
Definition is_acknowledgment (i : Input) : bool :=
  match i with
  | TransportMessage (Parsed (VObj fields)) => is_str (field "type" fields) "acknowledgment"
  | _ => false
  end.

(** Every message that has a record in [s] has one in [s']. *)
Definition retained (s s' : t) : Prop :=
  dom (pendingMessages s) ⊆ dom (pendingMessages s').

(** A reconnect timer of the given delay. *)
Definition reconnect_timer (ms : Z) : Timer :=
  {| delay := ms; repeating := false; callback := ReconnectDue |}.

(** The part of the state that decides about reconnects, which neither
    [disconnect()] nor an emission writes. *)
Definition same_reconnect_state (s s' : t) : Prop :=
  reconnectAttempts s' = reconnectAttempts s /\
  maxReconnectAttempts s' = maxReconnectAttempts s /\
  reconnectDelay s' = reconnectDelay s /\
  autoReconnect s' = autoReconnect s /\
  isConnecting s' = isConnecting s /\
  nextHandle s' = nextHandle s.

End WebSocketManager.

(** * Object literals and thrown values *)

Module Objects.
Import WebSocketManager.
Local Open Scope string_scope.
Local Open Scope list_scope.

(** What a [catch] can receive: an instance of one of the classes of
    [utils/errors.js], or an error of the run time. *)
Inductive Thrown : Type :=
| Custom (e : Errors.Error)
| Native (e : JsError).

(** [new MessengerError(message)] and [new AuthError(message)] *)
Definition MessengerError (msg : string) : Thrown :=
  Custom {| Errors.class := Errors.MessengerError; Errors.message := msg;
            Errors.details := Errors.no_details |}.
Definition AuthError (msg : string) : Thrown :=
  Custom {| Errors.class := Errors.AuthError; Errors.message := msg;
            Errors.details := Errors.no_details |}.

(** [error.message] *)
Definition message_of (e : Thrown) : string :=
  match e with
  | Custom e => Errors.message e
  | Native e => message e
  end.

(** [error.name] *)
Definition name_of (e : Thrown) : string :=
  match e with
  | Custom e => Errors.name (Errors.class e)
  | Native e => name e
  end.

(** Property read [v.key]: a [TypeError] on [undefined] and [null]. *)
Definition read (v : Value) (key : string) : res Thrown Value :=
  match v with
  | VUndefined =>
      Exn (Native (TypeError ("Cannot read properties of undefined (reading '"
                              +:+ key +:+ "')")))
  | VNull =>
      Exn (Native (TypeError ("Cannot read properties of null (reading '"
                              +:+ key +:+ "')")))
  | VObj fields => Val (field key fields)
  | VError e =>
      Val (if String.eqb key "message" then VStr (message e)
           else if String.eqb key "name" then VStr (name e)
           else VUndefined)
  | VBool _ | VNum _ | VStr _ => Val VUndefined
  end.

(** [object[key] = v]: an existing property keeps its place. *)
Fixpoint set_field (key : string) (v : Value) (fields : list (string * Value))
  : list (string * Value) :=
  match fields with
  | [] => [(key, v)]
  | (k, v') :: rest =>
      if String.eqb k key then (k, v) :: rest
      else (k, v') :: set_field key v rest
  end.

(** [{ ...target, ...source }]: the properties of [source] are assigned
    in their order. *)
Definition spread (target source : list (string * Value)) : list (string * Value) :=
  foldl (fun acc p => set_field p.1 p.2 acc) target source.

(** Has the object an own property [key]? *)
Definition has_field (key : string) (fields : list (string * Value)) : bool :=
  existsb (fun p => String.eqb p.1 key) fields.

(** Are two keys of a [Map] the same key? Objects are compared by
    identity, and every object decoded from a response or a frame is a new
    one. *)
Definition same_key (a b : Value) : bool :=
  match a, b with
  | VUndefined, VUndefined => true
  | VNull, VNull => true
  | VBool x, VBool y => Bool.eqb x y
  | VNum x, VNum y => Z.eqb x y
  | VStr x, VStr y => String.eqb x y
  | _, _ => false
  end.

(** [map.set(key, v)] on a [Map], whose entries keep the order in which
    their keys were first set. *)
Fixpoint map_set (key v : Value) (entries : list (Value * Value)) : list (Value * Value) :=
  match entries with
  | [] => [(key, v)]
  | (k, v') :: rest =>
      if same_key k key then (k, v) :: rest
      else (k, v') :: map_set key v rest
  end.

(** [map.get(key)] *)
Fixpoint map_get (key : Value) (entries : list (Value * Value)) : option Value :=
  match entries with
  | [] => None
  | (k, v) :: rest => if same_key k key then Some v else map_get key rest
  end.

End Objects.

(** * The configuration of a request ([NetworkManager._prepareRequestConfig]) *)

Module RequestConfig.
Import WebSocketManager Objects.
Local Open Scope string_scope.
Local Open Scope list_scope.
Local Open Scope Z_scope.

(** [Protocol.USER_AGENT] and [Protocol.ACCEPT_LANGUAGE] *)
Definition USER_AGENT : string :=
  "Mozilla/5.0 (Linux; Android 13; SM-G991B) AppleWebKit/537.36 (KHTML, like Gecko) Chrome/120.0.0.0 Mobile Safari/537.36".
Definition ACCEPT_LANGUAGE : string := "en-US,en;q=0.9".

(** [_getDefaultHeaders()]; [accessToken] is [this.client.auth.accessToken],
    [None] when there is no [auth] or no token. *)
Definition _getDefaultHeaders (accessToken : option string) : list (string * Value) :=
  let headers :=
    [("User-Agent", VStr USER_AGENT); ("Accept-Language", VStr ACCEPT_LANGUAGE);
     ("Accept", VStr "application/json, text/plain, */*");
     ("Accept-Encoding", VStr "gzip, deflate, br"); ("DNT", VStr "1");
     ("Connection", VStr "keep-alive")] in
  match accessToken with
  | Some token =>
      if String.eqb token "" then headers
      else set_field "Authorization" (VStr ("Bearer " +:+ token)) headers
  | None => headers
  end.

(** [c.toLowerCase()] for the letters of ASCII. *)
Definition lower (c : Ascii.ascii) : Ascii.ascii :=
  let n := Ascii.nat_of_ascii c in
  if (65 <=? n)%nat && (n <=? 90)%nat then Ascii.ascii_of_nat (n + 32) else c.

Fixpoint toLowerCase (s : string) : string :=
  match s with
  | EmptyString => EmptyString
  | String c rest => String (lower c) (toLowerCase rest)
  end.

(** [{ ...v }] inside an object literal: an object gives its properties,
    [undefined], [null], a number and a boolean give none. *)
Definition properties (v : Value) : list (string * Value) :=
  match v with
  | VObj fields => fields
  | _ => []
  end.

(** [typeof data === 'object'], for a [data] that is not [null]. *)
Definition is_object (v : Value) : bool :=
  match v with
  | VObj _ | VError _ => true
  | _ => false
  end.

(** [config.headers['Content-Type'] = 'application/json']: in the strict
    mode of a class body the assignment throws when [config.headers] is
    not an object. *)
Definition set_content_type (config : list (string * Value))
  : res Thrown (list (string * Value)) :=
  match field "headers" config with
  | VObj headers =>
      Val (set_field "headers"
             (VObj (set_field "Content-Type" (VStr "application/json") headers)) config)
  | VUndefined | VNull =>
      Exn (Native (TypeError "Cannot set properties of undefined (setting 'Content-Type')"))
  | _ =>
      Exn (Native (TypeError "Cannot create property 'Content-Type'"))
  end.

(** [_prepareRequestConfig(method, url, data, options)], for a [data]
    that is not a [FormData] and an [options.headers] that is an object or
    is left out. [stringify] is [JSON.stringify]. *)
Definition _prepareRequestConfig (stringify : Value -> string)
    (accessToken : option string) (method url : string) (data : Value)
    (options : list (string * Value)) : res Thrown (list (string * Value)) :=
  let config :=
    spread [("method", VStr (toLowerCase method)); ("url", VStr url);
            ("headers", VObj (spread (_getDefaultHeaders accessToken)
                                (properties (field "headers" options))))]
      options in
  let with_data :=
    if truthy data then
      if is_object data then
        set_content_type (set_field "data" (VStr (stringify data)) config)
      else Val (set_field "data" data config)
    else Val config in
  match with_data with
  | Exn e => Exn e
  | Val config =>
      let config :=
        if truthy (field "params" options)
        then set_field "params" (field "params" options) config else config in
      let config :=
        if truthy (field "responseType" options)
        then set_field "responseType" (field "responseType" options) config else config in
      let config :=
        if truthy (field "timeout" options)
        then set_field "timeout" (field "timeout" options) config else config in
      let config :=
        match field "followRedirect" options with
        | VUndefined => config
        | v => set_field "maxRedirects" (VNum (if truthy v then 5 else 0)) config
        end in
      Val config
  end.

(** The names of the properties of an object are distinct. *)
Definition distinct (fields : list (string * Value)) : Prop := NoDup (map fst fields).

End RequestConfig.

(** * The message manager (second class of [src/client/WebSocketManager.js]) *)

Module MessageManager.
Import WebSocketManager Objects.
Local Open Scope string_scope.
Local Open Scope list_scope.
Local Open Scope Z_scope.

(** [Limits.MAX_TEXT_LENGTH] and the constants of the rate limit. *)
Definition MAX_TEXT_LENGTH : Z := 20000.
Definition WINDOW : Z := 60 * 1000.
Definition MAX_PER_WINDOW : Z := 30.
Definition MIN_SPACING : Z := 1000.

(** The fields of a [MessageManager] that its methods write, and what
    they read from the client and the run time. *)
Record t : Type := mk {
  isAuthenticated : bool;                   (* [this.client.isAuthenticated] *)
  sentMessages : list (Value * Value);      (* a [Map] *)
  receivedMessages : list (Value * Value);  (* a [Map] *)
  lastMessageTime : Z;
  messageCount : Z;
  rateLimitResetTime : Z;
  now : Z;                                  (* [Date.now()] *)
  handlers : string -> list Value -> option Thrown;
    (* the listeners of the client: what running them for an event throws, if anything *)
  emitted : list (string * list Value)      (* [this.client.emit(event, ...args)], oldest first *)
}.

(** State left by the constructor at clock [clock]. *)
Definition create (authenticated : bool)
    (listeners : string -> list Value -> option Thrown) (clock : Z) : t :=
  {| isAuthenticated := authenticated; sentMessages := []; receivedMessages := [];
     lastMessageTime := 0; messageCount := 0; rateLimitResetTime := clock + WINDOW;
     now := clock; handlers := listeners; emitted := [] |}.

Definition set_sentMessages (v : list (Value * Value)) (s : t) : t :=
  mk (isAuthenticated s) v (receivedMessages s) (lastMessageTime s) (messageCount s)
    (rateLimitResetTime s) (now s) (handlers s) (emitted s).
Definition set_receivedMessages (v : list (Value * Value)) (s : t) : t :=
  mk (isAuthenticated s) (sentMessages s) v (lastMessageTime s) (messageCount s)
    (rateLimitResetTime s) (now s) (handlers s) (emitted s).
Definition set_lastMessageTime (v : Z) (s : t) : t :=
  mk (isAuthenticated s) (sentMessages s) (receivedMessages s) v (messageCount s)
    (rateLimitResetTime s) (now s) (handlers s) (emitted s).
Definition set_messageCount (v : Z) (s : t) : t :=
  mk (isAuthenticated s) (sentMessages s) (receivedMessages s) (lastMessageTime s) v
    (rateLimitResetTime s) (now s) (handlers s) (emitted s).
Definition set_rateLimitResetTime (v : Z) (s : t) : t :=
  mk (isAuthenticated s) (sentMessages s) (receivedMessages s) (lastMessageTime s)
    (messageCount s) v (now s) (handlers s) (emitted s).
Definition set_now (v : Z) (s : t) : t :=
  mk (isAuthenticated s) (sentMessages s) (receivedMessages s) (lastMessageTime s)
    (messageCount s) (rateLimitResetTime s) v (handlers s) (emitted s).
Definition set_emitted (v : list (string * list Value)) (s : t) : t :=
  mk (isAuthenticated s) (sentMessages s) (receivedMessages s) (lastMessageTime s)
    (messageCount s) (rateLimitResetTime s) (now s) (handlers s) v.

(** ** Methods run on the state and may throw *)

Definition M (A : Type) : Type := t -> res Thrown A * t.

Definition ret {A : Type} (a : A) : M A := fun s => (Val a, s).

Definition bind {A B : Type} (m : M A) (k : A -> M B) : M B :=
  fun s =>
    match m s with
    | (Val a, s') => k a s'
    | (Exn e, s') => (Exn e, s')
    end.

Definition throw {A : Type} (e : Thrown) : M A := fun s => (Exn e, s).

Definition try_catch {A : Type} (body : M A) (handler : Thrown -> M A) : M A :=
  fun s =>
    match body s with
    | (Val a, s') => (Val a, s')
    | (Exn e, s') => handler e s'
    end.

Definition get : M t := fun s => (Val s, s).
Definition modify (f : t -> t) : M unit := fun s => (Val tt, f s).

Declare Scope mm_scope.
Notation "x <- m ;; k" := (bind m (fun x => k))
  (at level 100, m at next level, k at level 200, right associativity) : mm_scope.
Notation "m ;; k" := (bind m (fun _ => k))
  (at level 100, k at level 200, right associativity) : mm_scope.
Local Open Scope mm_scope.

(** The result of a pure computation that may throw. *)
Definition lift {A : Type} (r : res Thrown A) : M A :=
  match r with
  | Val a => ret a
  | Exn e => throw e
  end.

(** [await new Promise(resolve => setTimeout(resolve, ms))] *)
Definition sleep (ms : Z) : M unit :=
  modify (fun s => set_now (now s + Z.max 0 ms) s).

(** [this.client.emit(event, ...args)] *)
Definition emit (event : string) (args : list Value) : M unit :=
  modify (fun s => set_emitted (emitted s ++ [(event, args)]) s) ;;
  s <- get ;;
  match handlers s event args with
  | Some e => throw e
  | None => ret tt
  end.

(** What the network does with one [this.network.post(...)]: the
    response it resolves to or the error it is rejected with, and the time
    that takes. *)
Record Reply : Type := { answer : res Thrown Value; latency : Z }.

(** [await this.network.post(url, data, options)] *)
Definition post (reply : Reply) : M Value :=
  modify (fun s => set_now (now s + latency reply) s) ;;
  lift (answer reply).

(** ** The rate limit *)

(** [Math.ceil(a / b)] for integers [a] and a positive [b]. *)
Definition ceil_div (a b : Z) : Z := - ((- a) / b).

(** The message of the error that [_checkRateLimit] throws. *)
Definition rate_limit_message (waitTime : Z) : string :=
  "Rate limit exceeded. Please wait " +:+ pretty (ceil_div waitTime 1000) +:+ " seconds.".

(** [_checkRateLimit()] *)
Definition _checkRateLimit : M unit :=
  s <- get ;;
  let now := now s in
  (if rateLimitResetTime s <? now then
     modify (set_messageCount 0) ;;
     modify (set_rateLimitResetTime (now + WINDOW))
   else ret tt) ;;
  s <- get ;;
  if MAX_PER_WINDOW <=? messageCount s then
    let waitTime := rateLimitResetTime s - now in
    throw (MessengerError (rate_limit_message waitTime))
  else
    let timeSinceLastMessage := now - lastMessageTime s in
    if timeSinceLastMessage <? MIN_SPACING then sleep (MIN_SPACING - timeSinceLastMessage)
    else ret tt.

(** [_updateRateLimit()] *)
Definition _updateRateLimit : M unit :=
  modify (fun s => set_messageCount (messageCount s + 1) s) ;;
  modify (fun s => set_lastMessageTime (now s) s).

(** ** Sending *)

(** The [try] block of [_sendMessage]; [_encryptMessageIfNeeded] returns
    its argument. *)
Definition send_try (reply : Reply) : M Value :=
  response <- post reply ;;
  data <- lift (read response "data") ;;
  data <- lift (read data "data") ;;
  sendMessage <- lift (read data "sendMessage") ;;
  success <- lift (read sendMessage "success") ;;
  if truthy success then
    sentMessage <- lift (read sendMessage "message") ;;
    id <- lift (read sentMessage "id") ;;
    modify (fun s => set_sentMessages (map_set id sentMessage (sentMessages s)) s) ;;
    _updateRateLimit ;;
    emit "messageSent" [sentMessage] ;;
    ret sentMessage
  else throw (MessengerError "Failed to send message").

(** The [catch] block of [_sendMessage]. *)
Definition send_catch (error : Thrown) : M Value :=
  throw (MessengerError ("Failed to send message: " +:+ message_of error)).

(** [_sendMessage(messageData)] *)
Definition _sendMessage (messageData : Value) (reply : Reply) : M Value :=
  s <- get ;;
  if negb (isAuthenticated s) then throw (AuthError "Not authenticated")
  else
    _checkRateLimit ;;
    try_catch (send_try reply) send_catch.

(** The manager after the server has accepted the message [m] with
    identifier [id], [latency] after the request was made. *)
Definition stored (m id : Value) (latency : Z) (s : t) : t :=
  set_emitted (emitted s ++ [("messageSent", [m])])
    (set_lastMessageTime (now s + latency)
       (set_messageCount (messageCount s + 1)
          (set_sentMessages (map_set id m (sentMessages s))
             (set_now (now s + latency) s)))).

(** The manager after [_checkRateLimit] has let a call pass. *)
Definition admitted (s : t) : t :=
  let s1 := if rateLimitResetTime s <? now s
            then set_rateLimitResetTime (now s + WINDOW) (set_messageCount 0 s)
            else s in
  if now s - lastMessageTime s <? MIN_SPACING
  then set_now (now s + Z.max 0 (MIN_SPACING - (now s - lastMessageTime s))) s1
  else s1.

(** The message of the error that [sendText] throws. *)
Definition text_length_message : string :=
  "Text message must be between 1 and " +:+ pretty MAX_TEXT_LENGTH +:+ " characters".

(** [!text || text.length > Limits.MAX_TEXT_LENGTH], for a [text] that is
    a string, taken as the list of its code units, or is left out. *)
Definition invalid_text (text : option string) : bool :=
  match text with
  | None => true
  | Some s => String.eqb s "" || (MAX_TEXT_LENGTH <? Z.of_nat (String.length s))
  end.

Definition text_value (text : option string) : Value :=
  match text with
  | None => VUndefined
  | Some s => VStr s
  end.

(** The properties that [sendText] sets itself, before [options] is
    spread over them. *)
Definition text_fields (threadId : Value) (text : option string) (timestamp : Z)
    (id : string) : list (string * Value) :=
  [("thread_id", threadId); ("message", text_value text); ("type", VStr "text");
   ("timestamp", VNum timestamp); ("message_id", VStr id)].

(** The object that [sendText] hands to [_sendMessage]; [id] is what
    [generateMessageId()] returned. *)
Definition text_message (threadId : Value) (text : option string) (timestamp : Z)
    (id : string) (options : list (string * Value)) : Value :=
  VObj (spread (text_fields threadId text timestamp id) options).

(** [sendText(threadId, text, options)] *)
Definition sendText (threadId : Value) (text : option string)
    (options : list (string * Value)) (id : string) (reply : Reply) : M Value :=
  if invalid_text text then throw (MessengerError text_length_message)
  else
    s <- get ;;
    _sendMessage (text_message threadId text (now s) id options) reply.

(** ** Receiving *)

(** The object that [handleIncomingMessage] builds. *)
Definition incoming (messageData : list (string * Value)) : list (string * Value) :=
  spread [("id", field "message_id" messageData); ("text", field "text" messageData);
          ("type", field "type" messageData);
          ("timestamp", field "timestamp" messageData);
          ("thread_id", field "thread_id" messageData);
          ("sender", field "sender" messageData)]
    messageData.

(** [handleIncomingMessage(messageData)], for an object [messageData]. *)
Definition handleIncomingMessage (messageData : list (string * Value)) : M Value :=
  let message := incoming messageData in
  modify (fun s => set_receivedMessages
                     (map_set (field "id" message) (VObj message) (receivedMessages s)) s) ;;
  emit "messageReceived" [VObj message] ;;
  ret (VObj message).

(** What [getStats()] returns; [messageQueue] is never written. *)
Record Stats : Type := {
  sentCount : nat;
  receivedCount : nat;
  queueLength : nat;
  stats_messageCount : Z;
  stats_rateLimitResetTime : Z
}.

(** [getStats()] *)
Definition getStats (s : t) : Stats :=
  {| sentCount := length (sentMessages s);
     receivedCount := length (receivedMessages s);
     queueLength := 0;
     stats_messageCount := messageCount s;
     stats_rateLimitResetTime := rateLimitResetTime s |}.

(** ** Sequences of sends *)

(** One send: the message, what the network does with the request, and
    the time that passes between the end of the previous send and this
    one. *)
Record Send : Type := { payload : Value; network : Reply; idle : Z }.

(** Sends made one after the other, each awaited before the next. *)
Definition send_all (sends : list Send) (s : t) : t :=
  foldl (fun s x => (_sendMessage (payload x) (network x)
                       (set_now (now s + idle x) s)).2) s sends.

(** The counter of the rate limit is within its bounds. *)
Definition within_limit (s : t) : Prop := 0 <= messageCount s <= MAX_PER_WINDOW.

(** A response of the server that reports the message [m] as sent. *)
Definition accepted (m : Value) : Value :=
  VObj [("data", VObj [("data", VObj [("sendMessage",
          VObj [("success", VBool true); ("message", m)])])])].

(** Is the value a string, a number, a boolean, [null] or [undefined]? *)
Definition primitive (v : Value) : bool :=
  match v with
  | VObj _ | VError _ => false
  | _ => true
  end.

(** ** Sample managers and replies *)

(** A client without listeners. *)
Definition no_listeners (event : string) (args : list Value) : option Thrown := None.

(** A client whose listener for ["messageSent"] throws. *)
Definition failing_listener (event : string) (args : list Value) : option Thrown :=
  if String.eqb event "messageSent" then Some (Native (PlainError "listener failed"))
  else None.

Definition sample_message : Value := VObj [("id", VStr "mid.1"); ("text", VStr "hi")].

(** The server accepts the message after 40 ms. *)
Definition accepting : Reply := {| answer := Val (accepted sample_message); latency := 40 |}.

(** The request fails after 40 ms. *)
Definition failing : Reply :=
  {| answer := Exn (Native (PlainError "socket hang up")); latency := 40 |}.

(** An authenticated manager, created at clock 0, that has counted 30
    messages in the window that ends at 60000, the last of them at 50000,
    at clock 60000. *)
Definition saturated : t :=
  set_now 60000 (set_lastMessageTime 50000 (set_messageCount 30 (create true no_listeners 0))).

End MessageManager.

(** * [AuthManager]: the session and its end (src/client/AuthManager.js) *)

Module AuthManager.
Local Open Scope Z_scope.

(** The authentication state of an [AuthManager] instance; [None] is
    JavaScript's [null]. *)
Record t : Type := mk {
  accessToken : option string;
  userId : option string;
  deviceId : string;
  clientId : string;
  sessionCookies : option (list (string * string));
  twoFactorRequired : bool;
  twoFactorMethod : option string
}.

(** [Endpoints.GRAPHQL] *)
Definition GRAPHQL : string := "https://graph.facebook.com/graphql".

(** [!!this.accessToken]: [null] and the empty string are falsy. *)
Definition has_token (a : t) : bool :=
  match accessToken a with
  | Some token => negb (String.eqb token "")
  | None => false
  end.

(** "Clear session data" of [logout]. *)
Definition cleared (a : t) : t :=
  {| accessToken := None; userId := None;
     deviceId := deviceId a; clientId := clientId a;
     sessionCookies := None; twoFactorRequired := false;
     twoFactorMethod := None |}.

(** What [logout()] leaves behind: the authentication state, the network
    manager, the clock, and what [console.error] was given in the [catch]. *)
Record Logout : Type := {
  auth : t;
  network : NetworkManager.t;
  finish : Z;
  logged : list NetworkManager.Outcome
}.

(** [logout()] at clock [now]; [env k] is what the network does with
    attempt [k] of the revocation request. [this.network.delete(url)] is
    [_makeRequest('DELETE', url, null, {})]. The promise of [logout] always
    resolves: a rejection of the request is caught and printed. [None]
    stands for a request that never comes back. *)
Definition logout (env : Z -> NetworkManager.Reply) (a : t)
    (st : NetworkManager.t) (now : Z) : option Logout :=
  if has_token a then
    let token := default "" (accessToken a) in
    let r := NetworkManager._makeRequest env "DELETE"
               (GRAPHQL ++ "?access_token=" ++ token)
               NetworkManager.no_options st now in
    match NetworkManager.outcome r with
    | NetworkManager.Resolved _ =>
        Some {| auth := cleared a; network := NetworkManager.final r;
                finish := NetworkManager.finish r; logged := [] |}
    | NetworkManager.Diverged => None
    | rejection =>
        Some {| auth := a; network := NetworkManager.final r;
                finish := NetworkManager.finish r; logged := [rejection] |}
    end
  else Some {| auth := cleared a; network := st; finish := now; logged := [] |}.

(** The object returned by [getStatus()]. *)
Record Status : Type := {
  isAuthenticated : bool;
  status_userId : option string;
  status_twoFactorRequired : bool;
  status_twoFactorMethod : option string;
  status_deviceId : string;
  status_clientId : string
}.

Definition getStatus (a : t) : Status :=
  {| isAuthenticated := has_token a;
     status_userId := userId a;
     status_twoFactorRequired := twoFactorRequired a;
     status_twoFactorMethod := twoFactorMethod a;
     status_deviceId := deviceId a;
     status_clientId := clientId a |}.

End AuthManager.

(** * Properties of the request executor *)

Module NetworkManagerFacts.
Import NetworkManager.
Local Open Scope Z_scope.

(** *** Basic facts about one attempt and about the loop *)

Lemma try_block_settings options r st now :
  same_settings st (try_block options r st now).1.2.
Proof.
  unfold try_block, same_settings.
  destruct (axios_request (wire r)); simpl; auto.
Qed.

Lemma try_block_clock options r st now :
  (try_block options r st now).2 = now + latency r.
Proof. unfold try_block. destruct (axios_request (wire r)); reflexivity. Qed.

Lemma _shouldRetry_below_max st error attempt :
  _shouldRetry st error attempt = true -> attempt < maxRetries st.
Proof.
  unfold _shouldRetry.
  destruct (maxRetries st <=? attempt) eqn:E; [discriminate | lia].
Qed.

Lemma _shouldRetry_transient st status attempt code :
  attempt < maxRetries st -> 500 <= status ->
  _shouldRetry st (AxiosError code (Some status)) attempt = true.
Proof.
  intros Ha Hs. unfold _shouldRetry; simpl.
  destruct (maxRetries st <=? attempt) eqn:E; [lia |].
  destruct (match code with Some c => is_retry_code c | None => false end);
    [reflexivity |].
  destruct (500 <=? status) eqn:E5; [reflexivity | lia].
Qed.

Lemma _shouldRetry_HttpError st status attempt :
  _shouldRetry st (HttpError status) attempt = false.
Proof. unfold _shouldRetry; simpl. destruct (maxRetries st <=? attempt); reflexivity. Qed.

Lemma attempt_loop_settings env options fuel :
  forall attempt lastError st now,
    same_settings st (after (attempt_loop env options fuel attempt lastError st now)).
Proof.
  induction fuel as [| fuel IH]; intros attempt lastError st now; simpl.
  - unfold same_settings; auto.
  - destruct (attempt <=? maxRetries st); [| unfold same_settings; simpl; auto].
    pose proof (try_block_settings options (env attempt) st now) as Hs.
    destruct (try_block options (env attempt) st now) as [[[status | error] st1] now1];
      simpl in Hs; [exact Hs |].
    destruct (_shouldRetry st1 error attempt); [| exact Hs].
    destruct (attempt <? maxRetries st1); simpl;
      match goal with
      | |- same_settings _ (after (attempt_loop _ _ _ ?a ?l ?s ?n)) =>
          specialize (IH a l s n)
      end;
      unfold same_settings in *; intuition congruence.
Qed.

Lemma attempt_loop_terminates env options fuel :
  forall attempt lastError st now,
    enough_fuel st attempt fuel ->
    exit (attempt_loop env options fuel attempt lastError st now) <> OutOfFuel.
Proof.
  unfold enough_fuel.
  induction fuel as [| fuel IH]; intros attempt lastError st now Hf; simpl.
  - lia.
  - destruct (attempt <=? maxRetries st) eqn:Hle; [| simpl; discriminate].
    apply Z.leb_le in Hle.
    pose proof (try_block_settings options (env attempt) st now) as Hs.
    destruct (try_block options (env attempt) st now) as [[[status | error] st1] now1];
      simpl in Hs; [simpl; discriminate |].
    destruct (_shouldRetry st1 error attempt); [| simpl; discriminate].
    destruct Hs as (_ & _ & Hm & _).
    destruct (attempt <? maxRetries st1); simpl; apply IH; rewrite Hm; lia.
Qed.

(** With enough fuel, what the loop leaves behind has the retry shape,
    with the waits computed from the base delay of the manager. *)
Lemma attempt_loop_shape env options fuel :
  forall attempt lastError st now,
    enough_fuel st attempt fuel ->
    loop_shape (retryDelay st) attempt
      (events (attempt_loop env options fuel attempt lastError st now)).
Proof.
  unfold enough_fuel.
  induction fuel as [| fuel IH]; intros attempt lastError st now Hf; simpl.
  - constructor.
  - destruct (attempt <=? maxRetries st) eqn:Hle; [| constructor].
    apply Z.leb_le in Hle.
    pose proof (try_block_settings options (env attempt) st now) as Hs.
    destruct (try_block options (env attempt) st now) as [[[status | error] st1] now1];
      simpl in Hs; [constructor |].
    destruct (_shouldRetry st1 error attempt) eqn:Hr; [| constructor].
    apply _shouldRetry_below_max in Hr.
    destruct Hs as (_ & _ & Hm & Hd).
    destruct (attempt <? maxRetries st1) eqn:Hlt; [| apply Z.ltb_ge in Hlt; lia].
    simpl.
    assert (Hf' : (Z.to_nat (maxRetries st1 - (attempt + 1) + 1) < fuel)%nat)
      by (rewrite Hm; lia).
    specialize (IH (attempt + 1) (Some error) st1
                  (_wait (retryDelay st1 * attempt) now1) Hf').
    rewrite Hd in *.
    destruct fuel as [| fuel']; [lia |].
    simpl in IH |- *.
    destruct (attempt + 1 <=? maxRetries st1) eqn:Hle'; [| apply Z.leb_gt in Hle'; lia].
    destruct (try_block options (env (attempt + 1)) st1
                (_wait (retryDelay st * attempt) now1)) as [[[s2 | e2] st2] now2].
    + simpl. apply shape_retry. exact IH.
    + destruct (_shouldRetry st2 e2 (attempt + 1)).
      * destruct (attempt + 1 <? maxRetries st2); simpl in *; apply shape_retry; exact IH.
      * simpl. apply shape_retry. exact IH.
Qed.

(** *** Consequences of the retry shape *)

Lemma loop_shape_dispatched_ge d a evs :
  loop_shape d a evs -> forall k, k ∈ dispatched evs -> a <= k.
Proof.
  induction 1 as [a | a time | a time time' rest _ IH]; intros k Hk; simpl in Hk.
  - inversion Hk.
  - apply list_elem_of_singleton in Hk. lia.
  - apply elem_of_cons in Hk as [-> | Hk]; [lia |].
    specialize (IH k Hk). lia.
Qed.

Lemma backoff_before_undispatched k evs :
  k ∉ dispatched evs -> backoff_before k evs = None.
Proof.
  induction evs as [| ev evs IH]; intros Hk; [reflexivity |].
  destruct ev as [ms | attempt time | attempt | ms]; simpl in *; auto.
  - apply IH. intros Hin. apply Hk. now right.
  - destruct evs as [| [ms' | attempt time | attempt | ms'] evs']; auto.
    destruct (attempt =? k) eqn:E; [| auto].
    apply Z.eqb_eq in E. subst. exfalso. apply Hk. simpl. now left.
Qed.

Lemma loop_shape_backoff d a evs :
  loop_shape d a evs ->
  forall k, k ∈ dispatched evs ->
    backoff_before k evs = if k =? a then None else Some (d * (k - 1)).
Proof.
  induction 1 as [a | a time | a time time' rest Hshape IH]; intros k Hk.
  - inversion Hk.
  - simpl in Hk. apply list_elem_of_singleton in Hk. subst.
    rewrite Z.eqb_refl. reflexivity.
  - change (backoff_before k (Dispatch a time :: Warn a :: BackoffWait (d * a)
                              :: Dispatch (a + 1) time' :: rest))
      with (if a + 1 =? k then Some (d * a)
            else backoff_before k (Dispatch (a + 1) time' :: rest)).
    simpl in Hk. apply elem_of_cons in Hk as [-> | Hk].
    + rewrite Z.eqb_refl.
      destruct (a + 1 =? a) eqn:E; [lia |].
      apply backoff_before_undispatched. intros Hin.
      pose proof (loop_shape_dispatched_ge _ _ _ Hshape a Hin). lia.
    + pose proof (loop_shape_dispatched_ge _ _ _ Hshape k Hk) as Hge.
      destruct (k =? a) eqn:Eka; [lia |].
      destruct (a + 1 =? k) eqn:E.
      * apply Z.eqb_eq in E. subst. f_equal. f_equal. lia.
      * rewrite (IH k Hk). destruct (k =? a + 1) eqn:E'; [lia | reflexivity].
Qed.

Lemma loop_shape_no_rate_limit d a evs :
  loop_shape d a evs -> rate_limit_waits evs = O.
Proof. induction 1; simpl; auto. Qed.

Lemma loop_shape_last d a evs :
  loop_shape d a evs -> ends_in_backoff evs = false.
Proof.
  unfold ends_in_backoff.
  induction 1 as [a | a time | a time time' rest _ IH]; try reflexivity.
  exact IH.
Qed.

Lemma loop_shape_first_time d a evs :
  loop_shape d a evs ->
  forall time, head (dispatch_times evs) = Some time ->
    exists rest, evs = Dispatch a time :: rest.
Proof.
  destruct 1; simpl; intros t Ht; inversion Ht; subst; eauto.
Qed.

(** [_makeRequest] always comes back. *)
Lemma _makeRequest_terminates env m u options st now :
  outcome (_makeRequest env m u options st now) <> Diverged.
Proof.
  unfold _makeRequest.
  destruct (_applyRateLimit _ now) as [now0 limited].
  set (st0 := set_requestCount (requestCount st + 1) st).
  pose proof (attempt_loop_terminates env options (S (Z.to_nat (maxRetries st0)))
                1 None st0 now0) as Ht.
  unfold outcome.
  destruct (exit _) as [status | [error |] |]; try discriminate.
  exfalso. apply Ht; [unfold enough_fuel; lia | reflexivity].
Qed.

Lemma attempt_loop_first_time env options fuel attempt lastError st now time :
  head (dispatch_times (events (attempt_loop env options fuel attempt lastError st now)))
    = Some time ->
  time = now.
Proof.
  destruct fuel as [| fuel]; simpl; [discriminate |].
  destruct (attempt <=? maxRetries st); [| discriminate].
  destruct (try_block options (env attempt) st now) as [[[s | e] st1] now1].
  - simpl. congruence.
  - destruct (_shouldRetry st1 e attempt);
      [destruct (attempt <? maxRetries st1) |]; simpl; congruence.
Qed.

(** A timer fires after at least 1 ms, and after the delay it was set
    with when that is between 1 and [TIMEOUT_MAX]. *)
Lemma timer_delay_positive ms : 1 <= Timers.timer_delay ms.
Proof.
  unfold Timers.timer_delay, Timers.TIMEOUT_MAX.
  destruct (ms <? 1) eqn:E1; destruct (2147483647 <? ms) eqn:E2; simpl; lia.
Qed.

Lemma timer_delay_honoured ms :
  1 <= ms <= Timers.TIMEOUT_MAX -> Timers.timer_delay ms = ms.
Proof.
  unfold Timers.timer_delay, Timers.TIMEOUT_MAX. intros H.
  destruct (ms <? 1) eqn:E1; destruct (2147483647 <? ms) eqn:E2; simpl; lia.
Qed.

Lemma timer_delay_cut ms :
  Timers.TIMEOUT_MAX < ms -> Timers.timer_delay ms = 1.
Proof.
  unfold Timers.timer_delay, Timers.TIMEOUT_MAX. intros H.
  destruct (ms <? 1) eqn:E1; destruct (2147483647 <? ms) eqn:E2; simpl; lia.
Qed.

(** The suspension never sets the clock back. *)
Lemma _applyRateLimit_forward st now : now <= (_applyRateLimit st now).1.
Proof.
  unfold _applyRateLimit, _wait.
  pose proof (timer_delay_positive (rateLimitDelay st - (now - lastRequestTime st))).
  destruct (now - lastRequestTime st <? rateLimitDelay st) eqn:E; simpl; lia.
Qed.

(** With a spacing that [setTimeout] honours, on a clock that has not run
    backwards, the suspension ends [rateLimitDelay] after
    [lastRequestTime] or later. *)
Lemma _applyRateLimit_clock st now :
  rateLimitDelay st <= Timers.TIMEOUT_MAX -> lastRequestTime st <= now ->
  lastRequestTime st + rateLimitDelay st <= (_applyRateLimit st now).1.
Proof.
  intros Hmax Hnow. unfold _applyRateLimit, _wait.
  destruct (now - lastRequestTime st <? rateLimitDelay st) eqn:E; simpl; [| lia].
  rewrite timer_delay_honoured by lia. lia.
Qed.

Lemma _applyRateLimit_events st now :
  (_applyRateLimit st now).2 = [] \/
  exists ms, (_applyRateLimit st now).2 = [RateLimitWait ms].
Proof.
  unfold _applyRateLimit.
  destruct (now - lastRequestTime st <? rateLimitDelay st); simpl; eauto.
Qed.

Lemma _makeRequest_observed env m u options st now :
  exists limited tail,
    observed (_makeRequest env m u options st now) = limited ++ tail /\
    (limited = [] \/ exists ms, limited = [RateLimitWait ms]) /\
    loop_shape (retryDelay st) 1 tail /\
    (rateLimitDelay st <= Timers.TIMEOUT_MAX -> lastRequestTime st <= now ->
     forall time, head (dispatch_times tail) = Some time ->
       lastRequestTime st + rateLimitDelay st <= time).
Proof.
  unfold _makeRequest.
  set (st0 := set_requestCount (requestCount st + 1) st).
  pose proof (_applyRateLimit_clock st0 now) as Hc.
  pose proof (_applyRateLimit_events st0 now) as He.
  destruct (_applyRateLimit st0 now) as [now0 limited].
  unfold observed. exists limited. eexists. split; [reflexivity |].
  split; [exact He |]. split.
  - apply (attempt_loop_shape env options _ 1 None st0 now0).
    unfold enough_fuel. lia.
  - intros Hmax Hnow time Ht. apply attempt_loop_first_time in Ht. subst.
    exact (Hc Hmax Hnow).
Qed.

(** *** The retry policy *)

(** While the network keeps failing transiently (a 5xx answer, or one of
    the four transport codes), every attempt up to [maxRetries] is
    dispatched and the loop is left with the last error. *)
Lemma attempt_loop_transient env options fuel :
  forall attempt lastError st now,
    enough_fuel st attempt fuel ->
    1 <= attempt <= maxRetries st ->
    (forall k, attempt <= k <= maxRetries st -> transient (wire (env k)) = true) ->
    let run := attempt_loop env options fuel attempt lastError st now in
    dispatched (events run) = seqZ attempt (maxRetries st - attempt + 1) /\
    exists error, exit run = Fell (Some error) /\ after run = st.
Proof.
  unfold enough_fuel.
  induction fuel as [| fuel IH]; intros attempt lastError st now Hf Ha Hall; [lia |].
  simpl.
  replace (attempt <=? maxRetries st) with true by lia.
  assert (Htry : exists error,
             try_block options (env attempt) st now = (Exn error, st, now + latency (env attempt))
             /\ _shouldRetry st error attempt = negb (maxRetries st <=? attempt)).
  { specialize (Hall attempt ltac:(lia)). unfold try_block.
    destruct (wire (env attempt)) as [status | code]; simpl in Hall |- *.
    - apply Z.leb_le in Hall. unfold validateStatus.
      replace (status <? 500) with false by lia.
      eexists; split; [reflexivity |].
      unfold _shouldRetry; simpl.
      destruct (maxRetries st <=? attempt); [reflexivity |].
      replace (500 <=? status) with true by lia. reflexivity.
    - eexists; split; [reflexivity |].
      unfold _shouldRetry; simpl. rewrite Hall.
      destruct (maxRetries st <=? attempt); reflexivity. }
  destruct Htry as (error & -> & Hr). rewrite Hr.
  destruct (maxRetries st <=? attempt) eqn:Hlast; simpl.
  - assert (attempt = maxRetries st) as -> by lia.
    replace (maxRetries st - maxRetries st + 1) with 1 by lia.
    split; [reflexivity | eauto].
  - apply Z.leb_gt in Hlast.
    replace (attempt <? maxRetries st) with true by lia. simpl.
    destruct (IH (attempt + 1) (Some error) st
                (_wait (retryDelay st * attempt) (now + latency (env attempt))))
      as (Hd & e' & He & Hst); [lia | lia | intros k Hk; apply Hall; lia |].
    rewrite Hd, He, Hst. split; [| eauto].
    rewrite (seqZ_cons attempt) by lia.
    replace (Z.succ attempt) with (attempt + 1) by lia.
    replace (Z.pred (maxRetries st - attempt + 1))
      with (maxRetries st - (attempt + 1) + 1) by lia.
    reflexivity.
Qed.

(** A logical request whose attempts all fail transiently uses exactly the
    attempts [1 .. maxRetries] and is rejected. *)
Lemma transient_failures_exhaust_retries env m u options st now :
  1 <= maxRetries st ->
  (forall k, 1 <= k <= maxRetries st -> transient (wire (env k)) = true) ->
  let run := _makeRequest env m u options st now in
  dispatched (observed run) = seqZ 1 (maxRetries st) /\
  exists e, outcome run = Rejected e.
Proof.
  intros Hm Hall. unfold _makeRequest.
  set (st0 := set_requestCount (requestCount st + 1) st).
  pose proof (_applyRateLimit_events st0 now) as He.
  destruct (_applyRateLimit st0 now) as [now0 limited]. simpl in He.
  destruct (attempt_loop_transient env options (S (Z.to_nat (maxRetries st0))) 1 None st0 now0)
    as (Hd & error & Hx & _).
  { unfold enough_fuel. lia. }
  { simpl. lia. }
  { exact Hall. }
  cbv zeta. unfold observed, outcome. rewrite Hx. split; [| eauto].
  replace (maxRetries st) with (maxRetries st0 - 1 + 1) by (simpl; lia).
  rewrite <- Hd.
  destruct He as [-> | [ms ->]]; reflexivity.
Qed.

(** An answer with a 4xx status leaves the loop at the first attempt:
    axios resolves, [_handleResponse] throws a [NetworkError] that has no
    [response] property, and [_shouldRetry] answers [false] for it. *)
Lemma client_error_surfaces_at_once env m u options st now status :
  1 <= maxRetries st ->
  wire (env 1) = Answered status -> 400 <= status < 500 ->
  let run := _makeRequest env m u options st now in
  dispatched (observed run) = [1] /\
  outcome run = Rejected (_createNetworkError (HttpError status) u m).
Proof.
  intros Hm Hw Hs. unfold _makeRequest.
  set (st0 := set_requestCount (requestCount st + 1) st).
  pose proof (_applyRateLimit_events st0 now) as He.
  destruct (_applyRateLimit st0 now) as [now0 limited]. simpl in He.
  cbv zeta. unfold observed, outcome.
  simpl attempt_loop.
  replace (1 <=? maxRetries st) with true by lia.
  unfold try_block. rewrite Hw. simpl axios_request. unfold validateStatus.
  replace (status <? 500) with true by lia.
  unfold _handleResponse.
  replace (status <? 400) with false by lia. rewrite andb_false_r.
  replace (400 <=? status) with true by lia.
  rewrite _shouldRetry_HttpError. simpl.
  destruct He as [-> | [ms ->]]; split; reflexivity.
Qed.

(** *** C1: which failures are retried *)

(** C1 (the code departs from its own comment). A 429 answer is not retried:
    with at least two attempts configured, a first attempt answered 429 is
    the only attempt dispatched, and the request is rejected with the
    [NetworkError] of [_createHttpError] as its cause. [_shouldRetry] tests
    [error.response.status === 429], but the error thrown for a 4xx answer
    carries its status under [details.statusCode] only. *)
Theorem rate_limited_answer_is_not_retried env m u options st now :
  2 <= maxRetries st ->
  wire (env 1) = Answered 429 ->
  let run := _makeRequest env m u options st now in
  _shouldRetry st (HttpError 429) 1 = false /\
  dispatched (observed run) = [1] /\
  outcome run = Rejected (_createNetworkError (HttpError 429) u m).
Proof.
  intros Hm Hw run. split; [apply _shouldRetry_HttpError |].
  apply client_error_surfaces_at_once; [lia | exact Hw | lia].
Qed.

Lemma rate_limited_answer_is_not_retried_witness :
  2 <= maxRetries create /\
  dispatched (observed (_makeRequest (always 429) "GET" "/me" no_options create 10000)) = [1].
Proof.
  split; [unfold create, MAX_RETRIES; simpl; lia |].
  apply (rate_limited_answer_is_not_retried (always 429) "GET" "/me" no_options create 10000);
    [unfold create, MAX_RETRIES; simpl; lia | reflexivity].
Defined.

(** *** C3: the backoff schedule *)

(** C3 as stated fails: with the constructor's settings and a remote that
    keeps answering 503, the wait before attempt 2 is one base delay, not
    two. *)
Lemma backoff_before_second_attempt_is_one_base_delay :
  let run := _makeRequest (always 503) "GET" "/me" no_options create 10000 in
  dispatched (observed run) = [1; 2; 3] /\
  backoff_before 2 (observed run) = Some (1 * retryDelay create) /\
  backoff_before 2 (observed run) <> Some (2 * retryDelay create).
Proof. cbv zeta. repeat split. vm_compute. discriminate. Qed.

(** C3 (amended). For every attempt [k] that is dispatched, the backoff
    wait directly before it is [(k - 1)] times the base retry delay when
    [k >= 2], and there is none before attempt 1; nor is a backoff wait the
    last thing a logical request does. *)
Theorem backoff_is_base_delay_times_failed_attempt env m u options st now :
  let run := _makeRequest env m u options st now in
  (forall k, k ∈ dispatched (observed run) ->
     1 <= k /\
     backoff_before k (observed run)
       = if k =? 1 then None else Some ((k - 1) * retryDelay st)) /\
  ends_in_backoff (observed run) = false.
Proof.
  intros run.
  destruct (_makeRequest_observed env m u options st now)
    as (limited & tail & Hobs & Hlim & Hshape & _).
  fold run in Hobs. rewrite Hobs.
  assert (Hd : dispatched (limited ++ tail) = dispatched tail)
    by (destruct Hlim as [-> | [ms ->]]; reflexivity).
  assert (Hb : forall k, backoff_before k (limited ++ tail) = backoff_before k tail)
    by (intros k; destruct Hlim as [-> | [ms ->]]; reflexivity).
  split.
  - intros k Hk. rewrite Hd in Hk. rewrite Hb.
    split; [exact (loop_shape_dispatched_ge _ _ _ Hshape k Hk) |].
    rewrite (loop_shape_backoff _ _ _ Hshape k Hk).
    destruct (k =? 1); [reflexivity | f_equal; lia].
  - pose proof (loop_shape_last _ _ _ Hshape) as Hl.
    destruct Hlim as [-> | [ms ->]]; [exact Hl |].
    destruct Hshape; reflexivity || exact Hl.
Qed.

Lemma backoff_is_base_delay_times_failed_attempt_witness :
  3 ∈ dispatched (observed (_makeRequest (always 503) "GET" "/me" no_options create 10000)) /\
  backoff_before 3 (observed (_makeRequest (always 503) "GET" "/me" no_options create 10000))
    = Some 4000.
Proof.
  assert (H : 3 ∈ dispatched (observed
                (_makeRequest (always 503) "GET" "/me" no_options create 10000))).
  { vm_compute. apply list_elem_of_In. simpl. auto. }
  split; [exact H |].
  exact (proj2 (proj1 (backoff_is_base_delay_times_failed_attempt
                         (always 503) "GET" "/me" no_options create 10000) 3 H)).
Defined.

(** *** C4: spacing of dispatched attempts *)


(** When the loop returns a response, the time it arrived is what
    [lastRequestTime] holds. *)
Lemma attempt_loop_records_response env options fuel :
  forall attempt lastError st now status,
    exit (attempt_loop env options fuel attempt lastError st now) = Returned status ->
    lastRequestTime (after (attempt_loop env options fuel attempt lastError st now))
    = clock (attempt_loop env options fuel attempt lastError st now).
Proof.
  induction fuel as [| fuel IH]; intros attempt lastError st now status; simpl;
    [discriminate |].
  destruct (attempt <=? maxRetries st); [| discriminate].
  unfold try_block.
  destruct (axios_request (wire (env attempt))) as [s | e].
  - destruct (_handleResponse s options) as [s' | e']; [reflexivity |].
    destruct (_shouldRetry _ e' attempt); [| discriminate].
    destruct (attempt <? maxRetries _); simpl; apply IH.
  - destruct (_shouldRetry st e attempt); [| discriminate].
    destruct (attempt <? maxRetries st); simpl; apply IH.
Qed.

(** A spacing above [TIMEOUT_MAX] does not space requests at all: the
    timer of the suspension fires after 1 ms, so with a spacing of [2^31]
    ms a request made right after a response starts 1 ms later. *)
Lemma spacing_above_the_timer_limit_is_one_millisecond :
  let st := set_lastRequestTime 10000 (mk 0 0 2147483648 MAX_RETRIES RETRY_DELAY) in
  dispatch_times (observed (_makeRequest (always 200) "GET" "/me" no_options st 10000))
  = [10001].
Proof. reflexivity. Qed.



(** *** C5: what an attempt writes *)



End NetworkManagerFacts.

(** * Properties of the persistent channel *)

Module WebSocketManagerFacts.
Import WebSocketManager.
Local Open Scope string_scope.
Local Open Scope list_scope.
Local Open Scope Z_scope.
Local Open Scope js_scope.

(** ** Reasoning about methods *)

Section Keeps.
Context (R : t -> t -> Prop) `{!PreOrder R}.

Lemma keeps_ret {A : Type} (a : A) : keeps R (ret a).
Proof. intros s. reflexivity. Qed.

Lemma keeps_throw {A : Type} (e : JsError) : keeps R (@throw A e).
Proof. intros s. reflexivity. Qed.

Lemma keeps_get : keeps R get.
Proof. intros s. reflexivity. Qed.

Lemma keeps_modify (f : t -> t) : (forall s, R s (f s)) -> keeps R (modify f).
Proof. intros H s. apply H. Qed.

Lemma keeps_bind {A B : Type} (m : M A) (k : A -> M B) :
  keeps R m -> (forall a, keeps R (k a)) -> keeps R (bind m k).
Proof.
  intros Hm Hk s. unfold bind. specialize (Hm s).
  destruct (m s) as [[a | e] s1]; simpl in *; [| exact Hm].
  etransitivity; [exact Hm | apply Hk].
Qed.

(** After [get] the continuation may use what it read. *)
Lemma keeps_bind_get {B : Type} (k : t -> M B) :
  (forall s, R s (k s s).2) -> keeps R (bind get k).
Proof. intros H s. apply H. Qed.

Lemma keeps_try_catch {A : Type} (body : M A) (handler : JsError -> M A) :
  keeps R body -> (forall e, keeps R (handler e)) -> keeps R (try_catch body handler).
Proof.
  intros Hb Hh s. unfold try_catch. specialize (Hb s).
  destruct (body s) as [[a | e] s1]; simpl in *; [exact Hb |].
  etransitivity; [exact Hb | apply Hh].
Qed.

Lemma keeps_prop (v : Value) (key : string) : keeps R (prop v key).
Proof. intros st. destruct v; reflexivity. Qed.
End Keeps.

(** Breaks a goal [keeps R m] down along the structure of [m]. *)
Ltac keeps_step :=
  match goal with
  | |- keeps _ (bind _ _) => apply keeps_bind; [try typeclasses eauto | | intros ?]
  | |- keeps _ (try_catch _ _) => apply keeps_try_catch; [try typeclasses eauto | | intros ?]
  | |- keeps _ (ret _) => apply keeps_ret; typeclasses eauto
  | |- keeps _ (throw _) => apply keeps_throw; typeclasses eauto
  | |- keeps _ get => apply keeps_get; typeclasses eauto
  | |- keeps _ (prop _ _) => apply keeps_prop; typeclasses eauto
  | |- keeps _ (if ?c then _ else _) => destruct c
  | |- keeps _ (match ?x with _ => _ end) => destruct x
  end.

#[export] Instance maintained_preorder : PreOrder maintained.
Proof.
  split.
  - intros s. split; auto.
    + intros _ p o H _. exact H.
    + exists []. now rewrite app_nil_r.
  - intros s1 s2 s3 H12 H23. destruct H12, H23. split; try congruence; auto.
    + lia.
    + intros Hf p o Hp Ho. apply kept_settled1; auto. apply kept_settled0; auto.
    + destruct kept_log0 as [l1 H1], kept_log1 as [l2 H2].
      exists (l1 ++ l2). rewrite H2, H1. now rewrite app_assoc.
Qed.

#[export] Instance undisturbed_preorder : PreOrder undisturbed.
Proof.
  split.
  - intros s. split; auto.
    + intros p o H _. exact H.
    + exists []. split; [now rewrite app_nil_r | reflexivity].
  - intros s1 s2 s3 H12 H23. destruct H12, H23. split; try congruence; auto.
    + etransitivity; eassumption.
    + intros p o Hp Ho. apply same_settled1; auto.
    + destruct more_log0 as (l1 & H1 & C1), more_log1 as (l2 & H2 & C2).
      exists (l1 ++ l2). split; [rewrite H2, H1; now rewrite app_assoc |].
      rewrite forallb_app, C1, C2. reflexivity.
Qed.

Lemma maintained_same s s' :
  maxReconnectAttempts s' = maxReconnectAttempts s ->
  reconnectDelay s' = reconnectDelay s ->
  autoReconnect s' = autoReconnect s ->
  reconnectAttempts s' = reconnectAttempts s ->
  (nextHandle s <= nextHandle s')%nat ->
  promises s' = promises s ->
  (exists l, log s' = log s ++ l) ->
  maintained s s'.
Proof.
  intros Hm Hd Ha Hr Hn Hp Hl. split; auto.
  - unfold bounded. rewrite Hm, Hr. auto.
  - intros Hf p Hs. rewrite Hp in Hs. specialize (Hf p Hs). lia.
  - intros _ p o Ho _. rewrite Hp. exact Ho.
Qed.

Lemma undisturbed_maintained s s' : undisturbed s s' -> maintained s s'.
Proof.
  intros []. split; auto.
  - unfold bounded. rewrite same_max0, same_reconnectAttempts0. auto.
  - lia.
  - intros Hf p Hs. rewrite same_nextHandle0. auto.
  - destruct more_log0 as (l & Hl & _). eauto.
Qed.

(** Solves [maintained s (f s)] for an [f] that writes none of the fields
    the relation speaks about. *)
Ltac unrelated :=
  intros; apply maintained_same; simpl; try reflexivity; try lia;
  try (exists []; symmetry; apply app_nil_r).

Create HintDb keeps discriminated.

Lemma record_maintained entry : keeps maintained (record entry).
Proof. intros s. apply maintained_same; simpl; try reflexivity. eauto. Qed.

Lemma console_maintained level text : keeps maintained (console level text).
Proof. apply record_maintained. Qed.

Lemma new_handle_maintained : keeps maintained new_handle.
Proof. intros s. apply maintained_same; simpl; try reflexivity; [lia |]. exists []. now rewrite app_nil_r. Qed.

Lemma setTimeout_maintained cb ms : keeps maintained (setTimeout cb ms).
Proof. intros s. apply maintained_same; simpl; try reflexivity; [lia |]. exists []. now rewrite app_nil_r. Qed.

Lemma setInterval_maintained cb ms : keeps maintained (setInterval cb ms).
Proof. intros s. apply maintained_same; simpl; try reflexivity; [lia |]. exists []. now rewrite app_nil_r. Qed.

Lemma clearTimeout_maintained id : keeps maintained (clearTimeout id).
Proof. intros s. unrelated. Qed.

Lemma on_maintained event l : keeps maintained (on event l).
Proof. intros s. unrelated. Qed.

Lemma removeListener_maintained event l : keeps maintained (removeListener event l).
Proof. intros s. unrelated. Qed.

Lemma gone_maintained id : keeps maintained (gone id).
Proof. intros s. unrelated. Qed.

Lemma settle_settled p outcome s :
  settled_kept s (settle p outcome s).2.
Proof.
  intros q o Hq Ho. unfold settle, modify. simpl.
  destruct (promises s !! p) as [[| v | e] |] eqn:E; simpl; auto.
  destruct (decide (p = q)) as [-> | Hne]; [congruence |].
  now rewrite lookup_insert_ne.
Qed.

Lemma settle_domain p outcome s q :
  is_Some (promises (settle p outcome s).2 !! q) -> is_Some (promises s !! q).
Proof.
  unfold settle, modify. simpl.
  destruct (promises s !! p) as [[| v | e] |] eqn:E; simpl; auto.
  destruct (decide (p = q)) as [-> | Hne]; [rewrite E; eauto |].
  now rewrite lookup_insert_ne.
Qed.

Lemma settle_maintained p outcome : keeps maintained (settle p outcome).
Proof.
  intros s. unfold settle, modify. simpl.
  destruct (promises s !! p) as [[| v | e] |] eqn:E; try reflexivity.
  split; simpl; auto.
  - intros Hf q [o Hq]. simpl in *.
    destruct (decide (p = q)) as [<- | Hne]; [apply Hf; eauto |].
    rewrite lookup_insert_ne in Hq by done. apply Hf; eauto.
  - intros _ q o Hq Ho. simpl in *.
    destruct (decide (p = q)) as [<- | Hne]; [congruence |].
    now rewrite lookup_insert_ne.
  - exists []. now rewrite app_nil_r.
Qed.

Lemma new_promise_maintained : keeps maintained new_promise.
Proof.
  intros s. split; simpl; auto.
  - intros Hf p [o Hp]. simpl in *.
    destruct (decide (nextHandle s = p)) as [<- | Hne]; [lia |].
    rewrite lookup_insert_ne in Hp by done.
    specialize (Hf p (ex_intro _ o Hp)). lia.
  - intros Hf p o Hp _. simpl in *.
    destruct (decide (nextHandle s = p)) as [<- | Hne].
    + specialize (Hf _ (ex_intro _ o Hp)). lia.
    + now rewrite lookup_insert_ne.
  - exists []. now rewrite app_nil_r.
Qed.

#[export] Hint Resolve record_maintained console_maintained new_handle_maintained
  setTimeout_maintained setInterval_maintained clearTimeout_maintained on_maintained
  removeListener_maintained gone_maintained settle_maintained new_promise_maintained
  : keeps.

(** *** Emissions *)

Lemma undisturbed_same s s' :
  ws s' = ws s -> isConnected s' = isConnected s -> isConnecting s' = isConnecting s ->
  reconnectAttempts s' = reconnectAttempts s ->
  maxReconnectAttempts s' = maxReconnectAttempts s ->
  reconnectDelay s' = reconnectDelay s ->
  heartbeatInterval s' = heartbeatInterval s -> heartbeatTimeout s' = heartbeatTimeout s ->
  pendingMessages s' = pendingMessages s -> autoReconnect s' = autoReconnect s ->
  now s' = now s -> live s' = live s -> nextHandle s' = nextHandle s ->
  timers s' ⊆ timers s -> promises s' = promises s ->
  (exists l, log s' = log s ++ l /\ forallb chatter l = true) ->
  undisturbed s s'.
Proof.
  intros. split; auto.
  - intros p o Hp _. congruence.
  - intros p Hp. congruence.
Qed.

Ltac quiet :=
  intros; apply undisturbed_same; simpl; try reflexivity;
  try (exists []; split; [symmetry; apply app_nil_r | reflexivity]).

Lemma record_undisturbed entry :
  chatter entry = true -> keeps undisturbed (record entry).
Proof.
  intros Hc s. apply undisturbed_same; simpl; try reflexivity.
  exists [entry]. split; [reflexivity |]. simpl. now rewrite Hc.
Qed.

Lemma clearTimeout_undisturbed id : keeps undisturbed (clearTimeout id).
Proof. intros s. quiet. apply delete_subseteq. Qed.

Lemma removeListener_undisturbed event l : keeps undisturbed (removeListener event l).
Proof. intros s. quiet. Qed.

Lemma settle_undisturbed p outcome : keeps undisturbed (settle p outcome).
Proof.
  intros s.
  pose proof (settle_settled p outcome s) as Hs.
  pose proof (settle_domain p outcome s) as Hd.
  unfold settle, modify in *. simpl in *.
  destruct (promises s !! p) as [[| v | e] |] eqn:E; try reflexivity.
  split; simpl; auto.
  exists []. split; [now rewrite app_nil_r | reflexivity].
Qed.

#[export] Hint Resolve clearTimeout_undisturbed removeListener_undisturbed
  settle_undisturbed : keeps.

Lemma invoke_undisturbed event l args : keeps undisturbed (invoke event l args).
Proof.
  unfold invoke. destruct l as [id body | messageId timer promise | id].
  - keeps_step; [apply record_undisturbed; reflexivity |].
    destruct (body args); keeps_step.
  - repeat keeps_step; unfold resolve; auto with keeps.
  - repeat keeps_step; auto with keeps.
Qed.

Lemma invoke_all_undisturbed event ls args : keeps undisturbed (invoke_all event ls args).
Proof.
  induction ls as [| l ls IH]; simpl.
  - keeps_step.
  - keeps_step; [apply invoke_undisturbed | exact IH].
Qed.

Lemma emit_undisturbed event args : keeps undisturbed (emit event args).
Proof.
  unfold emit. keeps_step; [keeps_step |].
  keeps_step; [apply record_undisturbed; reflexivity |].
  destruct (listeners_of event a) as [| l ls].
  - repeat keeps_step.
  - keeps_step; [apply invoke_all_undisturbed | keeps_step].
Qed.

Lemma emit_maintained event args : keeps maintained (emit event args).
Proof. intros s. apply undisturbed_maintained, emit_undisturbed. Qed.

#[export] Hint Resolve emit_maintained : keeps.

(** An emission is logged before any listener runs. *)
Lemma emit_logged event args s :
  exists l, log (emit event args s).2 = log s ++ Emitted event args :: l.
Proof.
  unfold emit, bind, get, record, modify. simpl.
  set (s1 := set_log (log s ++ [Emitted event args]) s).
  assert (H1 : log s1 = log s ++ [Emitted event args]) by reflexivity.
  assert (Hk : forall (m : M bool),
             keeps undisturbed m ->
             exists l, log (m s1).2 = log s ++ Emitted event args :: l).
  { intros m Hm. destruct (Hm s1) as [_ _ _ _ _ _ _ _ _ _ _ _ _ _ _ _ (l & Hl & _)].
    exists l. rewrite Hl, H1, <- app_assoc. reflexivity. }
  destruct (listeners_of event s) as [| l ls].
  - apply Hk. repeat keeps_step.
  - apply (Hk (invoke_all event (l :: ls) args ;; ret true)).
    keeps_step; [apply invoke_all_undisturbed | keeps_step].
Qed.


Lemma news_app s s' l : log s' = log s ++ l -> news s s' = l.
Proof. intros H. unfold news. rewrite H. apply drop_app_length. Qed.

Lemma emitted_app l1 l2 : emitted (l1 ++ l2) = emitted l1 ++ emitted l2.
Proof.
  induction l1 as [| e l1 IH]; [reflexivity |].
  destruct e; simpl; rewrite ?IH; reflexivity.
Qed.

#[export] Instance no_emission_preorder : PreOrder no_emission.
Proof.
  split.
  - intros s. exists []. split; [now rewrite app_nil_r | reflexivity].
  - intros s1 s2 s3 (l1 & H1 & E1) (l2 & H2 & E2). exists (l1 ++ l2).
    split; [rewrite H2, H1; now rewrite app_assoc |].
    rewrite emitted_app, E1, E2. reflexivity.
Qed.

Lemma no_emission_same_log (f : t -> t) :
  (forall s, log (f s) = log s) -> keeps no_emission (modify f).
Proof.
  intros H s. exists []. split; [| reflexivity].
  unfold modify. cbn [snd]. rewrite H. now rewrite app_nil_r.
Qed.

(** Listeners are logged when they are called and emit nothing. *)
Lemma invoke_no_emission event l args : keeps no_emission (invoke event l args).
Proof.
  unfold invoke. destruct l as [id body | messageId timer promise | id].
  - keeps_step.
    + intros s. exists [Called id event]. split; reflexivity.
    + destruct (body args); keeps_step.
  - repeat keeps_step.
    + apply no_emission_same_log. reflexivity.
    + apply no_emission_same_log. reflexivity.
    + unfold resolve, settle. apply no_emission_same_log. intros s.
      destruct (promises s !! promise) as [[| v | e] |]; reflexivity.
  - repeat keeps_step. apply no_emission_same_log. reflexivity.
Qed.

Lemma invoke_all_no_emission event ls args : keeps no_emission (invoke_all event ls args).
Proof.
  induction ls as [| l ls IH]; simpl.
  - keeps_step.
  - keeps_step; [apply invoke_no_emission | exact IH].
Qed.

(** An emission shows in the log as the one event emitted. *)
Lemma emit_emitted event args s :
  exists l, log (emit event args s).2 = log s ++ Emitted event args :: l /\
            emitted l = [].
Proof.
  unfold emit, bind, get, record, modify. cbn [fst snd].
  set (s1 := set_log (log s ++ [Emitted event args]) s).
  assert (Hk : forall (m : M bool),
             keeps no_emission m ->
             exists l, log (m s1).2 = log s ++ Emitted event args :: l /\ emitted l = []).
  { intros m Hm. destruct (Hm s1) as (l & Hl & He).
    exists l. split; [| exact He]. rewrite Hl. unfold s1. cbn [log set_log].
    rewrite <- app_assoc. reflexivity. }
  destruct (listeners_of event s) as [| l ls].
  - apply Hk. repeat keeps_step.
  - apply (Hk (invoke_all event (l :: ls) args ;; ret true)).
    keeps_step; [apply invoke_all_no_emission | keeps_step].
Qed.

(** *** Every operation maintains the manager *)

Ltac keeps_auto :=
  repeat first
    [ keeps_step
    | solve [auto with keeps]
    | apply keeps_modify; solve [unrelated] ].

Lemma ws_send_maintained frame : keeps maintained (ws_send frame).
Proof. unfold ws_send. keeps_auto. Qed.

Lemma ws_close_maintained id : keeps maintained (ws_close id).
Proof. unfold ws_close. keeps_auto. Qed.

Lemma new_WebSocket_maintained fails : keeps maintained (new_WebSocket fails).
Proof. unfold new_WebSocket. keeps_auto. Qed.

#[export] Hint Resolve ws_send_maintained ws_close_maintained new_WebSocket_maintained : keeps.

Lemma _startHeartbeatTimeout_maintained : keeps maintained _startHeartbeatTimeout.
Proof. unfold _startHeartbeatTimeout. keeps_auto. Qed.

Lemma _startHeartbeat_maintained : keeps maintained _startHeartbeat.
Proof. unfold _startHeartbeat. keeps_auto. Qed.

Lemma _stopHeartbeat_maintained : keeps maintained _stopHeartbeat.
Proof. unfold _stopHeartbeat. keeps_auto. Qed.

#[export] Hint Resolve _startHeartbeatTimeout_maintained _startHeartbeat_maintained
  _stopHeartbeat_maintained : keeps.

Lemma _handleHeartbeat_maintained message : keeps maintained (_handleHeartbeat message).
Proof. unfold _handleHeartbeat. keeps_auto. Qed.

Lemma heartbeat_tick_maintained : keeps maintained heartbeat_tick.
Proof. unfold heartbeat_tick. keeps_auto. Qed.

Lemma _waitForConnection_maintained id o : keeps maintained (_waitForConnection id o).
Proof. unfold _waitForConnection. keeps_auto. Qed.

Lemma _waitForAuthentication_maintained a : keeps maintained (_waitForAuthentication a).
Proof. unfold _waitForAuthentication. keeps_auto. Qed.

#[export] Hint Resolve _handleHeartbeat_maintained heartbeat_tick_maintained
  _waitForConnection_maintained _waitForAuthentication_maintained : keeps.

Lemma _authenticateWebSocket_maintained script :
  keeps maintained (_authenticateWebSocket script).
Proof. unfold _authenticateWebSocket. keeps_auto. Qed.

#[export] Hint Resolve _authenticateWebSocket_maintained : keeps.

Lemma reset_counter_maintained : keeps maintained (modify (set_reconnectAttempts 0)).
Proof.
  intros s. split; simpl; auto.
  - unfold bounded. simpl. lia.
  - intros _ p o H _. exact H.
  - exists []. now rewrite app_nil_r.
Qed.

#[export] Hint Resolve reset_counter_maintained : keeps.

Lemma connect_maintained script : keeps maintained (connect script).
Proof. unfold connect, connect_try, connect_catch. keeps_auto. Qed.

Lemma disconnect_maintained : keeps maintained disconnect.
Proof. unfold disconnect. keeps_auto. Qed.

#[export] Hint Resolve connect_maintained disconnect_maintained : keeps.

(** Scheduling a reconnect maintains the manager when the counter is
    below its maximum, which is what both callers check. *)
Lemma _scheduleReconnect_maintained s :
  reconnectAttempts s < maxReconnectAttempts s ->
  maintained s (_scheduleReconnect s).2.
Proof.
  intros Hlt. split; simpl; auto.
  - unfold bounded. simpl. lia.
  - intros Hf p Hp. simpl in *. specialize (Hf p Hp). lia.
  - intros _ p o H _. exact H.
  - exists []. now rewrite app_nil_r.
Qed.

Lemma guarded_reconnect_maintained :
  keeps maintained
    (s <- get ;;
     if autoReconnect s && (reconnectAttempts s <? maxReconnectAttempts s)
     then _scheduleReconnect
     else ret tt).
Proof.
  apply keeps_bind_get. intros s.
  destruct (autoReconnect s); simpl; [| reflexivity].
  destruct (reconnectAttempts s <? maxReconnectAttempts s) eqn:E; [| reflexivity].
  apply _scheduleReconnect_maintained. lia.
Qed.

Lemma _handleWebSocketClose_maintained code reason :
  keeps maintained (_handleWebSocketClose code reason).
Proof.
  unfold _handleWebSocketClose.
  keeps_step; [apply keeps_modify; unrelated |].
  keeps_step; [auto with keeps |].
  apply guarded_reconnect_maintained.
Qed.

Lemma _handleWebSocketError_maintained error :
  keeps maintained (_handleWebSocketError error).
Proof.
  unfold _handleWebSocketError.
  keeps_step; [auto with keeps |].
  apply guarded_reconnect_maintained.
Qed.

Lemma reconnect_due_maintained script : keeps maintained (reconnect_due script).
Proof. unfold reconnect_due. keeps_auto. Qed.

Lemma heartbeat_expired_maintained script : keeps maintained (heartbeat_expired script).
Proof. unfold heartbeat_expired. keeps_auto. Qed.

#[export] Hint Resolve _handleWebSocketClose_maintained _handleWebSocketError_maintained
  reconnect_due_maintained heartbeat_expired_maintained : keeps.

Lemma _waitForAcknowledgment_maintained id : keeps maintained (_waitForAcknowledgment id).
Proof. unfold _waitForAcknowledgment. keeps_auto. Qed.

#[export] Hint Resolve _waitForAcknowledgment_maintained : keeps.

Lemma sendMessage_maintained messageData id : keeps maintained (sendMessage messageData id).
Proof. unfold sendMessage. keeps_auto. Qed.

Lemma pending_delete_maintained key : keeps maintained (pending_delete key).
Proof. unfold pending_delete. keeps_auto. Qed.

#[export] Hint Resolve sendMessage_maintained pending_delete_maintained : keeps.

Lemma _handleAcknowledgment_maintained message :
  keeps maintained (_handleAcknowledgment message).
Proof. unfold _handleAcknowledgment. keeps_auto. Qed.

Lemma _handleIncomingMessage_maintained message :
  keeps maintained (_handleIncomingMessage message).
Proof. unfold _handleIncomingMessage. keeps_auto. Qed.

Lemma _handleTypingIndicator_maintained message :
  keeps maintained (_handleTypingIndicator message).
Proof. unfold _handleTypingIndicator. keeps_auto. Qed.

Lemma _handleReadReceipt_maintained message :
  keeps maintained (_handleReadReceipt message).
Proof. unfold _handleReadReceipt. keeps_auto. Qed.

Lemma _handleOnlineStatus_maintained message :
  keeps maintained (_handleOnlineStatus message).
Proof. unfold _handleOnlineStatus. keeps_auto. Qed.

#[export] Hint Resolve _handleAcknowledgment_maintained _handleIncomingMessage_maintained
  _handleTypingIndicator_maintained _handleReadReceipt_maintained
  _handleOnlineStatus_maintained : keeps.

Lemma _handleWebSocketMessage_maintained data :
  keeps maintained (_handleWebSocketMessage data).
Proof. unfold _handleWebSocketMessage, JSON_parse. keeps_auto. Qed.

Lemma fire_maintained id script : keeps maintained (fire id script).
Proof. unfold fire, reject. keeps_auto. Qed.

#[export] Hint Resolve _handleWebSocketMessage_maintained fire_maintained : keeps.

Lemma step_maintained i : keeps maintained (step i).
Proof. destruct i; simpl; keeps_auto. Qed.

Lemma run_maintained inputs : forall s, maintained s (run inputs s).
Proof.
  induction inputs as [| i inputs IH]; intros s; simpl.
  - reflexivity.
  - etransitivity; [apply (step_maintained i s) | apply IH].
Qed.

(** Runs the monad operations at the head of a goal, leaving the
    setters folded. *)
Ltac exec :=
  cbv beta iota zeta delta
    [bind ret throw try_catch get modify record console threw];
  cbn [fst snd].

(** *** C2: acknowledgments and their timeout *)


(** An acknowledgment that arrives in time removes the record and is
    announced, but the awaited promise stays pending with its timer armed,
    and is rejected when the timer expires: [ackHandler] compares
    [message.message_id] of the stored record with the identifier, and the
    stored record carries the identifier as [id]. *)
Lemma acknowledgment_in_time_leaves_the_promise_pending :
  let acked := (_handleWebSocketMessage (acknowledgment_of "msg_1_abc") sent).2 in
  emitted (news sent acked) = ["messageAcknowledged"] /\
  pendingMessages acked !! "msg_1_abc" = None /\
  promises acked !! 2%nat = Some Pending /\
  timers acked !! 3%nat = Some (acknowledgment_timer 2) /\
  promises (fire 3 succeeds acked).2 !! 2%nat = Some (Rejected acknowledgment_timeout).
Proof. cbv zeta. repeat apply conj; vm_compute; reflexivity. Qed.

(** Sending on an open connection stores the record and hands out a
    pending promise with its own timer and listener. *)
Lemma sendMessage_registers messageData id s w :
  isConnected s = true -> ws s = Some w -> w ∈ live s ->
  (sendMessage messageData id s).1 = Val (nextHandle s) /\
  pendingMessages (sendMessage messageData id s).2
    = <[id := outbound messageData (now s) id]> (pendingMessages s) /\
  promises (sendMessage messageData id s).2 = <[nextHandle s := Pending]> (promises s) /\
  timers (sendMessage messageData id s).2
    = <[S (nextHandle s) := acknowledgment_timer (nextHandle s)]> (timers s).
Proof.
  intros Hc Hw Hl. unfold sendMessage. exec. rewrite Hc.
  change (negb true) with false. exec.
  unfold ws_send. exec.
  change (ws (set_pendingMessages _ s)) with (ws s). rewrite Hw.
  change (live (set_pendingMessages _ s)) with (live s).
  rewrite (bool_decide_eq_true_2 _ Hl). exec.
  unfold _waitForAcknowledgment, new_promise, setTimeout, new_handle, on. exec.
  repeat split.
Qed.

(** When the timer of a pending promise expires, the promise is rejected
    and nothing else but the timer changes. *)
Lemma acknowledgment_timeout_effect id script s p :
  timers s !! id = Some (acknowledgment_timer p) ->
  promises s !! p = Some Pending ->
  promises (fire id script s).2 = <[p := Rejected acknowledgment_timeout]> (promises s) /\
  timers (fire id script s).2 = delete id (timers s) /\
  pendingMessages (fire id script s).2 = pendingMessages s /\
  sendMessage_future (fire id script s).2 p
    = Rejected (NetworkError "Failed to send message: Message acknowledgment timeout").
Proof.
  intros Ht Hp. unfold fire. exec. rewrite Ht.
  cbn [repeating callback acknowledgment_timer].
  unfold clearTimeout, reject, settle. exec.
  change (promises (set_timers _ s)) with (promises s). rewrite Hp.
  unfold sendMessage_future.
  cbn [promises set_promises set_timers timers pendingMessages].
  rewrite lookup_insert_eq. repeat split.
Qed.

(** An acknowledgment for an identifier that has a record removes the
    record and emits ["messageAcknowledged"] with it. *)
Lemma acknowledgment_effect fields id m s :
  field "type" fields = VStr "acknowledgment" ->
  field "message_id" fields = VStr id ->
  pendingMessages s !! id = Some m -> truthy m = true ->
  pendingMessages (_handleWebSocketMessage (Parsed (VObj fields)) s).2
    = delete id (pendingMessages s) /\
  exists l, news s (_handleWebSocketMessage (Parsed (VObj fields)) s).2
            = Emitted "messageAcknowledged" [m] :: l.
Proof.
  intros Hf Hi Hm Ht. unfold _handleWebSocketMessage, JSON_parse, prop. exec.
  rewrite Hf. cbn [is_str String.eqb Ascii.eqb Bool.eqb].
  unfold _handleAcknowledgment, prop. exec. rewrite Hi.
  cbn [pending_get]. rewrite Hm, Ht. unfold pending_delete. exec.
  set (s1 := set_pendingMessages _ s).
  pose proof (emit_undisturbed "messageAcknowledged" [m] s1) as Hu.
  destruct (emit_logged "messageAcknowledged" [m] s1) as [l Hl].
  change (log s1) with (log s) in Hl.
  destruct (emit "messageAcknowledged" [m] s1) as [[b | e] s2];
    destruct Hu; cbn [fst snd] in *.
  - split; [rewrite same_pendingMessages0; reflexivity |].
    exists l. apply news_app. exact Hl.
  - split; [cbn [pendingMessages set_log]; rewrite same_pendingMessages0; reflexivity |].
    eexists. apply news_app. cbn [log set_log]. rewrite Hl.
    rewrite <- app_assoc. reflexivity.
Qed.

(** An acknowledgment for an identifier without a record does nothing. *)
Lemma acknowledgment_without_record fields id s :
  field "type" fields = VStr "acknowledgment" ->
  field "message_id" fields = VStr id ->
  pendingMessages s !! id = None ->
  _handleWebSocketMessage (Parsed (VObj fields)) s = (Val tt, s).
Proof.
  intros Hf Hi Hm. unfold _handleWebSocketMessage, JSON_parse, prop. exec.
  rewrite Hf. cbn [is_str String.eqb Ascii.eqb Bool.eqb].
  unfold _handleAcknowledgment, prop. exec. rewrite Hi.
  cbn [pending_get]. rewrite Hm. reflexivity.
Qed.

(** Every state that the event loop reaches from a new manager has its
    promise handles below the next unused handle. *)
Lemma reached_handles_fresh reconnect inputs :
  handles_fresh (run inputs (create reconnect)).
Proof.
  apply (kept_fresh _ _ (run_maintained inputs (create reconnect))).
  intros p [o Hp]. simpl in Hp. rewrite lookup_empty in Hp. discriminate.
Qed.

(** So a promise that is settled at some point of a run of the event loop
    has the same outcome at every later point. *)
Lemma settled_for_good reconnect before after p o :
  promises (run before (create reconnect)) !! p = Some o -> o <> Pending ->
  promises (run after (run before (create reconnect))) !! p = Some o.
Proof.
  intros Hp Ho.
  exact (kept_settled _ _ (run_maintained after _)
           (reached_handles_fresh reconnect before) p o Hp Ho).
Qed.



(** *** C6: the reconnect schedule *)


(** The delay handed to [setTimeout] by [_scheduleReconnect]. *)
Lemma _scheduleReconnect_effect s :
  reconnectAttempts (_scheduleReconnect s).2 = reconnectAttempts s + 1 /\
  timers (_scheduleReconnect s).2
    = <[nextHandle s := {| delay := reconnectDelay s * 2 ^ reconnectAttempts s;
                           repeating := false; callback := ReconnectDue |}]> (timers s).
Proof.
  unfold _scheduleReconnect, setTimeout, new_handle. exec. simpl.
  split; [reflexivity |].
  replace (reconnectAttempts s + 1 - 1) with (reconnectAttempts s) by lia.
  reflexivity.
Qed.

Lemma _handleWebSocketClose_schedules code reason s :
  autoReconnect s = true ->
  reconnectAttempts s < maxReconnectAttempts s ->
  (_handleWebSocketClose code reason s).1 = Val tt ->
  reconnectAttempts (_handleWebSocketClose code reason s).2 = reconnectAttempts s + 1 /\
  timers (_handleWebSocketClose code reason s).2 !! nextHandle s
    = Some {| delay := reconnectDelay s * 2 ^ reconnectAttempts s;
              repeating := false; callback := ReconnectDue |}.
Proof.
  intros Ha Hlt. unfold _handleWebSocketClose. exec.
  pose proof (emit_undisturbed "close" [code; reason] (set_isConnected false s)) as Hu.
  destruct (emit "close" [code; reason] (set_isConnected false s)) as [[b | e] s1];
    destruct Hu; simpl in *; [| discriminate].
  rewrite same_auto0, Ha, same_reconnectAttempts0, same_max0.
  replace (reconnectAttempts s <? maxReconnectAttempts s) with true by lia.
  simpl. intros _.
  rewrite same_reconnectAttempts0, same_nextHandle0, same_delay0.
  replace (reconnectAttempts s + 1 - 1) with (reconnectAttempts s) by lia.
  split; [reflexivity | apply lookup_insert_eq].
Qed.

Lemma _handleWebSocketClose_gives_up code reason s :
  autoReconnect s && (reconnectAttempts s <? maxReconnectAttempts s) = false ->
  reconnectAttempts (_handleWebSocketClose code reason s).2 = reconnectAttempts s /\
  timers (_handleWebSocketClose code reason s).2 ⊆ timers s.
Proof.
  intros Hg. unfold _handleWebSocketClose. exec.
  pose proof (emit_undisturbed "close" [code; reason] (set_isConnected false s)) as Hu.
  destruct (emit "close" [code; reason] (set_isConnected false s)) as [[b | e] s1];
    destruct Hu; simpl in *; [| auto].
  rewrite same_auto0, same_reconnectAttempts0, same_max0, Hg. simpl. auto.
Qed.

(** The reconnect counter of every state that the event loop reaches
    from a new manager is between 0 and the maximum. *)
Lemma reached_bounded reconnect inputs : bounded (run inputs (create reconnect)).
Proof.
  apply (kept_bounded _ _ (run_maintained inputs (create reconnect))).
  unfold bounded. simpl. lia.
Qed.

(** Whatever a close leads to, the one event it emits is ["close"]. *)
Lemma _handleWebSocketClose_emits code reason s :
  emitted (news s (_handleWebSocketClose code reason s).2) = ["close"].
Proof.
  unfold _handleWebSocketClose. exec.
  destruct (emit_emitted "close" [code; reason] (set_isConnected false s))
    as (l & Hl & He).
  change (log (set_isConnected false s)) with (log s) in Hl.
  destruct (emit "close" [code; reason] (set_isConnected false s)) as [[b | e] s1];
    cbn [fst snd] in *.
  - assert (Hs : log (_scheduleReconnect s1).2 = log s1) by reflexivity.
    destruct (autoReconnect s1 && (reconnectAttempts s1 <? maxReconnectAttempts s1));
      exec.
    + rewrite (news_app s _ _ (eq_trans Hs Hl)). simpl. now rewrite He.
    + rewrite (news_app s _ _ Hl). simpl. now rewrite He.
  - rewrite (news_app s _ _ Hl). simpl. now rewrite He.
Qed.



(** *** C7: the heartbeat *)


Lemma _stopHeartbeat_effect s :
  (_stopHeartbeat s).1 = Val tt /\
  ws (_stopHeartbeat s).2 = ws s /\
  isConnected (_stopHeartbeat s).2 = isConnected s /\
  isConnecting (_stopHeartbeat s).2 = isConnecting s /\
  log (_stopHeartbeat s).2 = log s.
Proof.
  unfold _stopHeartbeat, clearTimeout. exec.
  destruct (heartbeatInterval s); exec; simpl;
    destruct (heartbeatTimeout s); exec; simpl; auto.
Qed.

Lemma grows {A : Type} (m : M A) :
  keeps maintained m -> forall s, exists l, log (m s).2 = log s ++ l.
Proof. intros Hm s. exact (kept_log _ _ (Hm s)). Qed.

(** [disconnect()] on a connected handle closes the transport, marks the
    handle as not connected and emits ["disconnect"]. *)
Lemma disconnect_effect s w :
  isConnected s = true -> ws s = Some w ->
  isConnected (disconnect s).2 = false /\
  isConnecting (disconnect s).2 = isConnecting s /\
  exists l, log (disconnect s).2 = log s ++ Closing w :: Emitted "disconnect" [] :: l.
Proof.
  intros Hc Hw. unfold disconnect. exec. rewrite Hc.
  change (negb true) with false. exec.
  destruct (_stopHeartbeat_effect s) as (Hv & Hws & _ & Hi & Hl).
  destruct (_stopHeartbeat s) as [[u | e] s1]; simpl in Hv, Hws, Hi, Hl;
    [| discriminate].
  rewrite Hws, Hw. unfold ws_close, gone. exec.
  set (s2 := set_isConnected false _).
  assert (H2 : log s2 = log s ++ [Closing w]) by (unfold s2; simpl; now rewrite Hl).
  assert (Hc2 : isConnected s2 = false) by reflexivity.
  assert (Hi2 : isConnecting s2 = isConnecting s) by (unfold s2; simpl; exact Hi).
  clearbody s2.
  pose proof (emit_undisturbed "disconnect" [] s2) as Hu.
  destruct (emit_logged "disconnect" [] s2) as [l1 Hl1].
  destruct (emit "disconnect" [] s2) as [[b | e] s3]; destruct Hu; simpl in *.
  - set (payload := [VObj [("status", VStr "websocket_disconnected")]]).
    pose proof (emit_undisturbed "disconnection" payload s3) as Hu.
    destruct (emit "disconnection" payload s3) as [[b' | e] s4]; destruct Hu; simpl in *.
    + split; [congruence |]. split; [congruence |].
      destruct more_log1 as (l2 & Hl2 & _).
      exists (l1 ++ l2). rewrite Hl2, Hl1, H2.
      repeat (rewrite <- app_assoc; simpl). reflexivity.
    + split; [congruence |]. split; [congruence |].
      destruct more_log1 as (l2 & Hl2 & _). eexists.
      rewrite Hl2, Hl1, H2. repeat (rewrite <- app_assoc; simpl). reflexivity.
  - split; [congruence |]. split; [congruence |].
    eexists. rewrite Hl1, H2. repeat (rewrite <- app_assoc; simpl). reflexivity.
Qed.

(** A [connect()] that passes its guard announces itself. *)
Lemma connect_announces script s :
  isConnected s || isConnecting s = false ->
  exists l, log (connect script s).2 = log s ++ Emitted "connecting" [] :: l.
Proof.
  intros Hg. unfold connect. exec. rewrite Hg.
  unfold connect_try. unfold bind at 1 2. unfold modify at 1.
  destruct (emit_logged "connecting" [] (set_isConnecting true s)) as [l1 Hl1].
  change (log (set_isConnecting true s)) with (log s) in Hl1.
  destruct (emit "connecting" [] (set_isConnecting true s)) as [[b | e] s1];
    cbn [snd] in Hl1; cbv beta iota.
  - match goal with
    | |- context [(bind (new_WebSocket ?c) ?k) s1] =>
        assert (Hk : keeps maintained (bind (new_WebSocket c) k)) by keeps_auto;
        destruct (grows _ Hk s1) as [l2 Hl2];
        destruct ((bind (new_WebSocket c) k) s1) as [[u | e] s2]
    end; cbn [snd] in *; cbv beta iota.
    + exists (l1 ++ l2). rewrite Hl2, Hl1.
      repeat (rewrite <- app_assoc; simpl). reflexivity.
    + assert (Hc : keeps maintained (connect_catch e))
        by (unfold connect_catch; keeps_auto).
      destruct (grows _ Hc s2) as [l3 Hl3].
      exists (l1 ++ l2 ++ l3). rewrite Hl3, Hl2, Hl1.
      repeat (rewrite <- app_assoc; simpl). reflexivity.
  - assert (Hc : keeps maintained (connect_catch e))
      by (unfold connect_catch; keeps_auto).
    destruct (grows _ Hc s1) as [l3 Hl3].
    exists (l1 ++ l3). rewrite Hl3, Hl1.
    repeat (rewrite <- app_assoc; simpl). reflexivity.
Qed.

Lemma disconnect_returns s : (disconnect s).1 = Val tt.
Proof.
  unfold disconnect. exec. destruct (negb (isConnected s)); [reflexivity |].
  match goal with
  | |- context [match ?body with _ => _ end] => destruct body as [[u | e] s1]
  end; [destruct u |]; reflexivity.
Qed.

(** When the heartbeat timeout expires on a connected handle, the
    transport is closed, ["disconnect"] is emitted and a new [connect()]
    announces itself. *)
Lemma heartbeat_expiry_effect id script s w d :
  timers s !! id = Some {| delay := d; repeating := false; callback := HeartbeatExpired |} ->
  isConnected s = true -> isConnecting s = false -> ws s = Some w ->
  exists l1 l2,
    news s (fire id script s).2
      = Console "warn" "Heartbeat timeout, reconnecting..." :: Closing w
        :: Emitted "disconnect" [] :: l1 ++ Emitted "connecting" [] :: l2.
Proof.
  intros Ht Hc Hi Hw. unfold fire. exec. rewrite Ht. cbn [repeating callback].
  unfold clearTimeout at 1. exec. unfold heartbeat_expired. exec.
  set (s1 := set_log _ _).
  assert (H1 : log s1 = log s ++ [Console "warn" "Heartbeat timeout, reconnecting..."])
    by reflexivity.
  assert (Hc1 : isConnected s1 = true) by exact Hc.
  assert (Hi1 : isConnecting s1 = false) by exact Hi.
  assert (Hw1 : ws s1 = Some w) by exact Hw.
  clearbody s1.
  destruct (disconnect_effect s1 w Hc1 Hw1) as (Hcd & Hid & l1 & Hld).
  pose proof (disconnect_returns s1) as Hr.
  destruct (disconnect s1) as [[u | e] sd]; cbn [fst snd] in *; [| discriminate].
  assert (Hg : isConnected sd || isConnecting sd = false) by (rewrite Hcd, Hid, Hi1; reflexivity).
  destruct (connect_announces script sd Hg) as [l2 Hl2].
  destruct (connect script sd) as [[u' | e] s2]; cbn [fst snd] in *.
  - exists l1, l2. apply news_app. rewrite Hl2, Hld, H1.
    repeat (rewrite <- app_assoc; simpl). reflexivity.
  - exists l1, (l2 ++ [Console "error" (message e)]). apply news_app.
    simpl. rewrite Hl2, Hld, H1.
    repeat (rewrite <- app_assoc; simpl). reflexivity.
Qed.

Lemma heartbeat_tick_effect id script s w d :
  timers s !! id = Some {| delay := d; repeating := true; callback := HeartbeatTick |} ->
  isConnected s = true -> ws s = Some w -> w ∈ live s ->
  news s (fire id script s).2
    = [Sent w (VObj [("type", VStr "heartbeat"); ("timestamp", VNum (now s))])] /\
  heartbeatTimeout (fire id script s).2 = Some (nextHandle s) /\
  timers (fire id script s).2 = <[nextHandle s := heartbeat_timer]> (timers s).
Proof.
  intros Ht Hc Hw Hl. unfold fire. exec. rewrite Ht. cbn [repeating callback]. exec.
  unfold heartbeat_tick. exec. rewrite Hc. unfold ws_send. exec. rewrite Hw.
  rewrite (bool_decide_eq_true_2 _ Hl). exec.
  unfold _startHeartbeatTimeout, setTimeout, new_handle. exec.
  split; [apply news_app; reflexivity |]. split; reflexivity.
Qed.

Lemma heartbeat_frame_effect fields old s :
  field "type" fields = VStr "heartbeat" ->
  heartbeatTimeout s = Some old ->
  timers (_handleWebSocketMessage (Parsed (VObj fields)) s).2
    = <[nextHandle s := heartbeat_timer]> (delete old (timers s)) /\
  heartbeatTimeout (_handleWebSocketMessage (Parsed (VObj fields)) s).2
    = Some (nextHandle s).
Proof.
  intros Hf Ho. unfold _handleWebSocketMessage, JSON_parse, prop. exec.
  rewrite Hf. cbn [is_str String.eqb Ascii.eqb Bool.eqb].
  unfold _handleHeartbeat. exec. rewrite Ho.
  unfold clearTimeout, _startHeartbeatTimeout, setTimeout, new_handle. exec.
  split; reflexivity.
Qed.



(** *** C8: frames that cannot be dispatched, handlers that throw *)


Lemma _handleWebSocketMessage_returns data s :
  (_handleWebSocketMessage data s).1 = Val tt.
Proof.
  unfold _handleWebSocketMessage. exec.
  match goal with
  | |- context [match ?body with _ => _ end] => destruct body as [[u | e] s1]
  end; [destruct u |]; reflexivity.
Qed.

Lemma set_log_set_log l1 l2 s : set_log l2 (set_log l1 s) = set_log l2 s.
Proof. reflexivity. Qed.

(** The listeners before the first one that throws are called, it is
    called, and the call of [invoke_all] ends there. *)
Lemma invoke_all_stops event args before id body e after :
  Forall (returns_on args) before ->
  body args = Some e ->
  forall s,
    invoke_all event (map subscriber before ++ Subscriber id body :: after) args s
    = (Exn e,
       set_log (log s ++ map (call_of event) before ++ [Called id event]) s).
Proof.
  intros Hb He. induction Hb as [| p before Hp _ IH]; intros s.
  - cbn [map app invoke_all]. unfold invoke. exec. rewrite He. exec. reflexivity.
  - change (map subscriber (p :: before) ++ Subscriber id body :: after)
      with (subscriber p :: (map subscriber before ++ Subscriber id body :: after)).
    cbn [invoke_all]. unfold bind at 1. unfold subscriber at 1. unfold invoke. exec.
    rewrite Hp. exec. rewrite IH. rewrite set_log_set_log.
    cbn [log set_log map app]. rewrite <- app_assoc. reflexivity.
Qed.



(** *** C9: the connect guard *)




(** *** C10: a failed connect *)

Lemma connect_catch_effect error s :
  threw (connect_catch error s) = true /\
  isConnecting (connect_catch error s).2 = false /\
  isConnected (connect_catch error s).2 = isConnected s.
Proof.
  unfold connect_catch. exec.
  pose proof (emit_undisturbed "error" [VError error] (set_isConnecting false s)) as Hu.
  destruct (emit "error" [VError error] (set_isConnecting false s)) as [[b | e] s1];
    destruct Hu; simpl in *; auto.
Qed.

Lemma connect_try_fails_at_a_stage script s :
  fails_at_a_stage script = true ->
  exists e s1, connect_try script s = (Exn e, s1) /\ isConnected s1 = isConnected s.
Proof.
  intros Hf. unfold connect_try. exec.
  pose proof (emit_undisturbed "connecting" [] (set_isConnecting true s)) as Hu.
  destruct (emit "connecting" [] (set_isConnecting true s)) as [[b | e] s1];
    destruct Hu; simpl in *; [| eauto].
  unfold fails_at_a_stage in Hf.
  unfold new_WebSocket.
  destruct (constructing script) as [e |]; [unfold throw; eauto |].
  unfold new_handle, bind, get, modify, record, ret. simpl.
  unfold _waitForConnection.
  destruct (opening script) as [| e |];
    [| unfold gone, bind, modify, throw; simpl; eauto | unfold throw; eauto].
  unfold ret, _authenticateWebSocket, bind.
  destruct (prop (connectionInfo script) "token" _) as [[token | e] s2] eqn:Hp.
  2:{ destruct (connectionInfo script); inversion Hp; subst; simpl; eauto. }
  assert (s2 = set_ws (Some (nextHandle s1))
                 (set_log (log s1 ++ [Created (nextHandle s1)])
                    (set_live (live s1 ++ [nextHandle s1])
                       (set_nextHandle (S (nextHandle s1)) s1)))) as ->.
  { destruct (connectionInfo script); inversion Hp; reflexivity. }
  unfold ws_send, bind, get, record, modify, throw. simpl.
  destruct (bool_decide _); simpl; [| eauto].
  unfold _waitForAuthentication.
  destruct (authenticating script) as [| reason |]; [discriminate | |].
  - unfold throw. eauto.
  - unfold bind, new_handle, get, modify, on, ret, throw. simpl. eauto.
Qed.

Lemma invoke_all_returning event args ls :
  Forall (returning args) ls ->
  forall s, (invoke_all event ls args s).1 = Val tt.
Proof.
  induction 1 as [| l ls (id & body & -> & Hb) _ IH]; intros s; [reflexivity |].
  simpl. unfold bind at 1. unfold invoke, bind, record, modify. simpl.
  rewrite Hb. unfold ret. apply IH.
Qed.

Lemma emit_returning event args s :
  listeners_of event s <> [] ->
  Forall (returning args) (listeners_of event s) ->
  (emit event args s).1 = Val true.
Proof.
  intros Hne Hall. unfold emit. exec.
  destruct (listeners_of event s) as [| l ls]; [congruence |].
  exec.
  pose proof (invoke_all_returning event args (l :: ls) Hall
                (set_log (log s ++ [Emitted event args]) s)) as Hv.
  destruct (invoke_all event (l :: ls) args _) as [[u | e] s1];
    simpl in Hv; [reflexivity | discriminate].
Qed.




End WebSocketManagerFacts.

(** * Further properties of the request executor *)

Module RequestExecutorLaws.
Import NetworkManager NetworkManagerFacts.
Local Open Scope Z_scope.

(** ** One attempt *)

(** Whether [followRedirect] is set or not, [_handleResponse] returns the
    statuses below 400 and throws for the others. *)
Lemma _handleResponse_by_status status options :
  _handleResponse status options
  = if 400 <=? status then Exn (HttpError status) else Val status.
Proof.
  unfold _handleResponse.
  destruct (followRedirect options) as [[|] |]; simpl; try reflexivity.
  destruct (300 <=? status) eqn:E1, (status <? 400) eqn:E2; simpl; try reflexivity.
  replace (400 <=? status) with false by lia. reflexivity.
Qed.

Lemma is_retry_code_network_codes c :
  is_retry_code c = bool_decide (c ∈ Errors.network_codes).
Proof.
  unfold is_retry_code, Errors.network_codes.
  repeat case_bool_decide; simpl; try reflexivity;
    repeat match goal with
           | H : _ ∈ _ :: _ |- _ => apply elem_of_cons in H as [H | H]
           | H : _ ∈ [] |- _ => inversion H
           | H : _ ∉ _ |- _ => exfalso; apply H; clear H
           end; try congruence; subst;
    repeat first [ apply list_elem_of_here | apply list_elem_of_further ].
Qed.

(** One iteration of the loop, by what the network does with the
    attempt. *)
Lemma attempt_loop_step env options fuel a lastError st now :
  a <= maxRetries st ->
  let now1 := now + latency (env a) in
  let retry_or_fall error :=
    if a <? maxRetries st then
      let rest := attempt_loop env options fuel (a + 1) (Some error) st
                    (_wait (retryDelay st * a) now1) in
      {| exit := exit rest; after := after rest; clock := clock rest;
         events := Dispatch a now :: Warn a :: BackoffWait (retryDelay st * a)
                   :: events rest |}
    else {| exit := Fell (Some error); after := st; clock := now1;
            events := [Dispatch a now] |} in
  attempt_loop env options (S fuel) a lastError st now
  = match wire (env a) with
    | Answered s =>
        if s <? 400 then
          {| exit := Returned s; after := set_lastRequestTime now1 st; clock := now1;
             events := [Dispatch a now] |}
        else if s <? 500 then
          {| exit := Fell (Some (HttpError s)); after := set_lastRequestTime now1 st;
             clock := now1; events := [Dispatch a now] |}
        else retry_or_fall (AxiosError (Some "ERR_BAD_RESPONSE"%string) (Some s))
    | Failed c =>
        if is_retry_code c then retry_or_fall (AxiosError (Some c) None)
        else {| exit := Fell (Some (AxiosError (Some c) None)); after := st;
                clock := now1; events := [Dispatch a now] |}
    end.
Proof.
  intros Ha now1 retry_or_fall. simpl attempt_loop.
  replace (a <=? maxRetries st) with true by lia.
  unfold try_block, axios_request, validateStatus. fold now1.
  destruct (wire (env a)) as [s | c].
  - destruct (s <? 500) eqn:E5.
    + rewrite _handleResponse_by_status.
      destruct (s <? 400) eqn:E4.
      * replace (400 <=? s) with false by lia. reflexivity.
      * replace (400 <=? s) with true by lia.
        rewrite _shouldRetry_HttpError. reflexivity.
    + replace (s <? 400) with false by lia.
      unfold retry_or_fall, _shouldRetry; simpl.
      destruct (a <? maxRetries st) eqn:El.
      * replace (maxRetries st <=? a) with false by lia.
        replace (500 <=? s) with true by lia. reflexivity.
      * replace (maxRetries st <=? a) with true by lia. reflexivity.
  - unfold retry_or_fall, _shouldRetry; simpl.
    destruct (a <? maxRetries st) eqn:El.
    + replace (maxRetries st <=? a) with false by lia.
      destruct (is_retry_code c); reflexivity.
    + replace (maxRetries st <=? a) with true by lia.
      destruct (is_retry_code c); reflexivity.
Qed.

Lemma attempt_loop_done env options fuel a lastError st now :
  maxRetries st < a ->
  attempt_loop env options (S fuel) a lastError st now
  = {| exit := Fell lastError; after := st; clock := now; events := [] |}.
Proof. intros Ha. simpl. replace (a <=? maxRetries st) with false by lia. reflexivity. Qed.

(** ** When a request resolves *)

Lemma attempt_loop_returns env options fuel :
  forall a lastError st now s,
    enough_fuel st a fuel ->
    exit (attempt_loop env options fuel a lastError st now) = Returned s <->
    exists k, a <= k <= maxRetries st /\ wire (env k) = Answered s /\ s < 400 /\
              forall j, a <= j < k -> transient (wire (env j)) = true.
Proof.
  unfold enough_fuel.
  induction fuel as [| fuel IH]; intros a lastError st now s Hf; [lia |].
  destruct (Z_lt_le_dec (maxRetries st) a) as [Hgt | Hle].
  { rewrite attempt_loop_done by lia. simpl. split; [discriminate |].
    intros (k & Hk & _). lia. }
  rewrite attempt_loop_step by lia. cbv zeta.
  assert (Hretry : forall error,
    transient (wire (env a)) = true ->
    exit (if a <? maxRetries st
          then {| exit := exit (attempt_loop env options fuel (a + 1) (Some error) st
                                  (_wait (retryDelay st * a) (now + latency (env a))));
                  after := after (attempt_loop env options fuel (a + 1) (Some error) st
                                    (_wait (retryDelay st * a) (now + latency (env a))));
                  clock := clock (attempt_loop env options fuel (a + 1) (Some error) st
                                    (_wait (retryDelay st * a) (now + latency (env a))));
                  events := Dispatch a now :: Warn a :: BackoffWait (retryDelay st * a)
                            :: events (attempt_loop env options fuel (a + 1) (Some error) st
                                         (_wait (retryDelay st * a) (now + latency (env a)))) |}
          else {| exit := Fell (Some error); after := st; clock := now + latency (env a);
                  events := [Dispatch a now] |}) = Returned s <->
    exists k, a <= k <= maxRetries st /\ wire (env k) = Answered s /\ s < 400 /\
              forall j, a <= j < k -> transient (wire (env j)) = true).
  { intros error Ht. destruct (a <? maxRetries st) eqn:El; simpl.
    - rewrite IH by lia. split.
      + intros (k & Hk & Hw & Hs & Hall). exists k.
        split; [lia |]. split; [exact Hw |]. split; [exact Hs |].
        intros j Hj. destruct (Z.eq_dec j a) as [-> | Hne]; [exact Ht | apply Hall; lia].
      + intros (k & Hk & Hw & Hs & Hall).
        assert (k <> a).
        { intros ->. rewrite Hw in Ht. simpl in Ht. lia. }
        exists k. split; [lia |]. split; [exact Hw |]. split; [exact Hs |].
        intros j Hj. apply Hall. lia.
    - split; [discriminate |]. intros (k & Hk & Hw & Hs & Hall).
      assert (k = a) as -> by lia. rewrite Hw in Ht. simpl in Ht. lia. }
  destruct (wire (env a)) as [s0 | c] eqn:Hw.
  - destruct (s0 <? 400) eqn:E4; [| destruct (s0 <? 500) eqn:E5].
    + simpl. split.
      * intros [= <-]. exists a.
        split; [lia |]. split; [exact Hw |]. split; [lia |]. intros j Hj. lia.
      * intros (k & Hk & Hwk & Hs & Hall).
        destruct (Z.eq_dec k a) as [-> | Hne]; [congruence |].
        specialize (Hall a ltac:(lia)). rewrite Hw in Hall. simpl in Hall. lia.
    + simpl. split; [discriminate |].
      intros (k & Hk & Hwk & Hs & Hall).
      destruct (Z.eq_dec k a) as [-> | Hne]; [rewrite Hw in Hwk; inversion Hwk; lia |].
      specialize (Hall a ltac:(lia)). rewrite Hw in Hall. simpl in Hall. lia.
    + apply Hretry. simpl. lia.
  - destruct (is_retry_code c) eqn:Ec.
    + apply Hretry. exact Ec.
    + simpl. split; [discriminate |].
      intros (k & Hk & Hwk & Hs & Hall).
      destruct (Z.eq_dec k a) as [-> | Hne]; [congruence |].
      specialize (Hall a ltac:(lia)). rewrite Hw in Hall. simpl in Hall. congruence.
Qed.

(** X1. A request resolves with status [s] exactly when some attempt
    [k], not beyond [maxRetries], is answered with [s], [s] is below 400,
    and every attempt before [k] failed in a way that is retried: with a
    status of 500 or more, or with one of the four transport codes. *)
Theorem request_resolves_iff env m u options st now s :
  outcome (_makeRequest env m u options st now) = Resolved s <->
  exists k, 1 <= k <= maxRetries st /\ wire (env k) = Answered s /\ s < 400 /\
            forall j, 1 <= j < k -> transient (wire (env j)) = true.
Proof.
  unfold _makeRequest.
  set (st0 := set_requestCount (requestCount st + 1) st).
  destruct (_applyRateLimit st0 now) as [now0 limited]. unfold outcome.
  pose proof (attempt_loop_returns env options (S (Z.to_nat (maxRetries st0))) 1 None
                st0 now0 s) as H.
  change (maxRetries st0) with (maxRetries st) in *.
  rewrite <- H by (unfold enough_fuel; simpl; lia).
  destruct (exit _) as [s' | [e |] |]; split; intros E; congruence.
Qed.

(** ** How many attempts a request makes *)

Lemma attempt_loop_dispatched env options fuel :
  forall a lastError st now,
    enough_fuel st a fuel ->
    exists n, 0 <= n <= Z.max 0 (maxRetries st - a + 1) /\
              dispatched (events (attempt_loop env options fuel a lastError st now))
              = seqZ a n.
Proof.
  unfold enough_fuel.
  induction fuel as [| fuel IH]; intros a lastError st now Hf; [lia |].
  destruct (Z_lt_le_dec (maxRetries st) a) as [Hgt | Hle].
  { rewrite attempt_loop_done by lia. exists 0. split; [lia | reflexivity]. }
  rewrite attempt_loop_step by lia. cbv zeta.
  assert (Hone : exists n, 0 <= n <= Z.max 0 (maxRetries st - a + 1) /\
                           [a] = seqZ a n).
  { exists 1. split; [lia | reflexivity]. }
  assert (Hretry : forall error,
    exists n, 0 <= n <= Z.max 0 (maxRetries st - a + 1) /\
      dispatched (events
        (if a <? maxRetries st
         then {| exit := exit (attempt_loop env options fuel (a + 1) (Some error) st
                                 (_wait (retryDelay st * a) (now + latency (env a))));
                 after := after (attempt_loop env options fuel (a + 1) (Some error) st
                                   (_wait (retryDelay st * a) (now + latency (env a))));
                 clock := clock (attempt_loop env options fuel (a + 1) (Some error) st
                                   (_wait (retryDelay st * a) (now + latency (env a))));
                 events := Dispatch a now :: Warn a :: BackoffWait (retryDelay st * a)
                           :: events (attempt_loop env options fuel (a + 1) (Some error) st
                                        (_wait (retryDelay st * a) (now + latency (env a)))) |}
         else {| exit := Fell (Some error); after := st; clock := now + latency (env a);
                 events := [Dispatch a now] |})) = seqZ a n).
  { intros error. destruct (a <? maxRetries st) eqn:El; [| exact Hone].
    destruct (IH (a + 1) (Some error) st
                (_wait (retryDelay st * a) (now + latency (env a)))) as (n & Hn & Hd);
      [lia |].
    exists (n + 1). split; [lia |]. simpl. rewrite Hd.
    rewrite (seqZ_cons a (n + 1)) by lia.
    replace (Z.succ a) with (a + 1) by lia.
    replace (Z.pred (n + 1)) with n by lia. reflexivity. }
  destruct (wire (env a)) as [s0 | c].
  - destruct (s0 <? 400); [exact Hone |]. destruct (s0 <? 500); [exact Hone | apply Hretry].
  - destruct (is_retry_code c); [apply Hretry | exact Hone].
Qed.

Lemma attempt_loop_fell_none env options fuel :
  forall a lastError st now,
    enough_fuel st a fuel ->
    exit (attempt_loop env options fuel a lastError st now) = Fell None <->
    lastError = None /\ maxRetries st < a.
Proof.
  unfold enough_fuel.
  induction fuel as [| fuel IH]; intros a lastError st now Hf; [lia |].
  destruct (Z_lt_le_dec (maxRetries st) a) as [Hgt | Hle].
  { rewrite attempt_loop_done by lia. simpl. split.
    - intros [= ->]. auto.
    - intros [-> _]. reflexivity. }
  rewrite attempt_loop_step by lia. cbv zeta.
  assert (Hno : forall (P : Prop), (P <-> lastError = None /\ maxRetries st < a) <-> ~ P).
  { intros P. split; [intros H HP; apply H in HP; lia | intros H; split; [tauto | lia]]. }
  apply Hno.
  destruct (wire (env a)) as [s0 | c];
    repeat match goal with
           | |- context [if ?c then _ else _] => destruct c eqn:?
           end; simpl; try discriminate;
    rewrite IH by lia; intros [[=] _].
Qed.

Lemma attempt_loop_first_dispatch env options fuel a lastError st now :
  a <= maxRetries st ->
  exists rest, events (attempt_loop env options (S fuel) a lastError st now)
               = Dispatch a now :: rest.
Proof.
  intros Ha. rewrite attempt_loop_step by lia. cbv zeta.
  destruct (wire (env a)) as [s0 | c];
    repeat match goal with
           | |- context [if ?c then _ else _] => destruct c eqn:?
           end; simpl; eauto.
Qed.

(** X2. The attempts of a request are numbered 1, 2, ... without a gap
    and there are never more than [maxRetries] of them. With [maxRetries]
    below 1 no attempt is made at all, and that is the one case in which
    the request is rejected with the [TypeError] of reading [response] from
    the [null] that [lastError] still holds. *)
Theorem attempts_are_numbered_up_to_maxRetries env m u options st now :
  let run := _makeRequest env m u options st now in
  (exists n, 0 <= n <= Z.max 0 (maxRetries st) /\
             dispatched (observed run) = seqZ 1 n) /\
  (dispatched (observed run) = [] <-> maxRetries st < 1) /\
  (outcome run = RejectedTypeError <-> maxRetries st < 1).
Proof.
  unfold _makeRequest.
  set (st0 := set_requestCount (requestCount st + 1) st).
  pose proof (_applyRateLimit_events st0 now) as He.
  destruct (_applyRateLimit st0 now) as [now0 limited]. cbv zeta.
  unfold observed, outcome. simpl in He.
  assert (Hd : forall evs, dispatched (limited ++ evs) = dispatched evs)
    by (intros evs; destruct He as [-> | [ms ->]]; reflexivity).
  rewrite Hd.
  change (maxRetries st0) with (maxRetries st).
  split; [| split].
  - destruct (attempt_loop_dispatched env options (S (Z.to_nat (maxRetries st))) 1 None
                st0 now0) as (n & Hn & Hs); [unfold enough_fuel; simpl; lia |].
    exists n. split; [simpl in Hn; lia | exact Hs].
  - destruct (Z_lt_le_dec (maxRetries st) 1) as [Hlt | Hge].
    + rewrite attempt_loop_done by (simpl; lia). simpl. tauto.
    + destruct (attempt_loop_first_dispatch env options (Z.to_nat (maxRetries st)) 1 None
                  st0 now0) as [rest ->]; [simpl; lia |].
      simpl. split; [discriminate | lia].
  - pose proof (attempt_loop_fell_none env options (S (Z.to_nat (maxRetries st))) 1 None
                  st0 now0) as H.
    change (maxRetries st0) with (maxRetries st) in H.
    specialize (H ltac:(unfold enough_fuel; simpl; lia)).
    revert H. destruct (exit _) as [s' | [e |] |]; intros H.
    + split; [discriminate |]. intros Hlt.
      assert (E : Returned s' = Fell None) by (apply H; auto). discriminate.
    + split; [discriminate |]. intros Hlt.
      assert (E : Fell (Some e) = Fell None) by (apply H; auto). discriminate.
    + split; [intros _; apply H; reflexivity | reflexivity].
    + split; [discriminate |]. intros Hlt.
      assert (E : OutOfFuel = Fell None) by (apply H; auto). discriminate.
Qed.

(** ** What a rejection carries *)

(** The errors that an attempt can leave in [lastError]: an answer of 500
    or more (rejected by axios, with its [response]), a failure of the
    transport (no [response]), or the error that [_handleResponse] threw
    for a 4xx answer (no [response] either). *)
Lemma attempt_loop_fell env options fuel :
  forall a lastError st now error,
    exit (attempt_loop env options fuel a lastError st now) = Fell (Some error) ->
    lastError = Some error \/
    match error with
    | HttpError s => 400 <= s < 500
    | AxiosError _ (Some s) => 500 <= s
    | AxiosError _ None => True
    end.
Proof.
  induction fuel as [| fuel IH]; intros a lastError st now error; [discriminate |].
  destruct (Z_lt_le_dec (maxRetries st) a) as [Hgt | Hle].
  { rewrite attempt_loop_done by lia. simpl. intros [= ->]. auto. }
  rewrite attempt_loop_step by lia. cbv zeta.
  destruct (wire (env a)) as [s0 | c];
    repeat match goal with
           | |- context [if ?c then _ else _] => destruct c eqn:?
           end; simpl; try discriminate; try (intros [= <-]; right; lia || exact I);
    intros H; apply IH in H as [[= <-] | H]; right; lia || exact I || exact H.
Qed.

(** X3. The error that a request is rejected with carries a status only
    when the last answer was a 500 or more: [getStatusCode()] never gives a
    4xx status. When the request failed on a 4xx answer, the rejection has
    no status of its own and does not present itself as retryable, whatever
    the status was, 429 included; the status is found on
    [details.originalError] only. *)
Theorem rejection_carries_no_client_status env m u options st now e :
  outcome (_makeRequest env m u options st now) = Rejected e ->
  (forall s, getStatusCode e = Some s -> 500 <= s) /\
  (forall s, originalError e = HttpError s ->
     400 <= s < 500 /\ getStatusCode e = None /\ isRetryable e = false).
Proof.
  unfold _makeRequest.
  set (st0 := set_requestCount (requestCount st + 1) st).
  destruct (_applyRateLimit st0 now) as [now0 limited]. unfold outcome.
  pose proof (attempt_loop_fell env options (S (Z.to_nat (maxRetries st0))) 1 None
                st0 now0) as H.
  destruct (exit _) as [s' | [error |] |]; try discriminate.
  intros [= <-]. destruct (H error eq_refl) as [[=] | Hshape].
  unfold getStatusCode, isRetryable, _createNetworkError. simpl.
  split.
  - intros s. destruct error as [c [s0 |] | s0]; simpl; try discriminate.
    destruct (s0 =? 0); [discriminate |]. intros [= <-]. exact Hshape.
  - intros s ->. simpl. split; [exact Hshape | split; reflexivity].
Qed.

Lemma rejection_carries_no_client_status_witness :
  exists e, outcome (_makeRequest (always 429) "GET" "/me" no_options create 10000)
            = Rejected e /\
            originalError e = HttpError 429 /\
            getStatusCode e = None /\ isRetryable e = false.
Proof.
  exists (_createNetworkError (HttpError 429) "/me" "GET").
  assert (H : outcome (_makeRequest (always 429) "GET" "/me" no_options create 10000)
              = Rejected (_createNetworkError (HttpError 429) "/me" "GET"))
    by reflexivity.
  split; [exact H |]. split; [reflexivity |].
  exact (proj2 (proj2 (rejection_carries_no_client_status _ _ _ _ _ _ _ H) 429 eq_refl)).
Defined.

(** X4. Before the last attempt, the retry decision of the executor and
    the [isRetryable()] of the error that the same failure would be
    rejected with are one and the same predicate: both say yes for a
    response of 500 or more, for a response of 429, and for the four
    transport codes, and no otherwise. *)
Theorem isRetryable_agrees_with_shouldRetry st error attempt u m :
  attempt < maxRetries st ->
  _shouldRetry st error attempt = isRetryable (_createNetworkError error u m).
Proof.
  intros Ha. unfold _shouldRetry, isRetryable, Errors.NetworkError_isRetryable,
    details_of, _createNetworkError. simpl.
  replace (maxRetries st <=? attempt) with false by lia.
  destruct error as [[c |] [s |] | s]; simpl;
    rewrite ?is_retry_code_network_codes;
    repeat match goal with
           | |- context [if ?c then _ else _] => destruct c eqn:?
           end; simpl in *; try reflexivity; try congruence; try lia.
Qed.

Lemma isRetryable_agrees_with_shouldRetry_witness :
  1 < maxRetries create /\
  _shouldRetry create (AxiosError (Some "ETIMEDOUT"%string) None) 1 = true /\
  isRetryable (_createNetworkError (AxiosError (Some "ETIMEDOUT"%string) None) "/me" "GET")
  = true.
Proof.
  assert (H : 1 < maxRetries create) by (simpl; unfold MAX_RETRIES; lia).
  split; [exact H |]. split; [reflexivity |].
  rewrite <- (isRetryable_agrees_with_shouldRetry create _ 1 "/me" "GET" H).
  reflexivity.
Defined.

(** ** How long a request takes *)

Lemma _applyRateLimit_released st now :
  (_applyRateLimit st now).1 = released st now.
Proof. reflexivity. Qed.

(** With a spacing that the timer honours, on a clock that has not run
    backwards, a request is released [rateLimitDelay] after
    [lastRequestTime], or at once when that has passed. *)
Lemma released_on_time st now :
  rateLimitDelay st <= Timers.TIMEOUT_MAX -> lastRequestTime st <= now ->
  released st now = Z.max now (lastRequestTime st + rateLimitDelay st).
Proof.
  intros Hmax Hnow. unfold released, _applyRateLimit, _wait.
  destruct (now - lastRequestTime st <? rateLimitDelay st) eqn:E; simpl; [| lia].
  rewrite timer_delay_honoured by lia. lia.
Qed.

Lemma attempt_loop_transient_clock env options fuel :
  forall a lastError st now,
    enough_fuel st a fuel ->
    1 <= a <= maxRetries st ->
    (forall k, a <= k <= maxRetries st -> transient (wire (env k)) = true) ->
    clock (attempt_loop env options fuel a lastError st now)
    = now
      + foldr Z.add 0 (map (fun k => latency (env k)) (seqZ a (maxRetries st - a + 1)))
      + foldr Z.add 0 (map (fun k => Timers.timer_delay (retryDelay st * k))
                         (seqZ a (maxRetries st - a))).
Proof.
  unfold enough_fuel.
  induction fuel as [| fuel IH]; intros a lastError st now Hf Ha Hall; [lia |].
  rewrite attempt_loop_step by lia. cbv zeta.
  assert (Hretry : forall error,
    clock (if a <? maxRetries st
           then {| exit := exit (attempt_loop env options fuel (a + 1) (Some error) st
                                   (_wait (retryDelay st * a) (now + latency (env a))));
                   after := after (attempt_loop env options fuel (a + 1) (Some error) st
                                     (_wait (retryDelay st * a) (now + latency (env a))));
                   clock := clock (attempt_loop env options fuel (a + 1) (Some error) st
                                     (_wait (retryDelay st * a) (now + latency (env a))));
                   events := Dispatch a now :: Warn a :: BackoffWait (retryDelay st * a)
                             :: events (attempt_loop env options fuel (a + 1) (Some error) st
                                          (_wait (retryDelay st * a) (now + latency (env a)))) |}
           else {| exit := Fell (Some error); after := st; clock := now + latency (env a);
                   events := [Dispatch a now] |})
    = now
      + foldr Z.add 0 (map (fun k => latency (env k)) (seqZ a (maxRetries st - a + 1)))
      + foldr Z.add 0 (map (fun k => Timers.timer_delay (retryDelay st * k))
                         (seqZ a (maxRetries st - a)))).
  { intros error. destruct (a <? maxRetries st) eqn:El; simpl.
    - rewrite IH; [| lia | lia | intros k Hk; apply Hall; lia].
      rewrite (seqZ_cons a (maxRetries st - a + 1)) by lia.
      rewrite (seqZ_cons a (maxRetries st - a)) by lia.
      replace (Z.succ a) with (a + 1) by lia.
      replace (Z.pred (maxRetries st - a + 1)) with (maxRetries st - (a + 1) + 1) by lia.
      replace (Z.pred (maxRetries st - a)) with (maxRetries st - (a + 1)) by lia.
      simpl. unfold _wait. lia.
    - assert (a = maxRetries st) as Heq by lia.
      replace (maxRetries st - a + 1) with 1 by lia.
      replace (maxRetries st - a) with 0 by lia.
      rewrite (seqZ_cons a 1) by lia. simpl. lia. }
  specialize (Hall a ltac:(lia)).
  destruct (wire (env a)) as [s0 | c]; simpl in Hall.
  - replace (s0 <? 400) with false by lia. replace (s0 <? 500) with false by lia.
    apply Hretry.
  - rewrite Hall. apply Hretry.
Qed.

Lemma foldr_add_acc (l : list Z) (acc : Z) :
  foldr Z.add acc l = foldr Z.add 0 l + acc.
Proof. revert acc. induction l as [| x l IH]; intros acc; simpl; [lia |]. rewrite IH. lia. Qed.

(** The sum of the timers of [len] backoff waits, when each of them is
    governed by [f]. *)
Lemma backoff_sum (f : Z -> Z) d len :
  0 <= len ->
  (forall k, 1 <= k <= len -> Timers.timer_delay (d * k) = f k) ->
  foldr Z.add 0 (map (fun k => Timers.timer_delay (d * k)) (seqZ 1 len))
  = foldr Z.add 0 (map f (seqZ 1 len)).
Proof.
  intros Hlen Hf. f_equal. apply map_ext_in. intros k Hk.
  apply list_elem_of_In, elem_of_seqZ in Hk. apply Hf. lia.
Qed.

(** While every wait is one that the timer honours, the waits add up to
    [d * n * (n - 1) / 2]. *)
Lemma total_backoff_closed_form d n :
  1 <= n -> 1 <= d -> d * (n - 1) <= Timers.TIMEOUT_MAX ->
  2 * total_backoff d n = d * (n * (n - 1)).
Proof.
  intros Hn Hd Hmax. unfold total_backoff.
  rewrite (backoff_sum (fun k => d * k)); [| lia |].
  2: { intros k Hk. apply timer_delay_honoured. unfold Timers.TIMEOUT_MAX in *. nia. }
  assert (H : forall len, 0 <= len ->
             2 * foldr Z.add 0 (map (fun k => d * k) (seqZ 1 len)) = d * ((len + 1) * len)).
  { apply (natlike_ind (fun len =>
             2 * foldr Z.add 0 (map (fun k => d * k) (seqZ 1 len)) = d * ((len + 1) * len))).
    - simpl. lia.
    - intros len Hlen IH.
      replace (Z.succ len) with (len + 1) by lia.
      rewrite seqZ_app by lia. rewrite map_app, foldr_app. simpl.
      rewrite foldr_add_acc. lia. }
  rewrite H by lia. f_equal. lia.
Qed.

(** With a base delay above [TIMEOUT_MAX] every wait takes 1 ms. *)
Lemma total_backoff_cut d n :
  1 <= n -> Timers.TIMEOUT_MAX < d -> total_backoff d n = n - 1.
Proof.
  intros Hn Hd. unfold total_backoff.
  rewrite (backoff_sum (fun _ => 1)); [| lia |].
  2: { intros k Hk. apply timer_delay_cut. unfold Timers.TIMEOUT_MAX in *. nia. }
  assert (H : forall len, 0 <= len ->
             foldr Z.add 0 (map (fun _ : Z => 1) (seqZ 1 len)) = len).
  { apply (natlike_ind (fun len =>
             foldr Z.add 0 (map (fun _ : Z => 1) (seqZ 1 len)) = len)).
    - reflexivity.
    - intros len Hlen IH.
      replace (Z.succ len) with (len + 1) by lia.
      rewrite seqZ_app by lia. rewrite map_app, foldr_app. simpl.
      rewrite foldr_add_acc. lia. }
  apply H. lia.
Qed.



(** ** Sessions *)

Lemma attempt_loop_clock env options fuel :
  (forall k, 0 <= latency (env k)) ->
  forall a lastError st now,
    lastRequestTime st <= now ->
    now <= clock (attempt_loop env options fuel a lastError st now) /\
    lastRequestTime (after (attempt_loop env options fuel a lastError st now))
    <= clock (attempt_loop env options fuel a lastError st now).
Proof.
  intros Hlat.
  induction fuel as [| fuel IH]; intros a lastError st now Hl; [simpl; lia |].
  destruct (Z_lt_le_dec (maxRetries st) a) as [Hgt | Hle].
  { rewrite attempt_loop_done by lia. simpl. lia. }
  rewrite attempt_loop_step by lia. cbv zeta.
  pose proof (Hlat a) as Ha.
  destruct (wire (env a)) as [s0 | c];
    repeat match goal with
           | |- context [if ?c then _ else _] => destruct c eqn:?
           end; simpl; try lia;
    match goal with
    | |- context [attempt_loop env options fuel ?a' ?l ?s ?n] =>
        pose proof (timer_delay_positive (retryDelay s * a));
        destruct (IH a' l s n) as [H1 H2]; [unfold _wait; lia | unfold _wait in *; lia]
    end.
Qed.

Lemma _makeRequest_clock env m u options st now :
  (forall k, 0 <= latency (env k)) ->
  lastRequestTime st <= now ->
  now <= finish (_makeRequest env m u options st now) /\
  lastRequestTime (final (_makeRequest env m u options st now))
  <= finish (_makeRequest env m u options st now).
Proof.
  intros Hlat Hl. unfold _makeRequest.
  set (st0 := set_requestCount (requestCount st + 1) st).
  pose proof (_applyRateLimit_forward st0 now) as Hr.
  destruct (_applyRateLimit st0 now) as [now0 limited]. simpl in Hr.
  unfold finish, final.
  destruct (attempt_loop_clock env options (S (Z.to_nat (maxRetries st0))) Hlat 1 None
              st0 now0) as [H1 H2].
  - change (lastRequestTime st0) with (lastRequestTime st). lia.
  - split; [lia | exact H2].
Qed.

Lemma rate_limit_suspensions_app l1 l2 :
  rate_limit_suspensions (l1 ++ l2)
  = rate_limit_suspensions l1 ++ rate_limit_suspensions l2.
Proof.
  induction l1 as [| e l1 IH]; [reflexivity |].
  destruct e; simpl; rewrite ?IH; reflexivity.
Qed.

Lemma loop_shape_no_suspension d a evs :
  loop_shape d a evs -> rate_limit_suspensions evs = [].
Proof. induction 1; simpl; auto. Qed.

Lemma _makeRequest_suspension env m u options st now ms :
  lastRequestTime st <= now ->
  ms ∈ rate_limit_suspensions (observed (_makeRequest env m u options st now)) ->
  0 < ms <= rateLimitDelay st.
Proof.
  intros Hl. unfold _makeRequest.
  set (st0 := set_requestCount (requestCount st + 1) st).
  destruct (_applyRateLimit st0 now) as [now0 limited] eqn:E.
  unfold observed. rewrite rate_limit_suspensions_app.
  rewrite (loop_shape_no_suspension (retryDelay st0) 1
             (events (attempt_loop env options (S (Z.to_nat (maxRetries st0))) 1 None
                        st0 now0)))
    by (apply attempt_loop_shape; unfold enough_fuel; lia).
  rewrite app_nil_r.
  unfold _applyRateLimit in E.
  change (lastRequestTime st0) with (lastRequestTime st) in E.
  change (rateLimitDelay st0) with (rateLimitDelay st) in E.
  destruct (now - lastRequestTime st <? rateLimitDelay st) eqn:El;
    inversion E; subst; simpl.
  - intros H. apply list_elem_of_singleton in H. lia.
  - intros H. inversion H.
Qed.

Lemma _makeRequest_settings env m u options st now :
  requestCount (final (_makeRequest env m u options st now)) = requestCount st + 1 /\
  rateLimitDelay (final (_makeRequest env m u options st now)) = rateLimitDelay st /\
  maxRetries (final (_makeRequest env m u options st now)) = maxRetries st /\
  retryDelay (final (_makeRequest env m u options st now)) = retryDelay st.
Proof.
  unfold _makeRequest.
  destruct (_applyRateLimit _ now) as [now0 lim]. unfold final.
  match goal with
  | |- context [after (attempt_loop ?e ?o ?f ?a ?l ?s ?n)] =>
      destruct (attempt_loop_settings e o f a l s n) as (Hc & Hr & Hm & Hd)
  end.
  rewrite Hc, Hr, Hm, Hd. simpl. auto.
Qed.

Lemma session_final calls :
  forall st now,
    requestCount (after_session calls st now) = requestCount st + Z.of_nat (length calls) /\
    rateLimitDelay (after_session calls st now) = rateLimitDelay st /\
    maxRetries (after_session calls st now) = maxRetries st /\
    retryDelay (after_session calls st now) = retryDelay st.
Proof.
  induction calls as [| c calls IH]; intros st now; [simpl; repeat split; lia |].
  cbn [after_session]. cbv zeta.
  set (r := _makeRequest (network c) (verb c) (target c) (settings c) st (now + idle c)).
  destruct (_makeRequest_settings
              (network c) (verb c) (target c) (settings c) st (now + idle c))
    as (Hc & Hr & Hm & Hd).
  fold r in Hc, Hr, Hm, Hd.
  destruct (IH (final r) (finish r)) as (I1 & I2 & I3 & I4).
  rewrite I1, I2, I3, I4, Hc, Hr, Hm, Hd. rewrite length_cons.
  repeat split; lia.
Qed.

(** A call is well behaved when it is made no earlier than the previous
    one ended and the network takes no negative time. *)
Lemma session_suspensions calls :
  forall st now,
    lastRequestTime st <= now ->
    Forall (fun c => 0 <= idle c /\ forall k, 0 <= latency (network c k)) calls ->
    Forall (fun r => forall ms, ms ∈ rate_limit_suspensions (observed r) ->
                                0 < ms <= rateLimitDelay st)
      (session calls st now).
Proof.
  induction calls as [| c calls IH]; intros st now Hl Hall; [constructor |].
  inversion Hall as [| ? ? [Hidle Hlat] Hrest]; subst.
  cbn [session]. cbv zeta.
  set (r := _makeRequest (network c) (verb c) (target c) (settings c) st (now + idle c)).
  constructor.
  - intros ms. apply _makeRequest_suspension. lia.
  - destruct (_makeRequest_clock (network c) (verb c) (target c) (settings c) st
                (now + idle c) Hlat ltac:(lia)) as [_ Hf].
    fold r in Hf.
    destruct (_makeRequest_settings
                (network c) (verb c) (target c) (settings c) st (now + idle c))
      as (_ & Hr & _ & _).
    fold r in Hr. rewrite <- Hr. apply IH; assumption.
Qed.

(** X6. In a session of calls that are made one after the other on a
    manager whose [lastRequestTime] is not in the future, the rate limit
    never holds a call back for longer than [rateLimitDelay], and it holds
    it back for more than nothing whenever it does. At the end of the
    session [requestCount] has grown by the number of calls, however many
    attempts they took, and the three settings are what they were. *)
Theorem session_throttle_is_bounded calls st now :
  lastRequestTime st <= now ->
  Forall (fun c => 0 <= idle c /\ forall k, 0 <= latency (network c k)) calls ->
  Forall (fun r => forall ms, ms ∈ rate_limit_suspensions (observed r) ->
                              0 < ms <= rateLimitDelay st)
    (session calls st now) /\
  requestCount (after_session calls st now) = requestCount st + Z.of_nat (length calls) /\
  rateLimitDelay (after_session calls st now) = rateLimitDelay st /\
  maxRetries (after_session calls st now) = maxRetries st /\
  retryDelay (after_session calls st now) = retryDelay st.
Proof.
  intros Hl Hall. split; [apply session_suspensions; assumption | apply session_final].
Qed.

Lemma session_throttle_is_bounded_witness :
  lastRequestTime create <= 500 /\
  map (fun r => rate_limit_suspensions (observed r)) (session two_calls create 500)
  = [[500]; []] /\
  requestCount (after_session two_calls create 500) = 2.
Proof.
  assert (Hl : lastRequestTime create <= 500) by (simpl; lia).
  assert (Hall : Forall (fun c => 0 <= idle c /\ forall k, 0 <= latency (network c k))
                   two_calls).
  { repeat constructor; simpl; lia. }
  split; [exact Hl |]. split; [reflexivity |].
  exact (proj1 (proj2 (session_throttle_is_bounded two_calls create 500 Hl Hall))).
Defined.

(** ** Changing the settings *)

Lemma or_current_nonzero value current :
  current <> 0 -> or_current value current <> 0.
Proof.
  intros Hc. unfold or_current.
  destruct value as [n |]; [| exact Hc].
  destruct (n =? 0) eqn:E; [exact Hc | lia].
Qed.

Lemma configured_nonzero updates :
  forall st, nonzero_settings st ->
    nonzero_settings (configured updates st) /\
    requestCount (configured updates st) = requestCount st /\
    lastRequestTime (configured updates st) = lastRequestTime st.
Proof.
  unfold configured.
  induction updates as [| [[d m] r] updates IH]; intros st Hn; [simpl; auto |].
  simpl. destruct Hn as (H1 & H2 & H3).
  destruct (IH (updateRateLimit d m r st)) as (Hn' & Hc & Hl).
  { unfold nonzero_settings. simpl. auto using or_current_nonzero. }
  split; [exact Hn' |]. rewrite Hc, Hl. split; reflexivity.
Qed.

(** X7. [updateRateLimit] takes [0] for "no value", like an argument
    that is left out: whatever calls are made, a setting that is not 0 never
    becomes 0, so the rate limit and the retries of a manager cannot be
    switched off that way, and the counters are not touched. A negative
    [maxRetries] is stored, and from then on every request is rejected with
    a [TypeError] without a single attempt. *)
Theorem updateRateLimit_never_stores_zero :
  (forall updates,
     nonzero_settings (configured updates create) /\
     requestCount (configured updates create) = 0 /\
     lastRequestTime (configured updates create) = 0) /\
  (forall st, updateRateLimit (Some 0) (Some 0) (Some 0) st = st /\
              updateRateLimit None None None st = st) /\
  (forall delay retryDelay' n st env m u options now,
     n < 0 ->
     let st' := updateRateLimit delay (Some n) retryDelay' st in
     maxRetries st' = n /\
     outcome (_makeRequest env m u options st' now) = RejectedTypeError /\
     dispatched (observed (_makeRequest env m u options st' now)) = []).
Proof.
  split; [| split].
  - intros updates. apply configured_nonzero.
    unfold nonzero_settings, create, RATE_LIMIT_DELAY, MAX_RETRIES, RETRY_DELAY. simpl. lia.
  - intros [c l d r b]. split; reflexivity.
  - intros delay retryDelay' n st env m u options now Hn st'.
    assert (Hm : maxRetries st' = n).
    { unfold st', updateRateLimit, or_current. simpl.
      replace (n =? 0) with false by lia. reflexivity. }
    split; [exact Hm |].
    unfold _makeRequest.
    set (st0 := set_requestCount (requestCount st' + 1) st').
    pose proof (_applyRateLimit_events st0 now) as He.
    destruct (_applyRateLimit st0 now) as [now0 limited]. simpl in He.
    rewrite attempt_loop_done by (change (maxRetries st0) with (maxRetries st'); lia).
    unfold outcome, observed. simpl. split; [reflexivity |].
    destruct He as [-> | [ms ->]]; reflexivity.
Qed.

End RequestExecutorLaws.

(** * Properties of the error factory *)

Module ErrorFactoryLaws.
Import Errors.
Local Open Scope Z_scope.

Lemma create_known type c message details :
  errorClasses type = Some c ->
  create type message details
  = Built {| class := c; message := message; details := details |}.
Proof. intros H. unfold create. rewrite H. reflexivity. Qed.

(** X8. [ErrorFactory.fromHttpResponse] always builds an error of one
    of the classes of the module, with the status in its details, and
    that error presents itself as retryable exactly when the status is
    429 or at least 500. *)
Theorem fromHttpResponse_retryable_iff response url method :
  exists e, fromHttpResponse response url method = Built e /\
            statusCode (details e) = Some (status response) /\
            (isRetryable e = true <-> status response = 429 \/ 500 <= status response).
Proof.
  unfold fromHttpResponse. cbv zeta.
  destruct ((status response =? 401) || (status response =? 403)) eqn:E1;
    [| destruct (status response =? 400) eqn:E2;
       [| destruct (status response =? 429) eqn:E3;
          [| destruct (500 <=? status response) eqn:E4]]];
    (erewrite create_known by reflexivity);
    eexists; (split; [reflexivity |]); (split; [reflexivity |]);
    unfold isRetryable, NetworkError_isRetryable; simpl;
    rewrite ?E3, ?E4; simpl; split; try discriminate; try lia; auto.
Qed.

(** X9. [ErrorFactory.fromNetworkError] always builds an error of one of
    the classes of the module, and that error presents itself as
    retryable exactly when the code of the failure is one of
    [ECONNRESET], [ECONNREFUSED], [ENOTFOUND] and [ETIMEDOUT]; a timeout
    becomes a [TimeoutError], every other failure a [NetworkError]. *)
Theorem fromNetworkError_retryable_iff error url method :
  exists e, fromNetworkError error url method = Built e /\
            class e = (if has_code error "ETIMEDOUT" then TimeoutError else NetworkError) /\
            (isRetryable e = true <->
             exists c, failure_code error = Some (Str c) /\ c ∈ network_codes).
Proof.
  unfold fromNetworkError, has_code. cbv zeta.
  destruct (failure_code error) as [[c | n] |] eqn:Ec.
  2,3: erewrite create_known by reflexivity; eexists;
       (split; [reflexivity |]); (split; [reflexivity |]);
       unfold isRetryable, NetworkError_isRetryable; simpl;
       split; [discriminate | intros (c & [=] & _)].
  destruct (String.eqb c "ECONNREFUSED") eqn:E1;
    [| destruct (String.eqb c "ENOTFOUND") eqn:E2;
       [| destruct (String.eqb c "ETIMEDOUT") eqn:E3]];
    (erewrite create_known by reflexivity);
    eexists; (split; [reflexivity |]); cbn [class];
    try (apply String.eqb_eq in E1; subst c);
    try (apply String.eqb_eq in E2; subst c);
    try (apply String.eqb_eq in E3; subst c);
    (split; [reflexivity |]);
    unfold isRetryable, NetworkError_isRetryable; cbn [class details statusCode originalError].
  - split; [intros _; eexists; split; [reflexivity |] | reflexivity].
    unfold network_codes. set_solver.
  - split; [intros _; eexists; split; [reflexivity |] | reflexivity].
    unfold network_codes. set_solver.
  - split; [intros _; eexists; split; [reflexivity |] | reflexivity].
    unfold network_codes. set_solver.
  - unfold includes_string. rewrite bool_decide_eq_true. split.
    + intros H. exists c. auto.
    + intros (c' & [= <-] & H). exact H.
Qed.

End ErrorFactoryLaws.

(** * Further properties of the persistent channel *)

Module ChannelLaws.
Import WebSocketManager WebSocketManagerFacts.
Local Open Scope string_scope.
Local Open Scope list_scope.
Local Open Scope Z_scope.
Local Open Scope js_scope.

(** ** Records of messages that were sent *)

#[export] Instance retained_preorder : PreOrder retained.
Proof.
  split.
  - intros s. unfold retained. reflexivity.
  - intros s1 s2 s3 H12 H23. unfold retained in *. etransitivity; eassumption.
Qed.

Lemma retained_same s s' : pendingMessages s' = pendingMessages s -> retained s s'.
Proof. intros H. unfold retained. rewrite H. reflexivity. Qed.

Create HintDb retained discriminated.

Lemma record_retained entry : keeps retained (record entry).
Proof. intros s. apply retained_same. reflexivity. Qed.

Lemma console_retained level text : keeps retained (console level text).
Proof. apply record_retained. Qed.

Lemma new_handle_retained : keeps retained new_handle.
Proof. intros s. apply retained_same. reflexivity. Qed.

Lemma setTimeout_retained cb ms : keeps retained (setTimeout cb ms).
Proof. intros s. apply retained_same. reflexivity. Qed.

Lemma setInterval_retained cb ms : keeps retained (setInterval cb ms).
Proof. intros s. apply retained_same. reflexivity. Qed.

Lemma clearTimeout_retained id : keeps retained (clearTimeout id).
Proof. intros s. apply retained_same. reflexivity. Qed.

Lemma on_retained event l : keeps retained (on event l).
Proof. intros s. apply retained_same. reflexivity. Qed.

Lemma gone_retained id : keeps retained (gone id).
Proof. intros s. apply retained_same. reflexivity. Qed.

Lemma new_promise_retained : keeps retained new_promise.
Proof. intros s. apply retained_same. reflexivity. Qed.

Lemma settle_retained p outcome : keeps retained (settle p outcome).
Proof.
  intros s. apply retained_same. unfold settle, modify. simpl.
  destruct (promises s !! p) as [[| v | e] |]; reflexivity.
Qed.

Lemma emit_retained event args : keeps retained (emit event args).
Proof.
  intros s. apply retained_same.
  exact (same_pendingMessages _ _ (emit_undisturbed event args s)).
Qed.

#[export] Hint Resolve record_retained console_retained new_handle_retained
  setTimeout_retained setInterval_retained clearTimeout_retained on_retained
  gone_retained new_promise_retained settle_retained emit_retained : retained.

Ltac retains :=
  repeat first
    [ keeps_step
    | solve [auto with retained]
    | apply keeps_modify; [typeclasses eauto | intros ?; apply retained_same; reflexivity]
    | apply keeps_modify; intros ?; apply retained_same; reflexivity ].

Lemma ws_send_retained frame : keeps retained (ws_send frame).
Proof. unfold ws_send. retains. Qed.

Lemma ws_close_retained id : keeps retained (ws_close id).
Proof. unfold ws_close. retains. Qed.

Lemma new_WebSocket_retained fails : keeps retained (new_WebSocket fails).
Proof. unfold new_WebSocket. retains. Qed.

Lemma _startHeartbeatTimeout_retained : keeps retained _startHeartbeatTimeout.
Proof. unfold _startHeartbeatTimeout. retains. Qed.

Lemma _startHeartbeat_retained : keeps retained _startHeartbeat.
Proof. unfold _startHeartbeat. retains. Qed.

Lemma _stopHeartbeat_retained : keeps retained _stopHeartbeat.
Proof. unfold _stopHeartbeat. retains. Qed.

#[export] Hint Resolve ws_send_retained ws_close_retained new_WebSocket_retained
  _startHeartbeatTimeout_retained _startHeartbeat_retained _stopHeartbeat_retained
  : retained.

Lemma _handleHeartbeat_retained message : keeps retained (_handleHeartbeat message).
Proof. unfold _handleHeartbeat. retains. Qed.

Lemma heartbeat_tick_retained : keeps retained heartbeat_tick.
Proof. unfold heartbeat_tick. retains. Qed.

Lemma connect_retained script : keeps retained (connect script).
Proof.
  unfold connect, connect_try, connect_catch, _authenticateWebSocket,
    _waitForConnection, _waitForAuthentication.
  retains.
Qed.

Lemma disconnect_retained : keeps retained disconnect.
Proof. unfold disconnect. retains. Qed.

#[export] Hint Resolve _handleHeartbeat_retained heartbeat_tick_retained
  connect_retained disconnect_retained : retained.

Lemma _scheduleReconnect_retained : keeps retained _scheduleReconnect.
Proof. unfold _scheduleReconnect. retains. Qed.

#[export] Hint Resolve _scheduleReconnect_retained : retained.

Lemma _handleWebSocketClose_retained code reason :
  keeps retained (_handleWebSocketClose code reason).
Proof. unfold _handleWebSocketClose. retains. Qed.

Lemma _handleWebSocketError_retained error :
  keeps retained (_handleWebSocketError error).
Proof. unfold _handleWebSocketError. retains. Qed.

Lemma reconnect_due_retained script : keeps retained (reconnect_due script).
Proof. unfold reconnect_due. retains. Qed.

Lemma heartbeat_expired_retained script : keeps retained (heartbeat_expired script).
Proof. unfold heartbeat_expired. retains. Qed.

Lemma fire_retained id script : keeps retained (fire id script).
Proof.
  unfold fire, reject. retains;
    auto using reconnect_due_retained, heartbeat_expired_retained with retained.
Qed.

Lemma sendMessage_retained messageData id : keeps retained (sendMessage messageData id).
Proof.
  unfold sendMessage, _waitForAcknowledgment. retains.
  apply keeps_modify. intros s. unfold retained. simpl.
  rewrite dom_insert. set_solver.
Qed.

Lemma _handleIncomingMessage_retained message :
  keeps retained (_handleIncomingMessage message).
Proof. unfold _handleIncomingMessage. retains. Qed.

Lemma _handleTypingIndicator_retained message :
  keeps retained (_handleTypingIndicator message).
Proof. unfold _handleTypingIndicator. retains. Qed.

Lemma _handleReadReceipt_retained message :
  keeps retained (_handleReadReceipt message).
Proof. unfold _handleReadReceipt. retains. Qed.

Lemma _handleOnlineStatus_retained message :
  keeps retained (_handleOnlineStatus message).
Proof. unfold _handleOnlineStatus. retains. Qed.


Lemma bind_ret {A B : Type} (a : A) (k : A -> M B) s : bind (ret a) k s = k a s.
Proof. reflexivity. Qed.

(** A frame that is not an acknowledgment is dispatched to a handler
    that removes no record. *)
Lemma dispatch_retained type message :
  is_str type "acknowledgment" = false ->
  keeps retained
    (if is_str type "message" then _handleIncomingMessage message
     else if is_str type "typing" then _handleTypingIndicator message
     else if is_str type "read_receipt" then _handleReadReceipt message
     else if is_str type "online_status" then _handleOnlineStatus message
     else if is_str type "acknowledgment" then _handleAcknowledgment message
     else if is_str type "heartbeat" then _handleHeartbeat message
     else console "log" "Unknown WebSocket message type:").
Proof.
  intros H. rewrite H.
  repeat match goal with
         | |- keeps _ (if ?c then _ else _) => destruct c
         end;
    auto using _handleIncomingMessage_retained, _handleTypingIndicator_retained,
      _handleReadReceipt_retained, _handleOnlineStatus_retained with retained.
Qed.

Lemma _handleWebSocketMessage_retained data :
  is_acknowledgment (TransportMessage data) = false ->
  keeps retained (_handleWebSocketMessage data).
Proof.
  intros H. unfold _handleWebSocketMessage.
  apply keeps_try_catch; [typeclasses eauto | | intros e; auto with retained].
  destruct data as [| v]; [intros s; reflexivity |].
  intros s. cbn [JSON_parse]. rewrite bind_ret.
  destruct v as [| | b | n | str | e | fields]; cbn [prop];
    try (unfold bind, throw; simpl; reflexivity);
    rewrite bind_ret; apply dispatch_retained; try reflexivity.
  exact H.
Qed.

Lemma step_retained i :
  is_acknowledgment i = false -> keeps retained (step i).
Proof.
  intros H. destruct i; cbn [step];
    auto using connect_retained, disconnect_retained, _handleWebSocketMessage_retained,
      _handleWebSocketClose_retained, _handleWebSocketError_retained, fire_retained
      with retained.
  keeps_step; [apply sendMessage_retained | keeps_step].
Qed.

Lemma run_retained inputs :
  forall s, Forall (fun i => is_acknowledgment i = false) inputs ->
            retained s (run inputs s).
Proof.
  induction inputs as [| i inputs IH]; intros s Hall; simpl.
  - reflexivity.
  - inversion Hall as [| ? ? Hi Hrest]; subst.
    etransitivity; [apply (step_retained i Hi s) | apply IH; exact Hrest].
Qed.



(** ** Destroying the manager *)

Lemma _stopHeartbeat_timers s id :
  heartbeatInterval s <> Some id -> heartbeatTimeout s <> Some id ->
  timers (_stopHeartbeat s).2 !! id = timers s !! id.
Proof.
  intros Hi Ht. unfold _stopHeartbeat, clearTimeout. exec.
  destruct (heartbeatInterval s) as [i |]; exec; simpl;
    destruct (heartbeatTimeout s) as [t |]; exec; simpl;
    rewrite ?lookup_delete_ne by congruence; reflexivity.
Qed.

Lemma _stopHeartbeat_fields s :
  listeners (_stopHeartbeat s).2 = listeners s /\
  reconnectAttempts (_stopHeartbeat s).2 = reconnectAttempts s /\
  autoReconnect (_stopHeartbeat s).2 = autoReconnect s /\
  maxReconnectAttempts (_stopHeartbeat s).2 = maxReconnectAttempts s /\
  reconnectDelay (_stopHeartbeat s).2 = reconnectDelay s /\
  nextHandle (_stopHeartbeat s).2 = nextHandle s /\
  live (_stopHeartbeat s).2 = live s.
Proof.
  unfold _stopHeartbeat, clearTimeout. exec.
  destruct (heartbeatInterval s); exec; simpl;
    destruct (heartbeatTimeout s); exec; simpl; auto 10.
Qed.

(** A reconnect timer that fires on a handle that is neither connected
    nor connecting starts [connect()]. *)
Lemma reconnect_timer_connects id script s d :
  timers s !! id = Some (reconnect_timer d) ->
  isConnected s = false -> isConnecting s = false ->
  exists l, news s (fire id script s).2 = Emitted "connecting" [] :: l.
Proof.
  intros Ht Hc Hi. unfold fire. exec. rewrite Ht.
  cbn [repeating callback reconnect_timer].
  unfold clearTimeout at 1. exec. unfold reconnect_due. exec.
  set (s1 := set_timers _ s).
  change (isConnected s1) with (isConnected s).
  change (isConnecting s1) with (isConnecting s).
  rewrite Hc, Hi. cbn [negb andb].
  assert (Hg : isConnected s1 || isConnecting s1 = false)
    by (unfold s1; cbn [isConnected isConnecting set_timers]; rewrite Hc, Hi; reflexivity).
  destruct (connect_announces script s1 Hg) as [l Hl].
  change (log s1) with (log s) in Hl.
  destruct (connect script s1) as [[u | e] s2]; cbn [fst snd] in *.
  - exists l. apply news_app. exact Hl.
  - eexists. apply news_app. cbn [log set_log]. rewrite Hl.
    rewrite <- app_assoc. reflexivity.
Qed.



(** ** Reconnects that nobody asked for *)

#[export] Instance same_reconnect_state_preorder : PreOrder same_reconnect_state.
Proof.
  split.
  - intros s. unfold same_reconnect_state. auto 10.
  - intros s1 s2 s3 H12 H23. unfold same_reconnect_state in *.
    intuition congruence.
Qed.

Lemma emit_same_reconnect_state event args :
  keeps same_reconnect_state (emit event args).
Proof.
  intros s. destruct (emit_undisturbed event args s).
  unfold same_reconnect_state. auto 10.
Qed.

Lemma disconnect_same_reconnect_state : keeps same_reconnect_state disconnect.
Proof.
  unfold disconnect, _stopHeartbeat, ws_close, gone, console, record, clearTimeout.
  repeat first
    [ keeps_step
    | apply emit_same_reconnect_state
    | apply keeps_modify; [typeclasses eauto | intros ?; unfold same_reconnect_state; simpl; auto 10]
    | apply keeps_modify; intros ?; unfold same_reconnect_state; simpl; auto 10 ].
Qed.

Lemma _handleWebSocketClose_flags code reason s :
  isConnected (_handleWebSocketClose code reason s).2 = false /\
  isConnecting (_handleWebSocketClose code reason s).2 = isConnecting s.
Proof.
  unfold _handleWebSocketClose. exec.
  pose proof (emit_undisturbed "close" [code; reason] (set_isConnected false s)) as Hu.
  destruct (emit "close" [code; reason] (set_isConnected false s)) as [[b | e] s1];
    destruct Hu; cbn [fst snd] in *; [| auto].
  destruct (autoReconnect s1 && (reconnectAttempts s1 <? maxReconnectAttempts s1));
    [unfold _scheduleReconnect, setTimeout, new_handle; exec; simpl | exec]; auto.
Qed.



Lemma _handleWebSocketError_effect error s :
  autoReconnect s = true -> reconnectAttempts s < maxReconnectAttempts s ->
  (_handleWebSocketError error s).1 = Val tt ->
  let s' := (_handleWebSocketError error s).2 in
  reconnectAttempts s' = reconnectAttempts s + 1 /\
  nextHandle s' = S (nextHandle s) /\
  timers s' !! nextHandle s
  = Some (reconnect_timer (reconnectDelay s * 2 ^ reconnectAttempts s)) /\
  autoReconnect s' = true /\
  maxReconnectAttempts s' = maxReconnectAttempts s /\
  reconnectDelay s' = reconnectDelay s /\
  isConnected s' = isConnected s.
Proof.
  intros Ha Hlt. unfold _handleWebSocketError. exec.
  pose proof (emit_undisturbed "error" [VError error] s) as Hu.
  destruct (emit "error" [VError error] s) as [[b | e] s1];
    destruct Hu; cbn [fst snd] in *; [| discriminate].
  rewrite same_auto0, Ha, same_reconnectAttempts0, same_max0.
  replace (reconnectAttempts s <? maxReconnectAttempts s) with true by lia.
  cbn [andb]. unfold _scheduleReconnect, setTimeout, new_handle. exec. simpl.
  intros _.
  rewrite same_reconnectAttempts0, same_nextHandle0, same_delay0, same_max0,
    same_auto0, same_isConnected0, Ha.
  replace (reconnectAttempts s + 1 - 1) with (reconnectAttempts s) by lia.
  rewrite lookup_insert_eq. repeat split.
Qed.

Lemma _handleWebSocketClose_effect code reason s :
  autoReconnect s = true -> reconnectAttempts s < maxReconnectAttempts s ->
  (_handleWebSocketClose code reason s).1 = Val tt ->
  let s' := (_handleWebSocketClose code reason s).2 in
  reconnectAttempts s' = reconnectAttempts s + 1 /\
  nextHandle s' = S (nextHandle s) /\
  timers s' !! nextHandle s
  = Some (reconnect_timer (reconnectDelay s * 2 ^ reconnectAttempts s)).
Proof.
  intros Ha Hlt. unfold _handleWebSocketClose. exec.
  pose proof (emit_undisturbed "close" [code; reason] (set_isConnected false s)) as Hu.
  destruct (emit "close" [code; reason] (set_isConnected false s)) as [[b | e] s1];
    destruct Hu; simpl in *; [| discriminate].
  rewrite same_auto0, Ha, same_reconnectAttempts0, same_max0.
  replace (reconnectAttempts s <? maxReconnectAttempts s) with true by lia.
  simpl. intros _.
  rewrite same_reconnectAttempts0, same_nextHandle0, same_delay0.
  replace (reconnectAttempts s + 1 - 1) with (reconnectAttempts s) by lia.
  rewrite lookup_insert_eq. repeat split.
Qed.



(** ** Frames that are sent without a record *)

(** X14. Typing indicators and read receipts are sent and forgotten. On
    a handle that is not connected both methods throw a [NetworkError]
    and change nothing. On an open connection they send one frame and
    return [{ success: true }] at once: no record is stored, no timer is
    armed, no promise is created and no listener is registered, so no
    acknowledgment is waited for. *)
Theorem typing_and_receipts_are_not_tracked :
  (forall a b s,
     isConnected s = false ->
     sendTyping a b s = (Exn (NetworkError "WebSocket not connected"), s) /\
     sendReadReceipt a b s = (Exn (NetworkError "WebSocket not connected"), s)) /\
  (forall a b s w,
     isConnected s = true -> ws s = Some w -> w ∈ live s ->
     sendTyping a b s
     = (Val success, set_log (log s ++ [Sent w (typing_message a b (now s))]) s) /\
     sendReadReceipt a b s
     = (Val success, set_log (log s ++ [Sent w (read_message a b (now s))]) s)).
Proof.
  split.
  - intros a b s Hc. unfold sendTyping, sendReadReceipt. exec. rewrite Hc. split; reflexivity.
  - intros a b s w Hc Hw Hl. unfold sendTyping, sendReadReceipt, ws_send.
    split; exec; rewrite Hc; cbn [negb]; exec;
      rewrite Hw, (bool_decide_eq_true_2 _ Hl); reflexivity.
Qed.

End ChannelLaws.

(** * Properties of object literals *)

Module ObjectLaws.
Import WebSocketManager Objects.
Local Open Scope string_scope.
Local Open Scope list_scope.

Lemma field_set_field key key' v fields :
  field key (set_field key' v fields)
  = if String.eqb key' key then v else field key fields.
Proof.
  induction fields as [| [k v'] fields IH]; simpl.
  - destruct (String.eqb key' key); reflexivity.
  - destruct (String.eqb k key') eqn:E; simpl.
    + apply String.eqb_eq in E. subst k.
      destruct (String.eqb key' key); reflexivity.
    + destruct (String.eqb k key) eqn:E'; [| exact IH].
      apply String.eqb_eq in E'. subst k. rewrite String.eqb_sym, E. reflexivity.
Qed.

Lemma has_field_app key l1 l2 :
  has_field key (l1 ++ l2) = has_field key l1 || has_field key l2.
Proof. unfold has_field. apply existsb_app. Qed.

Lemma field_app key l1 l2 :
  field key (l1 ++ l2) = if has_field key l1 then field key l1 else field key l2.
Proof.
  induction l1 as [| [k v] l1 IH]; simpl; [reflexivity |].
  destruct (String.eqb k key); simpl; [reflexivity | exact IH].
Qed.

(** A property of [{ ...target, ...source }] is the last property of that
    name in [source] when there is one, and the property of [target]
    otherwise. *)
Lemma field_spread key source :
  forall target,
    field key (spread target source)
    = if has_field key source then field key (rev source) else field key target.
Proof.
  unfold spread.
  induction source as [| [k v] source IH]; intros target; simpl; [reflexivity |].
  rewrite IH, field_set_field, field_app.
  assert (Hr : has_field key (rev source) = has_field key source).
  { unfold has_field. clear. induction source as [| p source IH]; simpl; [reflexivity |].
    rewrite existsb_app, IH. simpl. rewrite orb_false_r. apply orb_comm. }
  rewrite Hr. simpl.
  destruct (has_field key source); simpl.
  - rewrite orb_true_r. reflexivity.
  - rewrite orb_false_r. destruct (String.eqb k key); reflexivity.
Qed.

End ObjectLaws.

(** * Properties of the configuration of a request *)

Module RequestConfigLaws.
Import WebSocketManager Objects RequestConfig ObjectLaws.
Local Open Scope string_scope.
Local Open Scope list_scope.
Local Open Scope Z_scope.

Lemma has_field_rev key fields : has_field key (rev fields) = has_field key fields.
Proof.
  unfold has_field. induction fields as [| p fields IH]; simpl; [reflexivity |].
  rewrite existsb_app, IH. simpl. rewrite orb_false_r. apply orb_comm.
Qed.

Lemma field_absent key fields : has_field key fields = false -> field key fields = VUndefined.
Proof.
  unfold has_field. induction fields as [| [k v] fields IH]; simpl; [reflexivity |].
  destruct (String.eqb k key); simpl; [discriminate | exact IH].
Qed.

Lemma has_field_elem_of key fields :
  has_field key fields = true -> key ∈ map fst fields.
Proof.
  unfold has_field. induction fields as [| [k v] fields IH]; simpl; [discriminate |].
  destruct (String.eqb k key) eqn:E; simpl.
  - apply String.eqb_eq in E. subst. intros _. left.
  - intros H. right. apply IH. exact H.
Qed.

(** In an object, whose names are distinct, the last property of a name
    is the property of that name. *)
Lemma field_rev_distinct key fields :
  distinct fields -> field key (rev fields) = field key fields.
Proof.
  unfold distinct. induction fields as [| [k v] fields IH]; intros Hn; [reflexivity |].
  simpl in Hn. apply NoDup_cons in Hn as [Hk Hn].
  simpl. rewrite field_app, has_field_rev.
  destruct (String.eqb k key) eqn:E.
  - apply String.eqb_eq in E. subst k.
    destruct (has_field key fields) eqn:Hf.
    + exfalso. apply Hk. apply has_field_elem_of. exact Hf.
    + simpl. rewrite String.eqb_refl. reflexivity.
  - destruct (has_field key fields) eqn:Hf; [apply IH; exact Hn |].
    simpl. rewrite E. symmetry. apply field_absent. exact Hf.
Qed.

Lemma field_spread_distinct key target source :
  distinct source ->
  field key (spread target source)
  = if has_field key source then field key source else field key target.
Proof. intros Hd. rewrite field_spread, field_rev_distinct by exact Hd. reflexivity. Qed.

(** The steps after the literal leave [headers], [method] and [url]
    alone, but for the [Content-Type] of a body that is an object. *)
Lemma _prepareRequestConfig_headers stringify accessToken method url data options config :
  _prepareRequestConfig stringify accessToken method url data options = Val config ->
  let literal :=
    spread [("method", VStr (toLowerCase method)); ("url", VStr url);
            ("headers", VObj (spread (_getDefaultHeaders accessToken)
                                (properties (field "headers" options))))]
      options in
  field "method" config = field "method" literal /\
  field "url" config = field "url" literal /\
  field "headers" config
  = if truthy data && is_object data
    then match field "headers" literal with
         | VObj headers =>
             VObj (set_field "Content-Type" (VStr "application/json") headers)
         | v => v
         end
    else field "headers" literal.
Proof.
  unfold _prepareRequestConfig. cbv zeta.
  set (literal := spread _ options).
  destruct (truthy data); cbn [andb].
  - destruct (is_object data).
    + unfold set_content_type. rewrite field_set_field. cbn [String.eqb Ascii.eqb Bool.eqb].
      destruct (field "headers" literal) as [| | b | n | str | e | headers] eqn:Hh;
        try discriminate.
      intros [= <-].
      destruct (field "followRedirect" options);
        repeat match goal with
               | |- context [if ?c then _ else _] => destruct c
               end;
        rewrite ?field_set_field; cbn [String.eqb Ascii.eqb Bool.eqb];
        rewrite ?field_set_field; cbn [String.eqb Ascii.eqb Bool.eqb]; auto.
    + intros [= <-].
      destruct (field "followRedirect" options);
        repeat match goal with
               | |- context [if ?c then _ else _] => destruct c
               end;
        rewrite ?field_set_field; cbn [String.eqb Ascii.eqb Bool.eqb];
        rewrite ?field_set_field; cbn [String.eqb Ascii.eqb Bool.eqb]; auto.
  - intros [= <-].
    destruct (field "followRedirect" options);
      repeat match goal with
             | |- context [if ?c then _ else _] => destruct c
             end;
      rewrite ?field_set_field; cbn [String.eqb Ascii.eqb Bool.eqb];
      rewrite ?field_set_field; cbn [String.eqb Ascii.eqb Bool.eqb]; auto.
Qed.


(** X21. In the configuration of a request the headers that the caller
    passes are not merged with the default headers: they replace them.
    Without [options.headers] the request carries the headers of
    [_getDefaultHeaders], the [Authorization] of the client's token among
    them; with [options.headers] it carries exactly the caller's headers,
    and in both cases a [Content-Type] of [application/json] is added when
    the body is an object. The method is the verb in lower case and the
    target is the [url] unless [options] has properties of these names. *)
Theorem caller_headers_replace_the_defaults
    stringify accessToken method url data options config :
  distinct options ->
  _prepareRequestConfig stringify accessToken method url data options = Val config ->
  let typed headers :=
    VObj (if truthy data && is_object data
          then set_field "Content-Type" (VStr "application/json") headers
          else headers) in
  (has_field "headers" options = false ->
   field "headers" config = typed (_getDefaultHeaders accessToken)) /\
  (forall headers,
     has_field "headers" options = true -> field "headers" options = VObj headers ->
     field "headers" config = typed headers) /\
  (has_field "method" options = false -> field "method" config = VStr (toLowerCase method)) /\
  (has_field "url" options = false -> field "url" config = VStr url).
Proof.
  intros Hd Hc typed.
  destruct (_prepareRequestConfig_headers _ _ _ _ _ _ _ Hc) as (Hm & Hu & Hh).
  cbv zeta in Hm, Hu, Hh.
  rewrite field_spread_distinct in Hm, Hu, Hh by exact Hd.
  split; [| split; [| split]].
  - intros Hn. rewrite Hn in Hh. rewrite Hh. unfold typed.
    rewrite (field_absent _ _ Hn). cbn [field String.eqb Ascii.eqb Bool.eqb properties].
    unfold spread at 1. cbn [foldl].
    destruct (truthy data && is_object data); reflexivity.
  - intros headers Hp Hf. rewrite Hp, Hf in Hh. rewrite Hh. unfold typed.
    destruct (truthy data && is_object data); reflexivity.
  - intros Hn. rewrite Hn in Hm. exact Hm.
  - intros Hn. rewrite Hn in Hu. exact Hu.
Qed.

(** A request of a manager with a token, made with one header of the
    caller's: the [Authorization] of the default headers is not sent. *)
Lemma caller_headers_replace_the_defaults_witness :
  let options := [("headers", VObj [("X-Trace", VStr "1")])] in
  field "Authorization" (_getDefaultHeaders (Some "abc")) = VStr "Bearer abc" /\
  exists config,
    _prepareRequestConfig (fun _ => "{}") (Some "abc") "POST" "/graphql" VUndefined options
    = Val config /\
    field "headers" config = VObj [("X-Trace", VStr "1")] /\
    field "method" config = VStr "post".
Proof.
  cbv zeta. split; [reflexivity |].
  eexists. split; [reflexivity |].
  assert (Hd : distinct [("headers", VObj [("X-Trace", VStr "1")])]).
  { unfold distinct. simpl. apply NoDup_singleton. }
  destruct (caller_headers_replace_the_defaults (fun _ => "{}") (Some "abc") "POST"
              "/graphql" VUndefined [("headers", VObj [("X-Trace", VStr "1")])] _ Hd eq_refl)
    as (_ & H2 & H3 & _).
  split; [apply (H2 [("X-Trace", VStr "1")]); reflexivity |].
  exact (H3 eq_refl).
Defined.

End RequestConfigLaws.

(** * Properties of the message manager *)

Module MessageLaws.
Import WebSocketManager Objects MessageManager ObjectLaws.
Local Open Scope string_scope.
Local Open Scope list_scope.
Local Open Scope Z_scope.
Local Open Scope mm_scope.

(** Runs the monad operations at the head of a goal. *)
Ltac mm :=
  cbv beta iota zeta delta
    [bind ret throw try_catch get modify lift sleep post emit _updateRateLimit];
  cbn [fst snd].

(** Splits on what is being matched on, outermost first. *)
Ltac cases :=
  repeat match goal with
         | |- context [match ?x with _ => _ end] =>
             lazymatch x with
             | context [match _ with _ => _ end] => fail
             | _ => destruct x eqn:?
             end
         end.

(** ** The rate limit *)

(** What [_checkRateLimit] comes to: the window is restarted when it has
    run out; then the call throws when the counter has reached the
    maximum, and otherwise returns once [MIN_SPACING] has passed since the
    last message. *)
Lemma _checkRateLimit_spec s :
  let s1 := if rateLimitResetTime s <? now s
            then set_rateLimitResetTime (now s + WINDOW) (set_messageCount 0 s)
            else s in
  _checkRateLimit s
  = if MAX_PER_WINDOW <=? messageCount s1
    then (Exn (MessengerError (rate_limit_message (rateLimitResetTime s1 - now s))), s1)
    else (Val tt,
          if now s - lastMessageTime s <? MIN_SPACING
          then set_now (now s + Z.max 0 (MIN_SPACING - (now s - lastMessageTime s))) s1
          else s1).
Proof.
  unfold _checkRateLimit. mm.
  destruct (rateLimitResetTime s <? now s); mm; cbn [messageCount set_messageCount
    set_rateLimitResetTime rateLimitResetTime lastMessageTime now];
    destruct (MAX_PER_WINDOW <=? _); [reflexivity | | reflexivity |];
    destruct (now s - lastMessageTime s <? MIN_SPACING); reflexivity.
Qed.

(** ** Sending *)

(** The [try] block either fails before anything is stored, or stores
    and counts the message that the server reports and then runs the
    listeners of ["messageSent"]. *)
Lemma send_try_spec reply s :
  (exists e, send_try reply s = (Exn e, set_now (now s + latency reply) s)) \/
  (exists m id,
     read m "id" = Val id /\
     send_try reply s
     = (match handlers s "messageSent" [m] with
        | Some e => Exn e
        | None => Val m
        end,
        stored m id (latency reply) s)).
Proof.
  unfold send_try, stored. mm.
  destruct (answer reply) as [response | e]; mm; [| eauto].
  destruct (read response "data") as [d1 | e]; mm; [| eauto].
  destruct (read d1 "data") as [d2 | e]; mm; [| eauto].
  destruct (read d2 "sendMessage") as [sm | e]; mm; [| eauto].
  destruct (read sm "success") as [success | e]; mm; [| eauto].
  destruct (truthy success); mm; [| eauto].
  destruct (read sm "message") as [m | e]; mm; [| eauto].
  destruct (read m "id") as [id | e] eqn:Hid; mm; [| eauto].
  right. exists m, id. split; [exact Hid |].
  cbn [handlers set_emitted set_lastMessageTime set_messageCount set_sentMessages set_now].
  destruct (handlers s "messageSent" [m]); reflexivity.
Qed.

(** [_sendMessage] on an authenticated manager, once the rate limit has
    let the call pass. *)
Lemma _sendMessage_admitted messageData reply s :
  isAuthenticated s = true ->
  (_checkRateLimit s).1 = Val tt ->
  _sendMessage messageData reply s
  = try_catch (send_try reply) send_catch (admitted s).
Proof.
  intros Ha Hc. unfold _sendMessage. mm. rewrite Ha. cbn [negb].
  revert Hc. rewrite _checkRateLimit_spec. cbv zeta. unfold admitted.
  destruct (MAX_PER_WINDOW <=? _); [discriminate |]. reflexivity.
Qed.

Lemma admitted_fields s :
  messageCount (admitted s) = (if rateLimitResetTime s <? now s then 0 else messageCount s) /\
  lastMessageTime (admitted s) = lastMessageTime s /\
  sentMessages (admitted s) = sentMessages s /\
  isAuthenticated (admitted s) = isAuthenticated s /\
  handlers (admitted s) = handlers s /\
  emitted (admitted s) = emitted s /\
  now (admitted s) = Z.max (now s) (lastMessageTime s + MIN_SPACING).
Proof.
  unfold admitted.
  destruct (rateLimitResetTime s <? now s);
    destruct (now s - lastMessageTime s <? MIN_SPACING) eqn:E; simpl;
    repeat split; lia.
Qed.

Lemma _checkRateLimit_passes s :
  (_checkRateLimit s).1 = Val tt <->
  (if rateLimitResetTime s <? now s then 0 else messageCount s) < MAX_PER_WINDOW.
Proof.
  rewrite _checkRateLimit_spec. cbv zeta.
  set (s1 := if rateLimitResetTime s <? now s
             then set_rateLimitResetTime (now s + WINDOW) (set_messageCount 0 s)
             else s).
  assert (H1 : messageCount s1
               = if rateLimitResetTime s <? now s then 0 else messageCount s)
    by (unfold s1; destruct (rateLimitResetTime s <? now s); reflexivity).
  rewrite <- H1.
  destruct (MAX_PER_WINDOW <=? messageCount s1) eqn:E; cbn [fst]; split; intros H;
    try discriminate; try reflexivity; lia.
Qed.

Lemma _sendMessage_within_limit messageData reply s :
  within_limit s -> within_limit (_sendMessage messageData reply s).2.
Proof.
  intros Hw. unfold within_limit in *.
  destruct (isAuthenticated s) eqn:Ha.
  2:{ unfold _sendMessage. mm. rewrite Ha. exact Hw. }
  destruct ((_checkRateLimit s).1) as [[] | e] eqn:Hc.
  - rewrite _sendMessage_admitted by assumption.
    apply _checkRateLimit_passes in Hc.
    destruct (admitted_fields s) as (Hm & _).
    unfold try_catch, send_catch, throw.
    destruct (send_try_spec reply (admitted s)) as [(e & ->) | (m & id & _ & ->)].
    + simpl. rewrite Hm. destruct (rateLimitResetTime s <? now s); lia.
    + destruct (handlers (admitted s) "messageSent" [m]); simpl; rewrite Hm;
        destruct (rateLimitResetTime s <? now s); unfold MAX_PER_WINDOW in *; lia.
  - unfold _sendMessage. mm. rewrite Ha. cbn [negb].
    revert Hc. rewrite _checkRateLimit_spec. cbv zeta.
    destruct (MAX_PER_WINDOW <=? _) eqn:E; [| discriminate]. intros _. cbn [fst snd].
    destruct (rateLimitResetTime s <? now s); simpl; unfold MAX_PER_WINDOW in *; lia.
Qed.

(** X15. The counter of the rate limit stays between 0 and 30 over any
    series of sends that are awaited one after the other, whatever the
    server answers and however much time passes between them: the limit
    of 30 counted messages per window is never exceeded. *)
Theorem counter_never_exceeds_the_limit sends s :
  within_limit s -> within_limit (send_all sends s).
Proof.
  unfold send_all. revert s.
  induction sends as [| x sends IH]; intros s Hw; [exact Hw |].
  simpl. apply IH. apply _sendMessage_within_limit. exact Hw.
Qed.

Lemma counter_never_exceeds_the_limit_witness :
  within_limit (create true no_listeners 0) /\
  within_limit (send_all [ {| payload := VObj []; network := accepting; idle := 10 |};
                           {| payload := VObj []; network := failing; idle := 0 |} ]
                  (create true no_listeners 0)).
Proof.
  assert (H : within_limit (create true no_listeners 0))
    by (unfold within_limit; simpl; unfold MAX_PER_WINDOW; lia).
  split; [exact H |].
  apply (counter_never_exceeds_the_limit _ _ H).
Defined.

Lemma ceil_div_bounds a :
  a <= 1000 * ceil_div a 1000 < a + 1000.
Proof.
  unfold ceil_div.
  pose proof (Z.div_mod (- a) 1000 ltac:(lia)) as H.
  pose proof (Z.mod_pos_bound (- a) 1000 ltac:(lia)) as Hb.
  lia.
Qed.

(** X16. Once 30 messages have been counted, a send in the same window
    is rejected before any request is made, with the error of the rate
    limit as it is (it is not wrapped like the failures of the request),
    and the manager is left as it was. The seconds that the message tells
    the caller to wait cover the rest of the window, rounded up; at the
    very instant at which the window ends the send is still rejected, with
    a wait of 0 seconds, and any later send passes the limit. *)
Theorem exhausted_window_rejects s :
  isAuthenticated s = true -> MAX_PER_WINDOW <= messageCount s ->
  (now s <= rateLimitResetTime s ->
   forall messageData reply,
     _sendMessage messageData reply s
     = (Exn (MessengerError (rate_limit_message (rateLimitResetTime s - now s))), s)) /\
  (rateLimitResetTime s - now s
   <= 1000 * ceil_div (rateLimitResetTime s - now s) 1000
   < rateLimitResetTime s - now s + 1000) /\
  (now s = rateLimitResetTime s ->
   rate_limit_message (rateLimitResetTime s - now s)
   = "Rate limit exceeded. Please wait 0 seconds.") /\
  (rateLimitResetTime s < now s -> (_checkRateLimit s).1 = Val tt).
Proof.
  intros Ha Hm. split; [| split; [| split]].
  - intros Hn messageData reply. unfold _sendMessage. mm. rewrite Ha. cbn [negb].
    rewrite _checkRateLimit_spec. cbv zeta.
    replace (rateLimitResetTime s <? now s) with false by lia.
    replace (MAX_PER_WINDOW <=? messageCount s) with true by lia. reflexivity.
  - apply ceil_div_bounds.
  - intros ->. replace (rateLimitResetTime s - rateLimitResetTime s) with 0 by lia.
    reflexivity.
  - intros Hn. apply _checkRateLimit_passes.
    replace (rateLimitResetTime s <? now s) with true by lia.
    unfold MAX_PER_WINDOW. lia.
Qed.

Lemma exhausted_window_rejects_witness :
  isAuthenticated saturated = true /\ MAX_PER_WINDOW <= messageCount saturated /\
  now saturated = rateLimitResetTime saturated /\
  _sendMessage (VObj []) accepting saturated
  = (Exn (MessengerError "Rate limit exceeded. Please wait 0 seconds."), saturated).
Proof.
  assert (Ha : isAuthenticated saturated = true) by reflexivity.
  assert (Hm : MAX_PER_WINDOW <= messageCount saturated)
    by (simpl; unfold MAX_PER_WINDOW; lia).
  assert (Hn : now saturated = rateLimitResetTime saturated) by reflexivity.
  split; [exact Ha |]. split; [exact Hm |]. split; [exact Hn |].
  destruct (exhausted_window_rejects saturated Ha Hm) as (H1 & _ & H3 & _).
  rewrite (H1 ltac:(rewrite Hn; lia) (VObj []) accepting), (H3 Hn). reflexivity.
Defined.

Lemma read_obj fields key : read (VObj fields) key = Val (field key fields).
Proof. reflexivity. Qed.

Lemma map_get_set key v entries :
  primitive key = true -> map_get key (map_set key v entries) = Some v.
Proof.
  intros Hp.
  assert (Hr : same_key key key = true).
  { destruct key; try discriminate; simpl; auto using Z.eqb_refl, String.eqb_refl.
    destruct b; reflexivity. }
  induction entries as [| [k v'] entries IH]; simpl.
  - rewrite Hr. reflexivity.
  - destruct (same_key k key) eqn:E; simpl; rewrite E; [reflexivity | exact IH].
Qed.

(** X17. When [_sendMessage] resolves with a message, that message is
    the one the server reported: it is stored in [sentMessages] under its
    [id] (and found there again when the [id] is a string or a number),
    the counter of the window, restarted if the window had run out, has
    grown by one, ["messageSent"] has been emitted with it, and
    [lastMessageTime] is the time the response arrived, which is no
    earlier than [MIN_SPACING] plus the time the request took after the
    previous message. *)
Theorem accepted_send_is_stored_counted_and_spaced messageData reply s m :
  (_sendMessage messageData reply s).1 = Val m ->
  let s' := (_sendMessage messageData reply s).2 in
  (exists id, read m "id" = Val id /\
              sentMessages s' = map_set id m (sentMessages s) /\
              (primitive id = true -> map_get id (sentMessages s') = Some m)) /\
  messageCount s'
  = (if rateLimitResetTime s <? now s then 0 else messageCount s) + 1 /\
  emitted s' = emitted s ++ [("messageSent", [m])] /\
  lastMessageTime s' = Z.max (now s) (lastMessageTime s + MIN_SPACING) + latency reply /\
  now s' = lastMessageTime s'.
Proof.
  intros Hv s'. revert Hv. unfold s'. clear s'.
  destruct (isAuthenticated s) eqn:Ha.
  2:{ unfold _sendMessage. mm. rewrite Ha. discriminate. }
  destruct ((_checkRateLimit s).1) as [[] | e] eqn:Hc.
  2:{ unfold _sendMessage. mm. rewrite Ha. cbn [negb].
      destruct (_checkRateLimit s) as [[[] | e'] s1]; [discriminate | discriminate]. }
  rewrite _sendMessage_admitted by assumption.
  destruct (admitted_fields s) as (Hm & Hl & Hs & _ & Hh & He & Hn).
  unfold try_catch, send_catch, throw.
  destruct (send_try_spec reply (admitted s)) as [(e & ->) | (m' & id & Hid & ->)];
    [discriminate |].
  destruct (handlers (admitted s) "messageSent" [m']); [discriminate |].
  intros [= <-]. cbn [fst snd]. unfold stored.
  cbn [sentMessages messageCount emitted lastMessageTime now set_emitted
       set_lastMessageTime set_messageCount set_sentMessages set_now].
  rewrite Hm, Hs, He, Hn.
  split; [| repeat split].
  exists id. split; [exact Hid |]. split; [reflexivity |].
  intros Hp. apply map_get_set. exact Hp.
Qed.

Lemma accepted_send_is_stored_counted_and_spaced_witness :
  let r := _sendMessage (VObj []) accepting (create true no_listeners 0) in
  r.1 = Val sample_message /\
  map_get (VStr "mid.1") (sentMessages r.2) = Some sample_message /\
  messageCount r.2 = 1 /\ lastMessageTime r.2 = 1040.
Proof.
  cbv zeta.
  assert (Hv : (_sendMessage (VObj []) accepting (create true no_listeners 0)).1
               = Val sample_message) by reflexivity.
  destruct (accepted_send_is_stored_counted_and_spaced _ _ _ _ Hv)
    as ((id & Hid & _ & Hg) & Hc & _ & Hl & _).
  split; [exact Hv |].
  assert (id = VStr "mid.1") as -> by (simpl in Hid; congruence).
  split; [apply Hg; reflexivity |]. split; [rewrite Hc; reflexivity |].
  rewrite Hl. reflexivity.
Defined.

(** X18. When the server has accepted a message and a listener of
    ["messageSent"] throws, the send is reported as failed, with a
    [MessengerError] made from what the listener threw, although the
    message has been stored and counted like any message that was sent. *)
Theorem throwing_listener_fails_a_sent_message messageData m id lat s e :
  isAuthenticated s = true -> (_checkRateLimit s).1 = Val tt ->
  read m "id" = Val id ->
  handlers s "messageSent" [m] = Some e ->
  _sendMessage messageData {| answer := Val (accepted m); latency := lat |} s
  = (Exn (MessengerError ("Failed to send message: " +:+ message_of e)),
     stored m id lat (admitted s)).
Proof.
  intros Ha Hc Hid He.
  rewrite _sendMessage_admitted by assumption.
  destruct (admitted_fields s) as (_ & _ & _ & _ & Hh & _).
  unfold try_catch, send_try, stored, accepted. mm. cbn [answer latency].
  repeat (rewrite read_obj; cbn [field String.eqb Ascii.eqb Bool.eqb]; mm).
  cbn [truthy]. mm.
  repeat (rewrite read_obj; cbn [field String.eqb Ascii.eqb Bool.eqb]; mm).
  rewrite Hid. mm.
  cbn [handlers set_emitted set_lastMessageTime set_messageCount set_sentMessages set_now].
  rewrite Hh, He. reflexivity.
Qed.

Lemma throwing_listener_fails_a_sent_message_witness :
  let r := _sendMessage (VObj []) accepting (create true failing_listener 0) in
  r.1 = Exn (MessengerError "Failed to send message: listener failed") /\
  map_get (VStr "mid.1") (sentMessages r.2) = Some sample_message /\
  messageCount r.2 = 1.
Proof.
  cbv zeta. unfold accepting.
  rewrite (throwing_listener_fails_a_sent_message (VObj []) sample_message (VStr "mid.1")
             40 (create true failing_listener 0) (Native (PlainError "listener failed")));
    [| reflexivity | reflexivity | reflexivity | reflexivity].
  split; [reflexivity |]. split; reflexivity.
Defined.

(** ** Text messages *)

Lemma _sendMessage_error_is_not_about_text messageData reply s :
  (_sendMessage messageData reply s).1 <> Exn (MessengerError text_length_message).
Proof.
  unfold _sendMessage. mm.
  destruct (negb (isAuthenticated s)); [discriminate |].
  rewrite _checkRateLimit_spec. cbv zeta.
  destruct (MAX_PER_WINDOW <=? _); cbn [fst snd]; [discriminate |].
  unfold send_catch, throw.
  match goal with
  | |- context [send_try reply ?s1] => destruct (send_try reply s1) as [[m | e] s2]
  end; discriminate.
Qed.

(** X19. [sendText] checks the text before anything else: a text that
    is left out, empty or longer than 20000 is rejected with the error
    about the length of the text, whether or not the client is
    authenticated and whatever the state of the rate limit, and nothing
    changes; that error is thrown in no other case, and a text of exactly
    20000 is accepted. For a valid text the call is [_sendMessage] on an
    object in which the properties of [options] replace the properties of
    the same name that [sendText] sets, the generated [message_id], the
    [type] and the [timestamp] included. *)
Theorem sendText_checks_the_text_first threadId text options id reply s :
  ((sendText threadId text options id reply s).1
   = Exn (MessengerError text_length_message) <-> invalid_text text = true) /\
  (invalid_text text = true -> (sendText threadId text options id reply s).2 = s) /\
  (forall str, invalid_text (Some str) = false <->
               (1 <= String.length str)%nat /\ Z.of_nat (String.length str) <= 20000) /\
  (invalid_text text = false ->
   sendText threadId text options id reply s
   = _sendMessage (text_message threadId text (now s) id options) reply s /\
   forall key fields,
     text_message threadId text (now s) id options = VObj fields ->
     field key fields
     = if has_field key options then field key (rev options)
       else field key (text_fields threadId text (now s) id)).
Proof.
  split; [| split; [| split]].
  - unfold sendText. destruct (invalid_text text).
    + split; reflexivity.
    + split; [| discriminate]. intros H. exfalso. revert H. mm.
      apply _sendMessage_error_is_not_about_text.
  - intros H. unfold sendText. rewrite H. reflexivity.
  - intros str. unfold invalid_text, MAX_TEXT_LENGTH.
    rewrite orb_false_iff, Z.ltb_ge.
    destruct str as [| c str].
    + split; [intros [H _]; discriminate | intros [H _]; simpl in H; lia].
    + split; [intros [_ H]; split; [simpl; lia | exact H]
             | intros [_ H]; split; [reflexivity | exact H]].
  - intros H. unfold sendText. rewrite H. split; [reflexivity |].
    intros key fields [= <-]. apply field_spread.
Qed.

(** ** Messages that arrive *)

Lemma map_set_length key v entries :
  length (map_set key v entries)
  = (length entries + match map_get key entries with Some _ => 0 | None => 1 end)%nat.
Proof.
  induction entries as [| [k v'] entries IH]; simpl; [reflexivity |].
  destruct (same_key k key); simpl; [lia | rewrite IH; lia].
Qed.

(** X20. [handleIncomingMessage] stores the message it builds under its
    [id] before it notifies the client, so the message is stored whether
    or not a listener of ["messageReceived"] throws. The [id] is the [id]
    of the data when it has one and its [message_id] otherwise. A message
    whose [id] is already there takes the place of the earlier one, so
    [receivedCount] counts the different identifiers; with a string or a
    number for [id] the message is found again under it. *)
Theorem incoming_message_is_stored_under_its_id messageData s :
  let message := incoming messageData in
  let r := handleIncomingMessage messageData s in
  let id := field "id" message in
  id = (if has_field "id" messageData then field "id" (rev messageData)
        else field "message_id" messageData) /\
  receivedMessages r.2 = map_set id (VObj message) (receivedMessages s) /\
  r.1 = match handlers s "messageReceived" [VObj message] with
        | Some e => Exn e
        | None => Val (VObj message)
        end /\
  receivedCount (getStats r.2)
  = (receivedCount (getStats s)
     + match map_get id (receivedMessages s) with Some _ => 0 | None => 1 end)%nat /\
  (primitive id = true -> map_get id (receivedMessages r.2) = Some (VObj message)).
Proof.
  cbv zeta.
  assert (Hr : receivedMessages (handleIncomingMessage messageData s).2
               = map_set (field "id" (incoming messageData)) (VObj (incoming messageData))
                   (receivedMessages s)).
  { unfold handleIncomingMessage. mm.
    cbn [handlers set_emitted set_receivedMessages].
    destruct (handlers s "messageReceived" _); reflexivity. }
  split; [| split; [exact Hr | split; [| split]]].
  - unfold incoming. rewrite field_spread. reflexivity.
  - unfold handleIncomingMessage. mm.
    cbn [handlers set_emitted set_receivedMessages].
    destruct (handlers s "messageReceived" _); reflexivity.
  - unfold getStats. cbn [receivedCount]. rewrite Hr. apply map_set_length.
  - intros Hp. rewrite Hr. apply map_get_set. exact Hp.
Qed.

End MessageLaws.

(** * Properties of the end of a session *)

Module SessionLaws.
Import NetworkManager NetworkManagerFacts AuthManager.
Local Open Scope Z_scope.

(** The revocation request resolves exactly when one of its attempts is
    answered below 400 after retried failures only. *)
Lemma revocation_resolves env u st now :
  (exists s, outcome (_makeRequest env "DELETE" u no_options st now) = Resolved s) <->
  exists k s, 1 <= k <= maxRetries st /\ wire (env k) = Answered s /\ s < 400 /\
              forall j, 1 <= j < k -> transient (wire (env j)) = true.
Proof.
  unfold _makeRequest.
  set (st0 := set_requestCount (requestCount st + 1) st).
  destruct (_applyRateLimit st0 now) as [now0 limited]. unfold outcome.
  assert (H : forall s,
             exit (attempt_loop env no_options (S (Z.to_nat (maxRetries st0))) 1 None
                     st0 now0) = Returned s <->
             exists k, 1 <= k <= maxRetries st /\ wire (env k) = Answered s /\ s < 400 /\
                       forall j, 1 <= j < k -> transient (wire (env j)) = true).
  { intros s.
    apply (RequestExecutorLaws.attempt_loop_returns env no_options
             (S (Z.to_nat (maxRetries st0))) 1 None st0 now0 s).
    unfold enough_fuel; simpl; lia. }
  split.
  - intros [s E]. destruct (exit _) as [s' | [e |] |] eqn:Ex; try discriminate.
    injection E as <-. destruct (proj1 (H s') eq_refl) as (k & Hk). exists k, s'. exact Hk.
  - intros (k & s & Hk). exists s. rewrite (proj2 (H s)) by (exists k; exact Hk).
    reflexivity.
Qed.

(** X22. Logging out never fails for the caller, and it ends the session
    only when there was no token or the revocation request resolved, that
    is when one of its attempts up to [maxRetries] was answered below 400
    after retried failures only. Otherwise the failure is printed and the
    manager is left exactly as it was: the token, the user and the cookies
    stay and [getStatus] still reports an authenticated session. *)
Theorem logout_ends_the_session_iff_revoked env a st now :
  exists r,
    logout env a st now = Some r /\
    (logged r = [] <->
     has_token a = false \/
     exists k s, 1 <= k <= maxRetries st /\ wire (env k) = Answered s /\ s < 400 /\
                 forall j, 1 <= j < k -> transient (wire (env j)) = true) /\
    (logged r = [] ->
     auth r = cleared a /\ isAuthenticated (getStatus (auth r)) = false) /\
    (logged r <> [] ->
     auth r = a /\ isAuthenticated (getStatus (auth r)) = true).
Proof.
  unfold logout. destruct (has_token a) eqn:Ht.
  - set (u := (GRAPHQL ++ "?access_token=" ++ default "" (accessToken a))%string).
    pose proof (revocation_resolves env u st now) as Hr.
    pose proof (_makeRequest_terminates env "DELETE" u no_options st now) as Hd.
    cbv zeta.
    destruct (outcome (_makeRequest env "DELETE" u no_options st now))
      as [s | e | |] eqn:Eo; [| | | congruence].
    + eexists. split; [reflexivity |]. cbn [logged auth].
      split; [| split].
      * split; [intros _ | reflexivity]. right. apply Hr. exists s. reflexivity.
      * intros _. split; reflexivity.
      * congruence.
    + eexists. split; [reflexivity |]. cbn [logged auth].
      split; [| split].
      * split; [discriminate |]. intros [Hf | Hk]; [discriminate |].
        apply Hr in Hk. destruct Hk; discriminate.
      * discriminate.
      * intros _. split; [reflexivity |]. exact Ht.
    + eexists. split; [reflexivity |]. cbn [logged auth].
      split; [| split].
      * split; [discriminate |]. intros [Hf | Hk]; [discriminate |].
        apply Hr in Hk. destruct Hk; discriminate.
      * discriminate.
      * intros _. split; [reflexivity |]. exact Ht.
  - eexists. split; [reflexivity |]. cbn [logged auth].
    split; [| split].
    + split; [intros _; left |]; reflexivity.
    + intros _. split; reflexivity.
    + congruence.
Qed.

End SessionLaws.
